(** * SAASH: cluster tracking and the neighbour grid

    A shallow embedding of [src/body/cluster.py] (the [ClusterInfo] life-cycle
    record, the [Observer], [get_groups] and [get_group_sizes]) and of
    [SAASH/util/neighborgrid.py] (the [Neighborgrid] class), with the
    properties of the specification stated over it.

    Conventions of the embedding:
    - a Python exception is a value [Raise e] of the [result] type; a method
      that mutates [self] is a function from the old object to the new one;
    - Python integers are [Z]; body identifiers, which index arrays, are [nat];
    - a float is an IEEE 754 binary64 number and every operation on floats
      rounds as the hardware does ([float64]); the bounds of the box, the
      radius and the coordinates of a body are such floats; an integer that
      numpy keeps in 64 bits is a [Z] with the overflow written out where the
      code can reach it. *)

From Stdlib Require Import ZArith QArith Qround Qpower Lia Lqa.
From Stdlib Require Import Floats.SpecFloat.
From stdpp Require Import gmap strings list fin_maps.

Set Default Proof Using "Type".

(** ** Exceptions *)

Inductive exn : Set :=
  | ValueError | TypeError | IndexError | KeyError | OverflowError.

Inductive result (A : Type) : Type :=
  | Ok (a : A)
  | Raise (e : exn)
  | OutOfFuel.
Arguments Ok {A} a.
Arguments Raise {A} e.
Arguments OutOfFuel {A}.

(** [result] is a monad; stdpp's [x ← r; k] sequences two steps. *)
Global Instance result_ret : MRet result := λ A a, Ok a.
Global Instance result_bind : MBind result := λ A B k r,
  match r with
  | Ok a => k a
  | Raise e => Raise e
  | OutOfFuel => OutOfFuel
  end.

Definition raises {A} (r : result A) : Prop := ∃ e, r = Raise e.
Definition returns {A} (r : result A) : Prop := ∃ a, r = Ok a.

(** [for x in l: st = f(st, x)], aborted by the first exception. *)
Fixpoint for_each {S X} (f : S → X → result S) (l : list X) (st : S) : result S :=
  match l with
  | [] => Ok st
  | x :: l' => st' ← f st x; for_each f l' st'
  end.

(** Python indexing of a sequence by an integer: negative indices count from
    the end, anything outside [-len, len) is an [IndexError]. *)
Definition py_index (len : nat) (i : Z) : option nat :=
  if (0 <=? i)%Z then
    (if (i <? Z.of_nat len)%Z then Some (Z.to_nat i) else None)
  else
    (if (- Z.of_nat len <=? i)%Z then Some (Z.to_nat (Z.of_nat len + i)) else None).

Definition py_get {A} (l : list A) (i : Z) : result A :=
  match py_index (length l) i with
  | Some n => match l !! n with Some a => Ok a | None => Raise IndexError end
  | None => Raise IndexError
  end.

(** ** Floats ([numpy.float64]) and machine integers ([numpy.int64])

    A float is an IEEE 754 binary64 number, and the operations round to
    nearest, ties to even, as the hardware does: they are the ones of the
    Standard Library's [SpecFloat] at precision 53 and maximal exponent
    1024. *)

Definition float64 : Type := spec_float.

Definition fadd : float64 → float64 → float64 := SFadd 53 1024.
Definition fsub : float64 → float64 → float64 := SFsub 53 1024.
Definition fdiv : float64 → float64 → float64 := SFdiv 53 1024.
Definition fopp : float64 → float64 := SFopp.

(** [x < y] and [x <= y]: false as soon as one side is NaN. *)
Definition flt : float64 → float64 → bool := SFltb.
Definition fle : float64 → float64 → bool := SFleb.

Definition is_nan (x : float64) : bool :=
  match x with S754_nan => true | _ => false end.

(** The conversion of an integer to a float, rounded when the integer has
    more than 53 bits. *)
Definition of_int (n : Z) : float64 := binary_normalize 53 1024 n 0 false.

(** The float a decimal literal denotes: the one nearest to the rational
    (for a numerator and a denominator below [2^53]). *)
Definition f64 (q : Q) : float64 := fdiv (of_int (Qnum q)) (of_int (Zpos (Qden q))).

(** The number a float stands for; none for the infinities and NaN. *)
Definition float_value (x : float64) : option Q :=
  match x with
  | S754_zero _ => Some 0%Q
  | S754_finite s m e =>
      Some (match e with
            | Zneg p => Qmake (cond_Zopp s (Zpos m)) (Pos.pow 2 p)
            | _ => inject_Z (cond_Zopp s (Zpos m) * 2 ^ e)
            end)
  | _ => None
  end.

Definition float_values (l : list float64) : option (list Q) := mapM float_value l.

Definition in_int64 (n : Z) : bool := ((- 2 ^ 63 <=? n) && (n <? 2 ^ 63))%Z.

(** [int_array[i] = np.floor(x)]: what is stored is the floor of [x] as an
    integer. Storing an infinity is an [OverflowError], storing NaN a
    [ValueError], and storing a number outside the 64-bit range an
    [OverflowError]. *)
Definition floor_to_int (x : float64) : result Z :=
  match float_value x with
  | Some q => if in_int64 (Qfloor q) then Ok (Qfloor q) else Raise OverflowError
  | None => if is_nan x then Raise ValueError else Raise OverflowError
  end.

(** [x.astype(int)]: truncation towards zero. The cast of an infinity, of
    NaN or of a number outside the 64-bit range has no defined value in C;
    it is the smallest 64-bit integer on x86-64, which is what is written
    here. *)
Definition astype_int (x : float64) : Z :=
  match float_value x with
  | Some q =>
      let n := if Qle_bool 0 q then Qfloor q else Qceiling q in
      if in_int64 n then n else (- 2 ^ 63)%Z
  | None => (- 2 ^ 63)%Z
  end.

(** [a + b] on [numpy.int64]: the sum wraps around (with a warning). *)
Definition int64_add (a b : Z) : Z :=
  ((a + b + 2 ^ 63) mod 2 ^ 64 - 2 ^ 63)%Z.

(** ** Bodies and clusters ([cluster.py], class [Cluster]) *)

(** A body: the identifier returned by [get_id] and the position returned by
    [get_position]. Two references denote the same body when the identifiers
    agree (identifiers are unique). *)
Record Body : Type := mkBody {
  get_id : nat;
  get_position : list float64
}.

Record Cluster : Type := mkCluster {
  cl_bodies : list Body;
  cl_cluster_index : Z;
  cl_last_updated : Z
}.

(** [Cluster.__init__(bodies, frame_num)] *)
Definition Cluster_init (bodies : list Body) (frame_num : Z) : Cluster :=
  {| cl_bodies := bodies; cl_cluster_index := (-1)%Z; cl_last_updated := frame_num |}.

Definition get_bodies (c : Cluster) : list Body := cl_bodies c.
Definition get_body_ids (c : Cluster) : list nat := get_id <$> cl_bodies c.
Definition get_body_positions (c : Cluster) : list (list float64) :=
  get_position <$> cl_bodies c.

(** ** The observer ([cluster.py], class [Observer]) *)

Record Observer : Type := mkObserver {
  outfile : string;
  observable_set : gset string;
  current_monomer : Q;
  previous_monomer : Q
}.

Definition Observer_init : Observer :=
  {| outfile := "test_out.py"; observable_set := ∅;
     current_monomer := (-1)%Q; previous_monomer := (-1)%Q |}.

Definition add_observable (o : Observer) (observable : string) : Observer :=
  {| outfile := outfile o; observable_set := {[observable]} ∪ observable_set o;
     current_monomer := current_monomer o; previous_monomer := previous_monomer o |}.

Definition get_observables (o : Observer) : gset string := observable_set o.

Definition init_test_set (o : Observer) : Observer :=
  {| outfile := outfile o; observable_set := {["positions"]};
     current_monomer := current_monomer o; previous_monomer := previous_monomer o |}.

(** ** The life-cycle record ([cluster.py], class [ClusterInfo]) *)

(** The values stored in a property dictionary. *)
Inductive value : Type :=
  | VInt (n : Z)
  | VPositions (ps : list (list float64))
  | VFloat (q : Q).

Record ClusterInfo : Type := mkClusterInfo {
  birth_frame : Z;
  death_frame : Z;
  last_updated : Z;
  lifetime : Z;
  is_dead : bool;
  has_parent : bool;
  observer : Observer;
  stored_data : list (gmap string value);
  from_monomer : list (gmap string value * Z);
  to_monomer : list (gmap string value * Z)
}.

(** One turn of the loop of [__compute_coordinate]. The [else] branch is
    [raise("...")]: raising a string is a [TypeError] in Python 3. *)
Definition compute_observable (cluster : Cluster)
    (property_dict : gmap string value) (obs : string) : result (gmap string value) :=
  if String.eqb obs "num_bodies" then
    Ok (<["num_bodies" := VInt (Z.of_nat (length (get_bodies cluster)))]> property_dict)
  else if String.eqb obs "positions" then
    Ok (<["positions" := VPositions (get_body_positions cluster)]> property_dict)
  else Raise TypeError.

(** [ClusterInfo.__compute_coordinate]; the set of observables is walked in
    the order [elements] lists it. *)
Definition compute_coordinate (self : ClusterInfo) (cluster : Cluster)
    : result (gmap string value) :=
  for_each (compute_observable cluster)
           (elements (get_observables (observer self))) ∅.

Definition set_stored_data (self : ClusterInfo) (d : list (gmap string value))
    (parent : bool) (upd : Z) : ClusterInfo :=
  {| birth_frame := birth_frame self; death_frame := death_frame self;
     last_updated := upd; lifetime := lifetime self;
     is_dead := is_dead self; has_parent := parent;
     observer := observer self; stored_data := d;
     from_monomer := from_monomer self; to_monomer := to_monomer self |}.

(** [ClusterInfo.set_parent] *)
Definition set_parent (self : ClusterInfo) (cluster : Cluster) : result ClusterInfo :=
  if negb (has_parent self) then
    d ← compute_coordinate self cluster;
    Ok (set_stored_data self (d :: stored_data self) true (last_updated self))
  else Ok self.

(** [ClusterInfo.kill], with [__set_lifetime] inlined *)
Definition kill (self : ClusterInfo) (frame_num : Z) : ClusterInfo :=
  {| birth_frame := birth_frame self; death_frame := frame_num;
     last_updated := last_updated self;
     lifetime := (frame_num - birth_frame self)%Z;
     is_dead := true; has_parent := has_parent self;
     observer := observer self; stored_data := stored_data self;
     from_monomer := from_monomer self; to_monomer := to_monomer self |}.

(** [ClusterInfo.update_data] *)
Definition update_data (self : ClusterInfo) (cluster : Cluster) (frame_num : Z)
    (monomer_frac : Q) : result ClusterInfo :=
  if (last_updated self <? frame_num)%Z && negb (is_dead self) then
    d ← compute_coordinate self cluster;
    Ok (set_stored_data self
          (stored_data self ++ [<["monomer_fraction" := VFloat monomer_frac]> d])
          (has_parent self) frame_num)
  else Ok self.

Definition set_monomer_logs (self : ClusterInfo)
    (from to : list (gmap string value * Z)) : ClusterInfo :=
  {| birth_frame := birth_frame self; death_frame := death_frame self;
     last_updated := last_updated self; lifetime := lifetime self;
     is_dead := is_dead self; has_parent := has_parent self;
     observer := observer self; stored_data := stored_data self;
     from_monomer := from; to_monomer := to |}.

(** [ClusterInfo.add_monomers] *)
Definition add_monomers (self : ClusterInfo) (cluster : Cluster) (num_monomers : Z)
    (monomer_frac : Q) : result ClusterInfo :=
  d ← compute_coordinate self cluster;
  Ok (set_monomer_logs self
        (from_monomer self ++ [(<["monomer_fraction" := VFloat monomer_frac]> d, num_monomers)])
        (to_monomer self)).

(** [ClusterInfo.remove_monomers] *)
Definition remove_monomers (self : ClusterInfo) (cluster : Cluster) (num_monomers : Z)
    : result ClusterInfo :=
  d ← compute_coordinate self cluster;
  Ok (set_monomer_logs self (from_monomer self)
        (to_monomer self ++ [(d, num_monomers)])).

(** [ClusterInfo.__init__]: the fields are set, the first snapshot is taken
    by [update_data], then the two monomer logs are (re)set to empty. *)
Definition ClusterInfo_init (cluster : Cluster) (frame_num : Z) (monomer_frac : Q)
    (obs : Observer) : result ClusterInfo :=
  let self :=
    {| birth_frame := frame_num; death_frame := (-1)%Z; last_updated := (-1)%Z;
       lifetime := (-1)%Z; is_dead := false; has_parent := false;
       observer := obs; stored_data := [];
       from_monomer := []; to_monomer := [] |} in
  self' ← update_data self cluster frame_num monomer_frac;
  Ok (set_monomer_logs self' [] []).

Definition get_data (self : ClusterInfo) := stored_data self.
Definition get_monomer_gain_data (self : ClusterInfo) := from_monomer self.
Definition get_monomer_loss_data (self : ClusterInfo) := to_monomer self.
Definition get_lifetime (self : ClusterInfo) : Z := lifetime self.

(** The calls a driver can make on a record after its construction. *)
Inductive call : Type :=
  | CallUpdateData (cluster : Cluster) (frame_num : Z) (monomer_frac : Q)
  | CallSetParent (cluster : Cluster)
  | CallKill (frame_num : Z)
  | CallAddMonomers (cluster : Cluster) (num_monomers : Z) (monomer_frac : Q)
  | CallRemoveMonomers (cluster : Cluster) (num_monomers : Z).

Definition do_call (self : ClusterInfo) (c : call) : result ClusterInfo :=
  match c with
  | CallUpdateData cl f mf => update_data self cl f mf
  | CallSetParent cl => set_parent self cl
  | CallKill f => Ok (kill self f)
  | CallAddMonomers cl n mf => add_monomers self cl n mf
  | CallRemoveMonomers cl n => remove_monomers self cl n
  end.

Definition do_calls (self : ClusterInfo) (cs : list call) : result ClusterInfo :=
  for_each do_call cs self.

Definition is_update_data (c : call) : bool :=
  match c with CallUpdateData _ _ _ => true | _ => false end.

(** ** Connected components of the bond graph ([cluster.py], [get_groups]) *)

(** The local variables of [get_groups]. [to_group] is the numpy array of
    group numbers ([-1]: not assigned), [G] the list of groups. *)
Record groups_state : Type := mkGroupsState {
  to_group : list Z;
  G : list (list nat);
  queue : list nat;
  searched : list nat
}.

(** [a[i]] and [a[i] = v] on a numpy array, for a non-negative index. *)
Definition np_get (a : list Z) (i : nat) : result Z :=
  match a !! i with Some v => Ok v | None => Raise IndexError end.

Definition np_set (a : list Z) (i : nat) (v : Z) : result (list Z) :=
  if decide (i < length a) then Ok (<[i := v]> a) else Raise IndexError.

(** [G[group_num].append(member)] *)
Definition group_append (G : list (list nat)) (group_num : Z) (member : nat)
    : result (list (list nat)) :=
  match py_index (length G) group_num with
  | Some n =>
      match G !! n with
      | Some grp => Ok (<[n := grp ++ [member]]> G)
      | None => Raise IndexError
      end
  | None => Raise IndexError
  end.

(** The body of [for member in adj_list]. *)
Definition visit_member (group_num : Z) (st : groups_state) (member : nat)
    : result groups_state :=
  grp ← py_get (G st) group_num;
  st1 ← (if bool_decide (member ∈ grp) then Ok st
         else
           G' ← group_append (G st) group_num member;
           tg ← np_set (to_group st) member group_num;
           Ok {| to_group := tg; G := G'; queue := queue st; searched := searched st |});
  if bool_decide (member ∉ searched st1) && bool_decide (member ∉ queue st1) then
    Ok {| to_group := to_group st1; G := G st1;
          queue := queue st1 ++ [member]; searched := searched st1 |}
  else Ok st1.

(** [np.where(to_group == -1)[0]]: the indices holding [-1], in order. *)
Fixpoint where_unassigned (from : nat) (a : list Z) : list nat :=
  match a with
  | [] => []
  | v :: a' =>
      if (v =? -1)%Z then from :: where_unassigned (S from) a'
      else where_unassigned (S from) a'
  end.

(** The [if len(queue) == 0 and len(searched) != total_states] block. *)
Definition start_new_group (total_states : nat) (st : groups_state)
    : result groups_state :=
  if bool_decide (length (queue st) = 0) && bool_decide (length (searched st) ≠ total_states) then
    match where_unassigned 0 (to_group st) with
    | unassigned :: _ =>
        let G' := G st ++ [[unassigned]] in
        tg ← np_set (to_group st) unassigned (Z.of_nat (length G') - 1);
        Ok {| to_group := tg; G := G';
              queue := queue st ++ [unassigned]; searched := searched st |}
    | [] => Raise IndexError
    end
  else Ok st.

(** One turn of [while len(queue) > 0], the queue being [bod :: rest]. *)
Definition groups_step (bond_dict : gmap nat (list nat)) (total_states : nat)
    (bod : nat) (st : groups_state) : result groups_state :=
  group_num ← np_get (to_group st) bod;
  adj_list ← (match bond_dict !! bod with Some l => Ok l | None => Raise KeyError end);
  st1 ← for_each (visit_member group_num) adj_list st;
  start_new_group total_states
    {| to_group := to_group st1; G := G st1;
       queue := queue st1; searched := searched st1 ++ [bod] |}.

(** The [while] loop, with a bound on the number of turns. *)
Fixpoint groups_loop (fuel : nat) (bond_dict : gmap nat (list nat))
    (total_states : nat) (st : groups_state) : result (list (list nat)) :=
  match queue st with
  | [] => Ok (G st)
  | bod :: rest =>
      match fuel with
      | O => OutOfFuel
      | S fuel' =>
          st' ← groups_step bond_dict total_states bod
                  {| to_group := to_group st; G := G st;
                     queue := rest; searched := searched st |};
          groups_loop fuel' bond_dict total_states st'
      end
  end.

(** [get_groups(bond_dict)]. [to_group[0] = 0] is an [IndexError] on the
    empty array. A body is searched at most twice (Lemma
    [get_groups_terminates]), which bounds the turns of the loop. *)
Definition get_groups (bond_dict : gmap nat (list nat)) : result (list (list nat)) :=
  let total_states := size bond_dict in
  tg ← np_set (replicate total_states (-1)%Z) 0 0%Z;
  groups_loop (2 * total_states + 1) bond_dict total_states
    {| to_group := tg; G := [[0]]; queue := [0]; searched := [] |}.

(** The bond relation and reachability in the bond graph. *)
Definition bonded (bond_dict : gmap nat (list nat)) (i j : nat) : Prop :=
  ∃ l, bond_dict !! i = Some l ∧ j ∈ l.

Definition connected (bond_dict : gmap nat (list nat)) : relation nat :=
  rtc (bonded bond_dict).

(** The input contract of [get_groups]: the keys are [0 .. N-1], and the
    adjacency is symmetric. *)
Definition keys_are_range (bond_dict : gmap nat (list nat)) : Prop :=
  ∀ i, is_Some (bond_dict !! i) ↔ i < size bond_dict.

Definition symmetric_bonds (bond_dict : gmap nat (list nat)) : Prop :=
  ∀ i j, bonded bond_dict i j → bonded bond_dict j i.

Definition no_self_bond (bond_dict : gmap nat (list nat)) : Prop :=
  ∀ i, ¬ bonded bond_dict i i.

(** [G] is a partition of the identifiers [0 .. N-1] into the connected
    components of the bond graph. *)
Record is_partition (bond_dict : gmap nat (list nat)) (G : list (list nat)) : Prop := {
  part_cover : ∀ i, i < size bond_dict ↔ ∃ grp, grp ∈ G ∧ i ∈ grp;
  part_disjoint : ∀ a b ga gb i,
    G !! a = Some ga → G !! b = Some gb → i ∈ ga → i ∈ gb → a = b;
  part_nodup : ∀ grp, grp ∈ G → NoDup grp;
  part_connected : ∀ grp i j, grp ∈ G → i ∈ grp → j ∈ grp → connected bond_dict i j;
  part_separated : ∀ a b ga gb i j,
    G !! a = Some ga → G !! b = Some gb → i ∈ ga → j ∈ gb → a ≠ b →
    ¬ connected bond_dict i j
}.

(** ** Distances and the other helpers of the grid *)

Definition Qltb (a b : Q) : bool := negb (Qle_bool b a).

(** [a % n] on numpy integers: the sign of the divisor, and [0] (with a
    warning) for a zero divisor. *)
Definition np_mod (a n : Z) : Z := if (n =? 0)%Z then 0%Z else (a mod n)%Z.

(** [itertools.product(values, repeat=n)], first component varying slowest. *)
Fixpoint product (values : list Z) (n : nat) : list (list Z) :=
  match n with
  | O => [[]]
  | S n' => x ← values; (x ::.) <$> product values n'
  end.

(** Modelled from the spec: [Body.distance_to_body(other, domain_size)] is
    not among the sources; the specification describes it as the
    periodic-aware distance under the minimum-image convention over
    [domain_size]. [min_image dx L] is the displacement [dx] brought back to
    the nearest image (for a zero extent the displacement is left as it is),
    [distance_sq] the squared length of the wrapped displacement, and
    [distance_lt] decides [distance < R] on squares. How the absent method
    rounds is not known: the distance is taken on the numbers the floats
    stand for, without rounding, and the test is false as soon as a
    coordinate, an extent or [R] is an infinity or NaN. *)
Definition min_image (dx L : Q) : Q :=
  (dx - L * inject_Z (Qfloor (dx / L + (1 # 2))))%Q.

Fixpoint distance_sq (p1 p2 domain_size : list Q) : Q :=
  match p1, p2, domain_size with
  | x1 :: p1', x2 :: p2', L :: ds' =>
      (min_image (x1 - x2) L * min_image (x1 - x2) L + distance_sq p1' p2' ds')%Q
  | _, _, _ => 0%Q
  end.

Definition distance_lt (body_j body : Body) (domain_size : list float64) (R : float64)
    : bool :=
  match float_values (get_position body_j), float_values (get_position body),
        float_values domain_size, float_value R with
  | Some p1, Some p2, Some ds, Some r =>
      Qltb 0 r && Qltb (distance_sq p1 p2 ds) (r * r)
  | _, _, _, _ => false
  end.

(** [body != body_j]: the two references denote different bodies. *)
Definition body_neq (body body_j : Body) : bool :=
  negb (get_id body =? get_id body_j).

(** ** The neighbour grid ([neighborgrid.py], class [Neighborgrid]) *)

Module Neighborgrid.

Record t : Type := mk {
  lim : list (float64 * float64);
  domain_size : list float64;
  periodic : list bool;
  R : float64;
  dim : nat;
  numD : list Z;
  boxSize : list float64;
  map : gmap (list Z) (list Body);
  shift : list float64;
  indexAdjustment : list (list Z)
}.

Definition set_map (self : t) (m : gmap (list Z) (list Body)) : t :=
  {| lim := lim self; domain_size := domain_size self; periodic := periodic self;
     R := R self; dim := dim self; numD := numD self; boxSize := boxSize self;
     map := m; shift := shift self; indexAdjustment := indexAdjustment self |}.

(** The body of the first loop of [__init__] for one axis:
    [numD[i] = np.floor(domain_size[i] / (R/2))] and
    [boxSize[i] = domain_size[i] / numD[i]], a division by the float the
    integer [numD[i]] converts to. A division by zero gives an infinity or
    NaN (with a warning), never an exception. *)
Definition init_axis (R : float64) (acc : list Z * list float64) (size : float64)
    : result (list Z * list float64) :=
  n ← floor_to_int (fdiv size (fdiv R (of_int 2)));
  Ok (acc.1 ++ [n], acc.2 ++ [fdiv size (of_int n)]).

(** [Neighborgrid.__init__(lim, R, periodic)], [lim] being the rows
    [[min, max]] of the bounding box. With no row, [np.array(lim)] has one
    dimension and [self.lim[:,1]] is an [IndexError]. *)
Definition init (lim : list (float64 * float64)) (R : float64) (periodic : list bool)
    : result t :=
  match lim with
  | [] => Raise IndexError
  | _ :: _ =>
      let domain_size := (λ row : float64 * float64, fsub row.2 row.1) <$> lim in
      let dim := length lim in
      axes ← for_each (init_axis R) domain_size ([], []);
      Ok {| lim := lim; domain_size := domain_size; periodic := periodic;
            R := R; dim := dim; numD := axes.1; boxSize := axes.2;
            map := ∅;
            shift := (λ row : float64 * float64, fopp row.1) <$> lim;
            indexAdjustment := product [-2; -1; 0; 1; 2]%Z dim |}
  end.

(** numpy broadcasting of the sliced position against the [dim] columns of
    [lim]: equal lengths, or a length of one on either side; any other
    combination is a [ValueError]. *)
Definition broadcast (dim : nat) (position : list float64) : result (list float64) :=
  if length position =? dim then Ok position
  else match position with
       | [x] => Ok (replicate dim x)
       | [] => if dim =? 1 then Ok [] else Raise ValueError
       | _ => Raise ValueError
       end.

Definition out_of_bounds (position : list float64) (lim : list (float64 * float64))
    : bool :=
  existsb (λ pl : float64 * (float64 * float64), flt pl.1 pl.2.1) (zip position lim)
  || existsb (λ pl : float64 * (float64 * float64), flt pl.2.2 pl.1) (zip position lim).

(** [Neighborgrid.convertPosToIndex] *)
Definition convertPosToIndex (self : t) (body : Body) : result (list Z) :=
  position ← broadcast (dim self) (take (dim self) (get_position body));
  if out_of_bounds position (lim self) then Raise ValueError
  else
    Ok (zip_with (λ (ps b : float64), astype_int (fdiv ps b))
          (zip_with fadd position (shift self))
          (boxSize self)).

(** [Neighborgrid.addItemToMap] *)
Definition addItemToMap (m : gmap (list Z) (list Body)) (key : list Z) (value : Body)
    : gmap (list Z) (list Body) :=
  match m !! key with
  | Some l => <[key := l ++ [value]]> m
  | None => <[key := [value]]> m
  end.

(** The loop of [update]: the grid as it is when the loop ends, and how it
    ends. An exception leaves the bodies inserted so far in the map. *)
Fixpoint update_loop (self : t) (bodies : list Body) : t * result unit :=
  match bodies with
  | [] => (self, Ok ())
  | body :: rest =>
      match convertPosToIndex self body with
      | Ok key => update_loop (set_map self (addItemToMap (map self) key body)) rest
      | Raise e => (self, Raise e)
      | OutOfFuel => (self, OutOfFuel)
      end
  end.

(** [Neighborgrid.update]: [self.map.clear()], then the loop. *)
Definition update (self : t) (bodies : list Body) : t * result unit :=
  update_loop (set_map self ∅) bodies.

(** [Neighborgrid.AdjacentBoxes]; [centerBox[i]] is an [IndexError] when the
    tuple has fewer than [dim] entries. The entries of the centre are
    [numpy.int64], so the sum with the shift wraps around. *)
Definition neighborBox (self : t) (centerBox boxAdjustment : list Z) : result (list Z) :=
  if decide (dim self ≤ length centerBox) then
    Ok (zip_with (λ (ca : Z * Z) (n : Z), np_mod (int64_add ca.1 ca.2) n)
          (zip (take (dim self) centerBox) boxAdjustment) (numD self))
  else Raise IndexError.

Definition AdjacentBoxes (self : t) (centerBox : list Z) : result (list (list Z)) :=
  for_each (λ neighbor_list boxAdjustment,
              box ← neighborBox self centerBox boxAdjustment;
              Ok (neighbor_list ++ [box]))
           (indexAdjustment self) [].

(** The two inner loops of [getNeighborhood] for one box. *)
Definition scan_box (self : t) (body : Body) (body_list : list Body) (box : list Z)
    : list Body :=
  match map self !! box with
  | Some bucket =>
      body_list ++
      filter (λ body_j, body_neq body body_j
                        && distance_lt body_j body (domain_size self) (R self)) bucket
  | None => body_list
  end.

(** [Neighborgrid.getNeighborhood] *)
Definition getNeighborhood (self : t) (body : Body) : result (list Body) :=
  centerBox ← convertPosToIndex self body;
  boxes ← AdjacentBoxes self centerBox;
  Ok (foldl (scan_box self body) [] boxes).

(** The same grid with other periodicity flags. *)
Definition set_periodic (self : t) (flags : list bool) : t :=
  {| lim := lim self; domain_size := domain_size self; periodic := flags;
     R := R self; dim := dim self; numD := numD self; boxSize := boxSize self;
     map := map self; shift := shift self; indexAdjustment := indexAdjustment self |}.

(** [body] has a coordinate, on one of the [dim] axes, outside the bounds
    [lim] gives for that axis. *)
Definition outside (self : t) (body : Body) : Prop :=
  ∃ i x lo hi,
    i < dim self ∧ get_position body !! i = Some x ∧ lim self !! i = Some (lo, hi)
    ∧ (flt x lo = true ∨ flt hi x = true).

(** The map after [addItemToMap] of each body under its key, in order. *)
Definition insert_all (keyed : list (list Z * Body)) (m : gmap (list Z) (list Body))
    : gmap (list Z) (list Body) :=
  foldl (λ m kb, addItemToMap m kb.1 kb.2) m keyed.

End Neighborgrid.

(** The all-pairs scan the grid is compared with: the bodies other than
    [body] at a distance below [R]. *)
Definition brute_force (bodies : list Body) (domain_size : list float64) (R : float64)
    (body : Body) : list Body :=
  filter (λ body_j, body_neq body body_j && distance_lt body_j body domain_size R) bodies.

(** The wrapped cell [AdjacentBoxes] computes from a centre and one shift. *)
Definition wrap_cells (numD : list Z) (centerBox boxAdjustment : list Z) : list Z :=
  zip_with (λ (ca : Z * Z) (n : Z), np_mod (int64_add ca.1 ca.2) n)
           (zip centerBox boxAdjustment) numD.

(** ** Counting recorded frames *)

(** The frame numbers passed to [update_data] while the record is alive:
    those of the calls made before the first [kill]. *)
Fixpoint frames_alive (cs : list call) : list Z :=
  match cs with
  | [] => []
  | CallKill _ :: _ => []
  | CallUpdateData _ f _ :: cs' => f :: frames_alive cs'
  | _ :: cs' => frames_alive cs'
  end.

(** How many entries of [fs] are strictly above everything before them
    ([seen] being what came before [fs]). *)
Fixpoint increasing_from (seen fs : list Z) : nat :=
  match fs with
  | [] => 0
  | f :: fs' =>
      (if forallb (λ g, g <? f)%Z seen then 1 else 0) + increasing_from (f :: seen) fs'
  end.

(** The number of distinct strictly increasing frame numbers a record has
    been given: the one of its construction, then those of [cs]. *)
Definition increasing_frames (frame_num : Z) (cs : list call) : nat :=
  increasing_from [] (frame_num :: frames_alive cs).

Definition parent_entries (self : ClusterInfo) : nat :=
  if has_parent self then 1 else 0.

(** The observable names [__compute_coordinate] knows. *)
Definition recognized (name : string) : Prop :=
  name = "num_bodies" ∨ name = "positions".

(** How many times [x] occurs in [l]. *)
Definition occurrences (x : nat) (l : list nat) : nat :=
  length (filter (x =.) l).

(** What holds of the variables of [get_groups] on any bond dictionary, as
    long as no exception is raised. No body is listed more than [k] times in
    the queue and in [searched] together: [k] is 1 when no body is bonded to
    itself, and 2 otherwise. *)
Record groups_wf (bond_dict : gmap nat (list nat)) (k : nat) (current : list nat)
    (st : groups_state) : Prop := {
  wf_length : length (to_group st) = size bond_dict;
  wf_groups : G st ≠ [];
  wf_member_assigned : ∀ grp x, grp ∈ G st → x ∈ grp →
                       ∃ v, to_group st !! x = Some v ∧ v ≠ (-1)%Z;
  wf_listed : ∀ x, x ∈ current ++ queue st ++ searched st →
              ∃ grp, grp ∈ G st ∧ x ∈ grp;
  wf_weight : ∀ x, occurrences x (current ++ queue st ++ searched st) ≤ k;
  wf_searched_keys : ∀ x, x ∈ searched st → is_Some (bond_dict !! x)
}.

(** The input contract as a program, to check a given dictionary. *)
Definition bonded_b (bond_dict : gmap nat (list nat)) (i j : nat) : bool :=
  match bond_dict !! i with
  | Some l => bool_decide (j ∈ l)
  | None => false
  end.

Definition keys_are_range_b (bond_dict : gmap nat (list nat)) : bool :=
  bool_decide (dom bond_dict = set_seq 0 (size bond_dict)).

Definition symmetric_bonds_b (bond_dict : gmap nat (list nat)) : bool :=
  forallb (λ il : nat * list nat, forallb (λ j, bonded_b bond_dict j il.1) il.2)
          (map_to_list bond_dict).

Definition no_self_bond_b (bond_dict : gmap nat (list nat)) : bool :=
  forallb (λ il : nat * list nat, negb (bonded_b bond_dict il.1 il.1))
          (map_to_list bond_dict).

(** ** The invariant of the loop of [get_groups] *)

(** The number of the group under construction: the last one of [G]. *)
Definition last_group (st : groups_state) : Z := (Z.of_nat (length (G st)) - 1)%Z.

(** [x] is a member of group number [g]. *)
Definition group_of (G : list (list nat)) (x g : nat) : Prop :=
  ∃ grp, G !! g = Some grp ∧ x ∈ grp.

(** What holds of the variables of [get_groups] at the head of the [while]
    loop ([current = []]) and inside the [for] loop ([current = [bod]], the
    body popped from the queue and not yet appended to [searched]). *)
Record groups_inv (bond_dict : gmap nat (list nat)) (current : list nat)
    (st : groups_state) : Prop := {
  inv_length : length (to_group st) = size bond_dict;
  inv_groups : G st ≠ [];
  inv_to_group : ∀ x g, to_group st !! x = Some (Z.of_nat g) ↔ group_of (G st) x g;
  inv_values : ∀ x v, to_group st !! x = Some v → v = (-1)%Z ∨ (0 ≤ v)%Z;
  inv_group_nodup : ∀ g grp, G st !! g = Some grp → NoDup grp;
  inv_nodup : NoDup (current ++ queue st ++ searched st);
  inv_frontier : ∀ x, x ∈ current ++ queue st → to_group st !! x = Some (last_group st);
  inv_assigned : ∀ x v, to_group st !! x = Some v → v ≠ (-1)%Z →
                        x ∈ current ++ queue st ++ searched st;
  inv_searched : ∀ x, x ∈ searched st → ∃ g, to_group st !! x = Some (Z.of_nat g);
  inv_closed : ∀ s m, s ∈ searched st → bonded bond_dict s m →
                      to_group st !! m = to_group st !! s;
  inv_connected : ∀ g grp x y, G st !! g = Some grp → x ∈ grp → y ∈ grp →
                               connected bond_dict x y
}.

(** ** Sample data *)

Definition sample_cluster : Cluster :=
  Cluster_init [mkBody 0 (f64 <$> [1; 1; 1]%Q); mkBody 1 (f64 <$> [3 # 2; 1; 1]%Q)] 0.

Definition test_observer : Observer :=
  add_observable (init_test_set Observer_init) "num_bodies".

Definition bonds_observer : Observer :=
  add_observable Observer_init "bonds".

Definition blank_info (obs : Observer) : ClusterInfo :=
  {| birth_frame := 0; death_frame := -1; last_updated := -1; lifetime := -1;
     is_dead := false; has_parent := false; observer := obs;
     stored_data := []; from_monomer := []; to_monomer := [] |}.

Definition sample_calls : list call :=
  [ CallUpdateData sample_cluster 1 (1 # 2);
    CallUpdateData sample_cluster 1 (1 # 3);
    CallSetParent sample_cluster;
    CallUpdateData sample_cluster 3 (1 # 4);
    CallUpdateData sample_cluster 2 (1 # 4);
    CallKill 4;
    CallUpdateData sample_cluster 9 (1 # 5) ].

(** The record of [sample_cluster], constructed at frame 0. *)
Definition sample_info0 : ClusterInfo :=
  match ClusterInfo_init sample_cluster 0 (1 # 2) test_observer with
  | Ok self => self
  | _ => blank_info test_observer
  end.

(** The same record after [sample_calls]. *)
Definition sample_info : ClusterInfo :=
  match do_calls sample_info0 sample_calls with
  | Ok self => self
  | _ => sample_info0
  end.

(** The grid of the scenario in two dimensions: the box [0,10] x [0,10],
    radius 1. *)
Definition sample_grid : Neighborgrid.t :=
  match Neighborgrid.init [(f64 0, f64 10); (f64 0, f64 10)] (f64 1) [false; false] with
  | Ok g => g
  | _ => Neighborgrid.mk [] [] [] (f64 0) 0 [] [] ∅ [] []
  end.

Definition body_a : Body := mkBody 0 (f64 <$> [1; 1]%Q).
Definition body_b : Body := mkBody 1 (f64 <$> [3 # 2; 1]%Q).
Definition body_far : Body := mkBody 2 (f64 <$> [5; 5]%Q).
Definition body_out : Body := mkBody 3 (f64 <$> [11; 5]%Q).
Definition body_edge : Body := mkBody 4 (f64 <$> [10; 1]%Q).
Definition body_near_edge : Body := mkBody 5 (f64 <$> [99 # 10; 1]%Q).

(** Three bonded bodies, two bonded bodies and a single one. *)
Definition sample_bonds : gmap nat (list nat) :=
  list_to_map [(0, [1; 2]); (1, [0]); (2, [0]); (3, [4]); (4, [3]); (5, [])].

(** A body bonded to itself, next to a single body. *)
Definition self_bonds : gmap nat (list nat) :=
  list_to_map [(0, [0]); (1, [])].

(** A body bonded to itself, next to a body with the identifier 7. *)
Definition sparse_self_bonds : gmap nat (list nat) :=
  list_to_map [(0, [0]); (7, [])].

(** A dictionary without the key 0. *)
Definition bonds_without_0 : gmap nat (list nat) :=
  list_to_map [(1, [2]); (2, [1])].

(** The scenario in three dimensions: the box [0,10]^3, radius 1. *)
Definition scenario_grid : Neighborgrid.t :=
  match Neighborgrid.init [(f64 0, f64 10); (f64 0, f64 10); (f64 0, f64 10)] (f64 1)
          [false; false; false] with
  | Ok g => g
  | _ => Neighborgrid.mk [] [] [] (f64 0) 0 [] [] ∅ [] []
  end.

Definition scenario_bodies : list Body :=
  [mkBody 0 (f64 <$> [1; 1; 1]%Q); mkBody 1 (f64 <$> [3 # 2; 1; 1]%Q);
   mkBody 2 (f64 <$> [5; 5; 5]%Q)].

(** ** The life of a record, observed *)

(** The value [__compute_coordinate] stores under a recognized name. *)
Definition observable_value (cluster : Cluster) (name : string) : value :=
  if String.eqb name "num_bodies" then VInt (Z.of_nat (length (get_bodies cluster)))
  else VPositions (get_body_positions cluster).

(** The frame of the last [kill] among [cs], if any. *)
Fixpoint last_kill (cs : list call) : option Z :=
  match cs with
  | [] => None
  | CallKill f :: cs' => match last_kill cs' with Some d => Some d | None => Some f end
  | _ :: cs' => last_kill cs'
  end.

(** A snapshot is stamped when it holds the key "monomer_fraction". *)
Definition stamped (d : gmap string value) : Prop :=
  is_Some (d !! "monomer_fraction").

(** A record that gains and loses monomers between two frames. *)
Definition monomer_calls : list call :=
  [ CallSetParent sample_cluster;
    CallAddMonomers sample_cluster 2 (1 # 3);
    CallUpdateData sample_cluster 1 (1 # 3);
    CallRemoveMonomers sample_cluster 1;
    CallKill 5;
    CallKill 7 ].

Definition monomer_info : ClusterInfo :=
  match do_calls sample_info0 monomer_calls with
  | Ok self => self
  | _ => sample_info0
  end.

(** ** The histogram of group sizes ([cluster.py], [get_group_sizes]) *)

(** The body of [for group in G]. *)
Definition count_group (size_dict : gmap nat nat) (group : list nat) : gmap nat nat :=
  let L := length group in
  match size_dict !! L with
  | None => <[L := 1]> size_dict
  | Some c => <[L := c + 1]> size_dict
  end.

(** [get_group_sizes(G)]: the dictionary from a size to the number of groups
    of that size, and the largest size ([0] when there is no group). *)
Definition get_group_sizes (G : list (list nat)) : gmap nat nat * nat :=
  let size_dict := foldl count_group ∅ G in
  let non_zero_counts := size size_dict in
  (size_dict,
   if 0 <? non_zero_counts then max_list (map_to_list size_dict).*1 else 0).

(** How many groups of [G] have [L] members. *)
Definition groups_of_size (L : nat) (G : list (list nat)) : nat :=
  length (filter (λ group, length group = L) G).

(** [sum(size_dict.values())] and [sum(L * c for L, c in size_dict.items())]. *)
Definition total_groups (size_dict : gmap nat nat) : nat :=
  sum_list_with snd (map_to_list size_dict).

Definition total_members (size_dict : gmap nat nat) : nat :=
  sum_list_with (λ Lc, Lc.1 * Lc.2) (map_to_list size_dict).

(** ** The order of discovery in [get_groups] *)

(** What holds of [to_group] and [G] in [get_groups] on any bond dictionary:
    a body with a group number is a member of the group of that number; a
    group starts with a body all smaller bodies of which are in earlier
    groups; and every later member of a group is bonded from a member
    listed before it. *)
Record groups_ord (bond_dict : gmap nat (list nat)) (tg : list Z)
    (G : list (list nat)) : Prop := {
  ord_assigned : ∀ x v, tg !! x = Some v → v ≠ (-1)%Z →
                 ∃ n grp, v = Z.of_nat n ∧ G !! n = Some grp ∧ x ∈ grp;
  ord_heads : ∀ a grp, G !! a = Some grp →
              ∃ h rest, grp = h :: rest
                ∧ ∀ i, i < h → ∃ a' grp', a' < a ∧ G !! a' = Some grp' ∧ i ∈ grp';
  ord_bfs : ∀ a grp j m, G !! a = Some grp → grp !! S j = Some m →
            ∃ i b, i ≤ j ∧ grp !! i = Some b ∧ bonded bond_dict b m
}.

(** ** Bond dictionaries that are not symmetric *)

(** Every body that has a group number is the body being searched, is in
    the queue, or has been searched. *)
Definition assigned_listed (current : list nat) (st : groups_state) : Prop :=
  ∀ x v, to_group st !! x = Some v → v ≠ (-1)%Z →
         x ∈ current ++ queue st ++ searched st.

(** Every bond leads to a body below the number of keys. *)
Definition bonds_in_range (bond_dict : gmap nat (list nat)) : Prop :=
  ∀ i j, bonded bond_dict i j → j < size bond_dict.

Definition bonds_in_range_b (bond_dict : gmap nat (list nat)) : bool :=
  forallb (λ il : nat * list nat, forallb (λ j, j <? size bond_dict) il.2)
          (map_to_list bond_dict).

(** A bond dictionary that is not symmetric: 0 names 1, 1 names nobody, and
    2 names 1. *)
Definition one_way_bonds : gmap nat (list nat) :=
  list_to_map [(0, [1]); (1, []); (2, [1])].

(** ** The contents of the grid *)

(** [convertPosToIndex] files [body] under the cell [key]. *)
Definition in_cell (self : Neighborgrid.t) (key : list Z) (body : Body) : bool :=
  match Neighborgrid.convertPosToIndex self body with
  | Ok k => bool_decide (k = key)
  | _ => false
  end.

(** ** Bodies the grid accepts *)

(** [body] has a coordinate for every axis, none of them below the [min] or
    above the [max] of its axis: the bounds test of [convertPosToIndex]
    finds nothing. A coordinate that is NaN is neither below nor above. *)
Definition in_bounds (self : Neighborgrid.t) (body : Body) : Prop :=
  ∀ i lo hi, Neighborgrid.lim self !! i = Some (lo, hi) →
    ∃ x, get_position body !! i = Some x ∧ flt x lo = false ∧ flt hi x = false.

Definition in_bounds_b (self : Neighborgrid.t) (body : Body) : bool :=
  bool_decide (length (Neighborgrid.lim self) ≤ length (get_position body))
  && forallb (λ xl : float64 * (float64 * float64),
                negb (flt xl.1 xl.2.1) && negb (flt xl.2.2 xl.1))
             (zip (get_position body) (Neighborgrid.lim self)).

(** [body] has a coordinate for every axis, each in the closed interval
    [min, max] of its axis. *)
Definition in_closed_box (self : Neighborgrid.t) (body : Body) : Prop :=
  ∀ i lo hi, Neighborgrid.lim self !! i = Some (lo, hi) →
    ∃ x, get_position body !! i = Some x ∧ fle lo x = true ∧ fle x hi = true.

(** None of the coordinates of [body] and none of the bounds of the box is
    NaN. *)
Definition no_nan (self : Neighborgrid.t) (body : Body) : Prop :=
  Forall (λ x, is_nan x = false) (get_position body)
  ∧ Forall (λ row : float64 * float64, is_nan row.1 = false ∧ is_nan row.2 = false)
           (Neighborgrid.lim self).

(** ** The grid, axis by axis

    What [__init__] computes on one axis [row] of the box: the extent, the
    quotient of the extent by [R/2], the number of cells and the width of a
    cell. *)
Definition axis_extent (row : float64 * float64) : float64 := fsub row.2 row.1.

Definition axis_quotient (R : float64) (row : float64 * float64) : float64 :=
  fdiv (axis_extent row) (fdiv R (of_int 2)).

Definition axis_numD (R : float64) (row : float64 * float64) : Z :=
  match float_value (axis_quotient R row) with
  | Some q => Qfloor q
  | None => 0%Z
  end.

Definition axis_boxSize (R : float64) (row : float64 * float64) : float64 :=
  fdiv (axis_extent row) (of_int (axis_numD R row)).

(** A float that is a number the floor of which fits in 64 bits. *)
Definition storable (x : float64) : Prop :=
  ∃ q, float_value x = Some q ∧ (- 2 ^ 63 ≤ Qfloor q < 2 ^ 63)%Z.

(** * Properties *)

(** ** Generic facts *)

Lemma for_each_app {S X} (f : S → X → result S) (l1 l2 : list X) (st : S) :
  for_each f (l1 ++ l2) st = (st' ← for_each f l1 st; for_each f l2 st').
Proof.
  revert st. induction l1 as [|x l1 IH]; intros st; simpl; [done|].
  destruct (f st x); simpl; auto.
Qed.

Lemma bind_Ok_inv {A B} (r : result A) (k : A → result B) (b : B) :
  (r ≫= k) = Ok b → ∃ a, r = Ok a ∧ k a = Ok b.
Proof. destruct r; simpl; intros; eauto; discriminate. Qed.

(** ** The snapshot and its errors *)

Lemma compute_observable_recognized cluster d name :
  recognized name → returns (compute_observable cluster d name).
Proof.
  intros [-> | ->]; unfold compute_observable; simpl; eexists; reflexivity.
Qed.

Lemma compute_observable_unrecognized cluster d name :
  ¬ recognized name → compute_observable cluster d name = Raise TypeError.
Proof.
  intros Hn. unfold compute_observable.
  destruct (String.eqb name "num_bodies") eqn:E1.
  { apply String.eqb_eq in E1. destruct Hn. by left. }
  destruct (String.eqb name "positions") eqn:E2.
  { apply String.eqb_eq in E2. destruct Hn. by right. }
  done.
Qed.

Lemma recognized_dec name : {recognized name} + {¬ recognized name}.
Proof.
  destruct (decide (name = "num_bodies")) as [->|H1]; [left; by left|].
  destruct (decide (name = "positions")) as [->|H2]; [left; by right|].
  right. intros [?|?]; congruence.
Qed.

Lemma compute_loop_ok cluster names d :
  Forall recognized names →
  returns (for_each (compute_observable cluster) names d).
Proof.
  intros H. revert d. induction H as [|name names Hr _ IH]; intros d; simpl.
  - by eexists.
  - destruct (compute_observable_recognized cluster d name Hr) as [d' ->].
    simpl. apply IH.
Qed.

Lemma compute_loop_raise cluster names d :
  Exists (λ name, ¬ recognized name) names →
  for_each (compute_observable cluster) names d = Raise TypeError.
Proof.
  revert d. induction names as [|name names IH]; intros d Hex.
  - by apply Exists_nil in Hex.
  - simpl. destruct (recognized_dec name) as [Hr|Hn].
    + destruct (compute_observable_recognized cluster d name Hr) as [d' ->].
      simpl. apply IH. apply Exists_cons in Hex as [?|?]; [done|done].
    + by rewrite compute_observable_unrecognized.
Qed.

Lemma compute_coordinate_ok self cluster :
  (∀ name, name ∈ get_observables (observer self) → recognized name) →
  returns (compute_coordinate self cluster).
Proof.
  intros H. apply compute_loop_ok, Forall_forall.
  intros name Hin. apply H. by apply elem_of_elements.
Qed.

Lemma compute_coordinate_raise self cluster name :
  name ∈ get_observables (observer self) → ¬ recognized name →
  compute_coordinate self cluster = Raise TypeError.
Proof.
  intros Hin Hn. apply compute_loop_raise, Exists_exists.
  exists name. split; [by apply elem_of_elements|done].
Qed.

(** C8. When the observer's set holds a name other than "num_bodies" and
    "positions", every computation of a snapshot raises (a [TypeError]):
    [add_monomers] and [remove_monomers] always, [update_data] when the frame
    is new and the record alive, [set_parent] when no parent is set yet.
    When the set holds only these two names, none of the five raises. *)
Theorem unrecognized_observable_raises (self : ClusterInfo) (cluster : Cluster) :
  ((∃ name, name ∈ get_observables (observer self) ∧ ¬ recognized name) →
     compute_coordinate self cluster = Raise TypeError
     ∧ (∀ n mf, add_monomers self cluster n mf = Raise TypeError)
     ∧ (∀ n, remove_monomers self cluster n = Raise TypeError)
     ∧ (∀ f mf, (last_updated self < f)%Z → is_dead self = false →
          update_data self cluster f mf = Raise TypeError)
     ∧ (has_parent self = false → set_parent self cluster = Raise TypeError))
  ∧ ((∀ name, name ∈ get_observables (observer self) → recognized name) →
     returns (compute_coordinate self cluster)
     ∧ (∀ n mf, returns (add_monomers self cluster n mf))
     ∧ (∀ n, returns (remove_monomers self cluster n))
     ∧ (∀ f mf, returns (update_data self cluster f mf))
     ∧ returns (set_parent self cluster)).
Proof.
  split.
  - intros (name & Hin & Hn).
    pose proof (compute_coordinate_raise self cluster name Hin Hn) as Hc.
    repeat split.
    + done.
    + intros. unfold add_monomers. by rewrite Hc.
    + intros. unfold remove_monomers. by rewrite Hc.
    + intros f mf Hlt Hd. unfold update_data.
      apply Z.ltb_lt in Hlt. rewrite Hlt, Hd. simpl. by rewrite Hc.
    + intros Hp. unfold set_parent. rewrite Hp. simpl. by rewrite Hc.
  - intros Hall.
    destruct (compute_coordinate_ok self cluster Hall) as [d Hd].
    repeat split.
    + by exists d.
    + intros. unfold add_monomers. rewrite Hd. by eexists.
    + intros. unfold remove_monomers. rewrite Hd. by eexists.
    + intros. unfold update_data.
      destruct (_ && _); [rewrite Hd|]; by eexists.
    + unfold set_parent. destruct (negb _); [rewrite Hd|]; by eexists.
Qed.

Lemma unrecognized_observable_raises_witness :
  compute_coordinate (blank_info bonds_observer) sample_cluster = Raise TypeError
  ∧ returns (update_data (blank_info test_observer) sample_cluster 0 (1 # 2)).
Proof.
  split.
  - apply (unrecognized_observable_raises (blank_info bonds_observer) sample_cluster).
    exists "bonds". split.
    + apply elem_of_union_l, elem_of_singleton. reflexivity.
    + intros [H|H]; discriminate H.
  - apply (unrecognized_observable_raises (blank_info test_observer) sample_cluster).
    intros name Hin. apply elem_of_union in Hin as [Hin|Hin].
    + apply elem_of_singleton in Hin. left. exact Hin.
    + simpl in Hin. apply elem_of_singleton in Hin. right. exact Hin.
Defined.

(** ** Recording frames *)

Lemma update_data_old_frame self cluster f mf :
  (f ≤ last_updated self)%Z → update_data self cluster f mf = Ok self.
Proof.
  intros H. unfold update_data.
  destruct (last_updated self <? f)%Z eqn:E; [|done].
  apply Z.ltb_lt in E. lia.
Qed.

Lemma update_data_dead self cluster f mf :
  is_dead self = true → update_data self cluster f mf = Ok self.
Proof.
  intros H. unfold update_data. rewrite H.
  by destruct (last_updated self <? f)%Z.
Qed.

Lemma update_data_new_frame self cluster f mf self' :
  (last_updated self < f)%Z → is_dead self = false →
  update_data self cluster f mf = Ok self' →
  length (stored_data self') = S (length (stored_data self))
  ∧ last_updated self' = f ∧ is_dead self' = false
  ∧ has_parent self' = has_parent self ∧ birth_frame self' = birth_frame self.
Proof.
  intros Hlt Hd. unfold update_data.
  apply Z.ltb_lt in Hlt. rewrite Hlt, Hd. simpl.
  destruct (compute_coordinate self cluster); simpl; [|done..].
  intros [= <-]. simpl. rewrite length_app. simpl. repeat split; try done; lia.
Qed.

Lemma set_parent_effect self cluster self' :
  set_parent self cluster = Ok self' →
  length (stored_data self') + parent_entries self
    = length (stored_data self) + parent_entries self'
  ∧ last_updated self' = last_updated self ∧ is_dead self' = is_dead self
  ∧ birth_frame self' = birth_frame self.
Proof.
  unfold set_parent, parent_entries.
  destruct (has_parent self) eqn:Hp; simpl.
  - intros [= <-]. rewrite Hp. done.
  - destruct (compute_coordinate self cluster); simpl; [|done..].
    intros [= <-]. simpl. repeat split; try done; lia.
Qed.

Lemma add_monomers_effect self cluster n mf self' :
  add_monomers self cluster n mf = Ok self' →
  stored_data self' = stored_data self ∧ has_parent self' = has_parent self
  ∧ last_updated self' = last_updated self ∧ is_dead self' = is_dead self
  ∧ birth_frame self' = birth_frame self
  ∧ length (from_monomer self') = S (length (from_monomer self)).
Proof.
  unfold add_monomers.
  destruct (compute_coordinate self cluster); simpl; [|done..].
  intros [= <-]. simpl. rewrite length_app. simpl. repeat split; try done; lia.
Qed.

Lemma remove_monomers_effect self cluster n self' :
  remove_monomers self cluster n = Ok self' →
  stored_data self' = stored_data self ∧ has_parent self' = has_parent self
  ∧ last_updated self' = last_updated self ∧ is_dead self' = is_dead self
  ∧ birth_frame self' = birth_frame self
  ∧ length (to_monomer self') = S (length (to_monomer self)).
Proof.
  unfold remove_monomers.
  destruct (compute_coordinate self cluster); simpl; [|done..].
  intros [= <-]. simpl. rewrite length_app. simpl. repeat split; try done; lia.
Qed.

Lemma do_calls_cons self c cs self'' :
  do_calls self (c :: cs) = Ok self'' →
  ∃ self', do_call self c = Ok self' ∧ do_calls self' cs = Ok self''.
Proof. unfold do_calls. simpl. apply bind_Ok_inv. Qed.

Lemma do_calls_birth_frame cs : ∀ self self',
  do_calls self cs = Ok self' → birth_frame self' = birth_frame self.
Proof.
  induction cs as [|c cs IH]; intros self self' H.
  - by injection H as <-.
  - apply do_calls_cons in H as (s1 & H1 & H2).
    rewrite (IH _ _ H2). destruct c; simpl in H1.
    + unfold update_data in H1. destruct (_ && _).
      * apply bind_Ok_inv in H1 as (d & _ & [= <-]). done.
      * by injection H1 as <-.
    + by apply set_parent_effect in H1 as (_ & _ & _ & ?).
    + by injection H1 as <-.
    + by apply add_monomers_effect in H1 as (_ & _ & _ & _ & ? & _).
    + by apply remove_monomers_effect in H1 as (_ & _ & _ & _ & ? & _).
Qed.

(** Once dead, the stored data only changes by the one entry of [set_parent]. *)
Lemma do_calls_dead cs : ∀ self self',
  is_dead self = true → do_calls self cs = Ok self' →
  length (stored_data self') + parent_entries self
    = length (stored_data self) + parent_entries self'.
Proof.
  induction cs as [|c cs IH]; intros self self' Hd H.
  - by injection H as <-.
  - apply do_calls_cons in H as (s1 & H1 & H2).
    destruct c; simpl in H1.
    + rewrite update_data_dead in H1 by done. injection H1 as <-. by apply IH.
    + apply set_parent_effect in H1 as (Hl & _ & Hd1 & _).
      rewrite Hd in Hd1. specialize (IH _ _ Hd1 H2). lia.
    + injection H1 as <-. specialize (IH (kill self frame_num) self' eq_refl H2).
      simpl in IH. unfold parent_entries in *. simpl in IH. lia.
    + apply add_monomers_effect in H1 as (Hs & Hp & _ & Hd1 & _).
      rewrite Hd in Hd1. specialize (IH _ _ Hd1 H2).
      unfold parent_entries in *. rewrite Hs, Hp in IH. lia.
    + apply remove_monomers_effect in H1 as (Hs & Hp & _ & Hd1 & _).
      rewrite Hd in Hd1. specialize (IH _ _ Hd1 H2).
      unfold parent_entries in *. rewrite Hs, Hp in IH. lia.
Qed.

(** While alive, one entry is appended per frame above all earlier ones;
    [seen] holds the frames given so far, [last_updated] their maximum. *)
Lemma do_calls_alive cs : ∀ self self' seen,
  is_dead self = false →
  (∀ f, forallb (λ g, g <? f)%Z seen = (last_updated self <? f)%Z) →
  do_calls self cs = Ok self' →
  length (stored_data self') + parent_entries self
    = length (stored_data self) + parent_entries self'
      + increasing_from seen (frames_alive cs).
Proof.
  induction cs as [|c cs IH]; intros self self' seen Hd Hseen H.
  - injection H as <-. simpl. lia.
  - apply do_calls_cons in H as (s1 & H1 & H2).
    destruct c; simpl in H1; simpl frames_alive.
    + simpl increasing_from. rewrite Hseen.
      destruct (last_updated self <? frame_num)%Z eqn:E.
      * apply Z.ltb_lt in E.
        destruct (update_data_new_frame _ _ _ _ _ E Hd H1) as (Hl & Hu & Hd1 & Hp & _).
        assert (Hseen1 : ∀ f, forallb (λ g, g <? f)%Z (frame_num :: seen)
                             = (last_updated s1 <? f)%Z).
        { intros f. simpl. rewrite Hseen, Hu.
          destruct (frame_num <? f)%Z eqn:E1; simpl; [|done].
          apply Z.ltb_lt in E1. apply Z.ltb_lt. lia. }
        specialize (IH _ _ _ Hd1 Hseen1 H2).
        unfold parent_entries in *. rewrite Hp in IH. lia.
      * apply Z.ltb_ge in E. rewrite update_data_old_frame in H1 by done.
        injection H1 as <-.
        assert (Hseen1 : ∀ f, forallb (λ g, g <? f)%Z (frame_num :: seen)
                             = (last_updated self <? f)%Z).
        { intros f. simpl. rewrite Hseen.
          destruct (last_updated self <? f)%Z eqn:E1.
          - apply Z.ltb_lt in E1. rewrite andb_true_r. apply Z.ltb_lt. lia.
          - apply andb_false_r. }
        specialize (IH _ _ _ Hd Hseen1 H2). lia.
    + apply set_parent_effect in H1 as (Hl & Hu & Hd1 & _).
      rewrite Hd in Hd1. rewrite <- Hu in Hseen.
      specialize (IH _ _ _ Hd1 Hseen H2). lia.
    + injection H1 as <-.
      pose proof (do_calls_dead cs (kill self frame_num) self' eq_refl H2) as Hk.
      unfold parent_entries in *. simpl in *. lia.
    + apply add_monomers_effect in H1 as (Hs & Hp & Hu & Hd1 & _).
      rewrite Hd in Hd1. rewrite <- Hu in Hseen.
      specialize (IH _ _ _ Hd1 Hseen H2).
      unfold parent_entries in *. rewrite Hs, Hp in IH. lia.
    + apply remove_monomers_effect in H1 as (Hs & Hp & Hu & Hd1 & _).
      rewrite Hd in Hd1. rewrite <- Hu in Hseen.
      specialize (IH _ _ _ Hd1 Hseen H2).
      unfold parent_entries in *. rewrite Hs, Hp in IH. lia.
Qed.

Lemma ClusterInfo_init_effect cluster f mf obs self :
  ClusterInfo_init cluster f mf obs = Ok self →
  birth_frame self = f ∧ is_dead self = false ∧ has_parent self = false
  ∧ from_monomer self = [] ∧ to_monomer self = []
  ∧ ((0 ≤ f)%Z → length (stored_data self) = 1 ∧ last_updated self = f).
Proof.
  unfold ClusterInfo_init. intros H.
  apply bind_Ok_inv in H as (s1 & H1 & [= <-]). simpl.
  unfold update_data in H1. simpl in H1.
  destruct (-1 <? f)%Z eqn:E; simpl in H1.
  - apply bind_Ok_inv in H1 as (d & _ & [= <-]). simpl. repeat split; done.
  - injection H1 as <-. simpl. repeat split; try done.
    all: apply Z.ltb_ge in E; lia.
Qed.

(** C3 (as amended). For a record constructed at a frame [f0 >= 0] and any
    calls made on it afterwards, [update_data] with a frame number not above
    the last recorded one returns the record unchanged, and the length of the
    stored data is the number of strictly increasing frame numbers given to
    [update_data] while alive (the constructor's included), plus one when
    [set_parent] has inserted the parent's snapshot. *)
Theorem stored_data_length (cluster : Cluster) (f0 : Z) (mf : Q) (obs : Observer)
    (self0 self : ClusterInfo) (cs : list call) :
  (0 ≤ f0)%Z →
  ClusterInfo_init cluster f0 mf obs = Ok self0 →
  do_calls self0 cs = Ok self →
  (∀ cl f mf', (f ≤ last_updated self)%Z → update_data self cl f mf' = Ok self)
  ∧ length (stored_data self) = increasing_frames f0 cs + parent_entries self.
Proof.
  intros Hf Hinit Hcalls. split.
  - intros. by apply update_data_old_frame.
  - destruct (ClusterInfo_init_effect _ _ _ _ _ Hinit)
      as (_ & Hd & Hp & _ & _ & Hlen).
    destruct (Hlen Hf) as [Hl Hu].
    assert (Hseen : ∀ f, forallb (λ g, g <? f)%Z [f0] = (last_updated self0 <? f)%Z).
    { intros f. simpl. rewrite Hu. apply andb_true_r. }
    pose proof (do_calls_alive cs self0 self [f0] Hd Hseen Hcalls) as H.
    unfold increasing_frames. simpl.
    unfold parent_entries in *. rewrite Hp in H. lia.
Qed.

Lemma stored_data_length_witness :
  length (stored_data sample_info)
  = increasing_frames 0 sample_calls + parent_entries sample_info.
Proof.
  apply (stored_data_length sample_cluster 0 (1 # 2) test_observer
           sample_info0 sample_info sample_calls).
  - lia.
  - vm_compute. reflexivity.
  - vm_compute. reflexivity.
Defined.

(** The claim without the parent's entry fails: a record constructed at frame
    0, given a parent and then updated at frame 1, stores three snapshots for
    two increasing frame numbers. (A record constructed at the frame number
    -1, the value [last_updated] starts from, stores nothing at all.) *)
Lemma stored_data_length_counterexample :
  (∃ self0 self,
     ClusterInfo_init sample_cluster 0 (1 # 2) test_observer = Ok self0
     ∧ do_calls self0 [CallSetParent sample_cluster;
                       CallUpdateData sample_cluster 1 (1 # 2)] = Ok self
     ∧ increasing_frames 0 [CallSetParent sample_cluster;
                            CallUpdateData sample_cluster 1 (1 # 2)] = 2
     ∧ length (stored_data self) = 3)
  ∧ (∃ self0,
       ClusterInfo_init sample_cluster (-1) (1 # 2) test_observer = Ok self0
       ∧ increasing_frames (-1) [] = 1
       ∧ length (stored_data self0) = 0).
Proof.
  split.
  - eexists _, _. split; [vm_compute; reflexivity|].
    split; [vm_compute; reflexivity|]. split; reflexivity.
  - eexists. split; [vm_compute; reflexivity|]. split; reflexivity.
Qed.

(** ** Birth, death and what death freezes *)

(** C4 (as amended). A record constructed at frame [f] has birth frame [f]
    and is alive. Whatever calls followed, after [kill d] the lifetime is
    exactly [d - f], the record is dead, and [update_data] calls return it
    unchanged. [add_monomers] and [remove_monomers] have no such guard: on
    the dead record each still appends one event to its log. *)
Theorem kill_freezes_stored_data (cluster : Cluster) (f : Z) (mf : Q) (obs : Observer)
    (self0 : ClusterInfo) :
  ClusterInfo_init cluster f mf obs = Ok self0 →
  birth_frame self0 = f ∧ is_dead self0 = false
  ∧ ∀ cs self d, do_calls self0 cs = Ok self →
      get_lifetime (kill self d) = (d - f)%Z
      ∧ is_dead (kill self d) = true
      ∧ (∀ us, Forall (λ c, is_update_data c = true) us →
           do_calls (kill self d) us = Ok (kill self d))
      ∧ (∀ cl n mf' self', add_monomers (kill self d) cl n mf' = Ok self' →
           length (get_monomer_gain_data self')
           = S (length (get_monomer_gain_data (kill self d))))
      ∧ (∀ cl n self', remove_monomers (kill self d) cl n = Ok self' →
           length (get_monomer_loss_data self')
           = S (length (get_monomer_loss_data (kill self d)))).
Proof.
  intros Hinit.
  destruct (ClusterInfo_init_effect _ _ _ _ _ Hinit) as (Hb & Hd & _).
  split; [done|]. split; [done|].
  intros cs self d Hcalls.
  pose proof (do_calls_birth_frame cs _ _ Hcalls) as Hbf.
  split; [unfold get_lifetime; simpl; congruence|].
  split; [done|]. split; [|split].
  - intros us Hus. induction Hus as [|c us Hc _ IH]; [done|].
    destruct c; try discriminate Hc.
    unfold do_calls in *. simpl.
    rewrite update_data_dead by done. simpl. exact IH.
  - intros cl n mf' self' H.
    by apply add_monomers_effect in H as (_ & _ & _ & _ & _ & ?).
  - intros cl n self' H.
    by apply remove_monomers_effect in H as (_ & _ & _ & _ & _ & ?).
Qed.

Lemma kill_freezes_stored_data_witness :
  get_lifetime (kill sample_info 7) = (7 - 0)%Z
  ∧ update_data (kill sample_info 7) sample_cluster 8 (1 # 2) = Ok (kill sample_info 7).
Proof.
  destruct (kill_freezes_stored_data sample_cluster 0 (1 # 2) test_observer sample_info0)
    as (_ & _ & H).
  - vm_compute. reflexivity.
  - destruct (H sample_calls sample_info 7%Z) as (Hl & _ & Hu & _).
    + vm_compute. reflexivity.
    + split; [exact Hl|].
      apply (Hu [CallUpdateData sample_cluster 8 (1 # 2)]).
      constructor; [reflexivity|constructor].
Defined.

(** A dead record is not immutable: [add_monomers] on the killed
    [sample_info0] returns a record with one more monomer-gain event. *)
Lemma kill_immutable_counterexample :
  ∃ self',
    is_dead (kill sample_info0 5) = true
    ∧ add_monomers (kill sample_info0 5) sample_cluster 1 (1 # 2) = Ok self'
    ∧ get_monomer_gain_data (kill sample_info0 5) = []
    ∧ length (get_monomer_gain_data self') = 1
    ∧ self' ≠ kill sample_info0 5.
Proof.
  eexists. split; [reflexivity|]. split; [vm_compute; reflexivity|].
  split; [vm_compute; reflexivity|]. split; [vm_compute; reflexivity|].
  intros H. apply (f_equal (λ s, length (from_monomer s))) in H.
  vm_compute in H. discriminate H.
Qed.

(** ** Floats *)

Lemma SFcompare_antisym (x y : float64) :
  SFcompare y x = CompOpp <$> SFcompare x y.
Proof.
  destruct x as [sx|sx| |sx mx ex], y as [sy|sy| |sy my ey]; simpl; try done;
    try (by destruct sx); try (by destruct sy); try (by destruct sx, sy).
  assert (Hm : PosDef.Pos.compare_cont Eq my mx
               = CompOpp (PosDef.Pos.compare_cont Eq mx my)).
  { symmetry. exact (Pos.compare_cont_antisym mx my Eq). }
  destruct sx, sy; simpl; try done.
  - rewrite (Z.compare_antisym ex ey). destruct (ex ?= ey)%Z; simpl; try done.
    by rewrite Hm.
  - rewrite (Z.compare_antisym ex ey). destruct (ex ?= ey)%Z; simpl; try done.
    by rewrite Hm.
Qed.

(** Without NaN, [x < y] fails exactly when [y <= x]. *)
Lemma flt_false_fle x y :
  is_nan x = false → is_nan y = false → (flt x y = false ↔ fle y x = true).
Proof.
  intros Hx Hy. unfold flt, fle, SFltb, SFleb.
  rewrite (SFcompare_antisym x y).
  destruct (SFcompare x y) as [[| |]|] eqn:E; simpl; try done.
  destruct x, y; simpl in *; try done; by destruct s.
Qed.

(** A division by zero gives an infinity or NaN. *)
Lemma fdiv_zero x s :
  float_value (fdiv x (S754_zero s)) = None.
Proof. by destruct x. Qed.

Lemma float_value_zero x q :
  float_value x = Some q → (q == 0)%Q → ∃ s, x = S754_zero s.
Proof.
  destruct x as [s|s| |s m e]; simpl; try done; [by exists s|].
  intros [= <-] H. exfalso. unfold Qeq in H.
  destruct e as [|p|p], s; simpl in H; try done; lia.
Qed.

(** A float the floor of which can be stored in the integer array. *)
Lemma floor_to_int_Ok x n :
  floor_to_int x = Ok n ↔
  ∃ q, float_value x = Some q ∧ n = Qfloor q ∧ (- 2 ^ 63 ≤ n < 2 ^ 63)%Z.
Proof.
  unfold floor_to_int, in_int64. destruct (float_value x) as [q|].
  - destruct (_ && _) eqn:E.
    + apply andb_true_iff in E as [E1 E2]. apply Z.leb_le in E1. apply Z.ltb_lt in E2.
      split.
      * intros [= <-]. by exists q.
      * intros (q' & [= <-] & -> & _). done.
    + split; [done|]. intros (q' & [= <-] & -> & H1 & H2).
      apply andb_false_iff in E as [E|E].
      * apply Z.leb_gt in E. lia.
      * apply Z.ltb_ge in E. lia.
  - split; [by destruct (is_nan x)|]. by intros (q & ? & _).
Qed.

Lemma floor_to_int_Raise x e :
  floor_to_int x = Raise e → e = OverflowError ∨ e = ValueError.
Proof.
  unfold floor_to_int. destruct (float_value x); [destruct (in_int64 _)|destruct (is_nan x)];
    intros [= <-]; auto.
Qed.

Lemma floor_to_int_no_fuel x : floor_to_int x ≠ OutOfFuel.
Proof.
  unfold floor_to_int. by destruct (float_value x); [destruct (in_int64 _)|destruct (is_nan x)].
Qed.

(** ** Construction of the grid *)

Lemma floor_to_int_storable x : returns (floor_to_int x) ↔ storable x.
Proof.
  split.
  - intros [n Hn]. apply floor_to_int_Ok in Hn as (q & Hq & -> & Hr). by exists q.
  - intros (q & Hq & Hr). exists (Qfloor q). apply floor_to_int_Ok. by exists q.
Qed.

Lemma init_axis_Ok R acc size res :
  Neighborgrid.init_axis R acc size = Ok res ↔
  ∃ q, float_value (fdiv size (fdiv R (of_int 2))) = Some q
       ∧ (- 2 ^ 63 ≤ Qfloor q < 2 ^ 63)%Z
       ∧ res = (acc.1 ++ [Qfloor q], acc.2 ++ [fdiv size (of_int (Qfloor q))]).
Proof.
  unfold Neighborgrid.init_axis. split.
  - intros H. apply bind_Ok_inv in H as (n & Hn & [= <-]).
    apply floor_to_int_Ok in Hn as (q & Hq & -> & Hr). by exists q.
  - intros (q & Hq & Hr & ->).
    rewrite (proj2 (floor_to_int_Ok _ (Qfloor q))) by (by exists q). done.
Qed.

Lemma init_axes_Ok_inv R rows : ∀ acc res,
  for_each (Neighborgrid.init_axis R) (axis_extent <$> rows) acc = Ok res →
  Forall (λ row, storable (axis_quotient R row)) rows
  ∧ res = (acc.1 ++ (axis_numD R <$> rows), acc.2 ++ (axis_boxSize R <$> rows)).
Proof.
  induction rows as [|row rows IH]; intros acc res; simpl.
  - intros [= <-]. split; [constructor|]. rewrite !app_nil_r. by destruct acc.
  - intros H. apply bind_Ok_inv in H as (acc1 & H1 & H2).
    apply init_axis_Ok in H1 as (q & Hq & Hr & ->).
    apply IH in H2 as [Hall ->]. simpl. split.
    + constructor; [by exists q|done].
    + unfold axis_boxSize, axis_numD, axis_quotient in *. rewrite Hq.
      by rewrite <- !app_assoc.
Qed.

Lemma init_axes_Ok R rows : ∀ acc,
  Forall (λ row, storable (axis_quotient R row)) rows →
  for_each (Neighborgrid.init_axis R) (axis_extent <$> rows) acc
  = Ok (acc.1 ++ (axis_numD R <$> rows), acc.2 ++ (axis_boxSize R <$> rows)).
Proof.
  induction rows as [|row rows IH]; intros acc Hall; simpl.
  - rewrite !app_nil_r. by destruct acc.
  - apply Forall_cons in Hall as [(q & Hq & Hr) Hall].
    rewrite (proj2 (init_axis_Ok R acc (axis_extent row) _)) by (by exists q).
    simpl. rewrite IH by done. simpl.
    unfold axis_boxSize, axis_numD, axis_quotient in *. rewrite Hq.
    by rewrite <- !app_assoc.
Qed.

Lemma init_axes_Raise R sizes : ∀ acc,
  match for_each (Neighborgrid.init_axis R) sizes acc with
  | Ok _ => True
  | Raise e => e = OverflowError ∨ e = ValueError
  | OutOfFuel => False
  end.
Proof.
  induction sizes as [|size sizes IH]; intros acc; [done|].
  cbn [for_each].
  destruct (Neighborgrid.init_axis R acc size) as [acc1|e|] eqn:E.
  - exact (IH acc1).
  - change (e = OverflowError ∨ e = ValueError).
    unfold Neighborgrid.init_axis in E.
    destruct (floor_to_int (fdiv size (fdiv R (of_int 2)))) as [n|e'|] eqn:E';
      [done| |done].
    injection E as <-. by apply floor_to_int_Raise in E'.
  - change False. unfold Neighborgrid.init_axis in E.
    destruct (floor_to_int (fdiv size (fdiv R (of_int 2)))) as [n|e'|] eqn:E';
      [done|done|].
    by apply floor_to_int_no_fuel in E'.
Qed.

Lemma init_fields lim R periodic g :
  Neighborgrid.init lim R periodic = Ok g →
  Neighborgrid.lim g = lim ∧ Neighborgrid.R g = R
  ∧ Neighborgrid.periodic g = periodic
  ∧ Neighborgrid.dim g = length lim
  ∧ Neighborgrid.domain_size g = axis_extent <$> lim
  ∧ Neighborgrid.shift g = (λ row : float64 * float64, fopp row.1) <$> lim
  ∧ Neighborgrid.map g = ∅
  ∧ Neighborgrid.indexAdjustment g = product [-2; -1; 0; 1; 2]%Z (length lim)
  ∧ Neighborgrid.numD g = axis_numD R <$> lim
  ∧ Neighborgrid.boxSize g = axis_boxSize R <$> lim
  ∧ lim ≠ []
  ∧ Forall (λ row, storable (axis_quotient R row)) lim.
Proof.
  unfold Neighborgrid.init. destruct lim as [|row0 lim0] eqn:El; [done|].
  rewrite <- El. intros H.
  apply bind_Ok_inv in H as (axes & Haxes & [= <-]).
  apply (init_axes_Ok_inv R lim ([], [])) in Haxes as [Hall ->]. simpl.
  repeat split; try done. by rewrite El.
Qed.

(** C6 (as amended). The constructor checks neither the extents nor [R].
    On a box with no axis it raises an [IndexError]. On a box with at least
    one axis it returns a grid exactly when, on every axis, the quotient of
    the extent by [R/2] is a number the floor of which fits in 64 bits,
    whatever the signs of the extent and of [R]; otherwise it raises an
    [OverflowError] or a [ValueError], which is what happens when [R/2] is
    zero. *)
Theorem init_checks_nothing (lim : list (float64 * float64)) (R : float64)
    (periodic : list bool) :
  (lim = [] → Neighborgrid.init lim R periodic = Raise IndexError)
  ∧ (lim ≠ [] →
       (returns (Neighborgrid.init lim R periodic)
        ↔ Forall (λ row, storable (axis_quotient R row)) lim))
  ∧ (lim ≠ [] → ¬ Forall (λ row, storable (axis_quotient R row)) lim →
       Neighborgrid.init lim R periodic = Raise OverflowError
       ∨ Neighborgrid.init lim R periodic = Raise ValueError)
  ∧ (lim ≠ [] →
     (∃ h, float_value (fdiv R (of_int 2)) = Some h ∧ (h == 0)%Q) →
       Neighborgrid.init lim R periodic = Raise OverflowError
       ∨ Neighborgrid.init lim R periodic = Raise ValueError).
Proof.
  assert (Hiff : lim ≠ [] →
            (returns (Neighborgrid.init lim R periodic)
             ↔ Forall (λ row, storable (axis_quotient R row)) lim)).
  { intros Hne. split.
    - intros [g Hg]. by apply init_fields in Hg as (_ & _ & _ & _ & _ & _ & _ & _ & _ & _ & _ & ?).
    - intros Hall. unfold Neighborgrid.init. destruct lim as [|row0 lim0] eqn:El; [done|].
      rewrite <- El in *.
      change ((λ row : float64 * float64, fsub row.2 row.1) <$> lim)
        with (axis_extent <$> lim).
      rewrite (init_axes_Ok R lim ([], []) Hall). simpl. by eexists. }
  assert (Hraise : lim ≠ [] → ¬ Forall (λ row, storable (axis_quotient R row)) lim →
            Neighborgrid.init lim R periodic = Raise OverflowError
            ∨ Neighborgrid.init lim R periodic = Raise ValueError).
  { intros Hne Hnot.
    destruct (Neighborgrid.init lim R periodic) as [g|e|] eqn:E.
    - destruct Hnot. apply Hiff; [done|]. by exists g.
    - unfold Neighborgrid.init in E. destruct lim as [|row0 lim0] eqn:El; [done|].
      rewrite <- El in *.
      pose proof (init_axes_Raise R (axis_extent <$> lim) ([], [])) as Hr.
      change ((λ row : float64 * float64, fsub row.2 row.1) <$> lim)
        with (axis_extent <$> lim) in E.
      destruct (for_each _ _ _) as [axes|e'|]; simpl in E; [done| |done].
      injection E as <-. destruct Hr as [-> | ->]; auto.
    - unfold Neighborgrid.init in E. destruct lim as [|row0 lim0] eqn:El; [done|].
      rewrite <- El in *.
      pose proof (init_axes_Raise R (axis_extent <$> lim) ([], [])) as Hr.
      change ((λ row : float64 * float64, fsub row.2 row.1) <$> lim)
        with (axis_extent <$> lim) in E.
      destruct (for_each _ _ _) as [axes|e'|]; simpl in E; done. }
  split; [by intros ->|]. split; [done|]. split; [done|].
  intros Hne (h & Hh & Hz). apply Hraise; [done|].
  destruct (float_value_zero _ _ Hh Hz) as [s Hs].
  destruct lim as [|row lim0]; [done|]. intros Hall.
  apply Forall_cons in Hall as [(q & Hq & _) _].
  unfold axis_quotient in Hq. rewrite Hs, fdiv_zero in Hq. done.
Qed.

Lemma init_checks_nothing_witness :
  returns (Neighborgrid.init [(f64 0, f64 10); (f64 0, f64 10)] (f64 1) [true; true])
  ∧ (Neighborgrid.init [(f64 0, f64 10)] (f64 0) [false] = Raise OverflowError
     ∨ Neighborgrid.init [(f64 0, f64 10)] (f64 0) [false] = Raise ValueError).
Proof.
  destruct (init_checks_nothing [(f64 0, f64 10); (f64 0, f64 10)] (f64 1) [true; true])
    as (_ & Hret & _).
  destruct (init_checks_nothing [(f64 0, f64 10)] (f64 0) [false]) as (_ & _ & _ & Hz).
  split.
  - apply Hret; [done|].
    apply Forall_cons_2; [|apply Forall_cons_2; [|apply Forall_nil_2]];
      (eexists; split; [vm_compute; reflexivity|]);
      vm_compute; (split; [discriminate|reflexivity]).
  - apply Hz; [done|]. eexists. split; [vm_compute; reflexivity|reflexivity].
Defined.

(** Construction succeeds on a box of extent [-10], with the radius [-1] and
    on a box of extent zero; it fails on a box with no axis, and on a box of
    extent [2^70] with the radius 1, where there would be [2^71] cells. *)
Lemma init_fails_counterexample :
  returns (Neighborgrid.init [(f64 0, f64 (-10))] (f64 3) [false])
  ∧ returns (Neighborgrid.init [(f64 0, f64 10)] (f64 (-1)) [false])
  ∧ returns (Neighborgrid.init [(f64 5, f64 5)] (f64 1) [false])
  ∧ Neighborgrid.init [] (f64 1) [] = Raise IndexError
  ∧ Neighborgrid.init [(f64 0, of_int (2 ^ 70))] (f64 1) [false] = Raise OverflowError.
Proof.
  split; [eexists; vm_compute; reflexivity|].
  split; [eexists; vm_compute; reflexivity|].
  split; [eexists; vm_compute; reflexivity|].
  split; vm_compute; reflexivity.
Qed.

(** ** Floors *)

Lemma Qfloor_lt_iff (q : Q) (z : Z) : (Qfloor q < z)%Z ↔ (q < inject_Z z)%Q.
Proof.
  split.
  - intros H. eapply Qlt_le_trans; [apply Qlt_floor|].
    rewrite <- Zle_Qle. lia.
  - intros H. destruct (Z_lt_le_dec (Qfloor q) z) as [|Hle]; [done|]. exfalso.
    rewrite Zle_Qle in Hle. pose proof (Qfloor_le q).
    apply (Qlt_irrefl q). eapply Qlt_le_trans; [exact H|].
    eapply Qle_trans; [exact Hle|done].
Qed.

Lemma Qfloor_ge_iff (q : Q) (z : Z) : (z ≤ Qfloor q)%Z ↔ (inject_Z z <= q)%Q.
Proof.
  split.
  - intros H. eapply Qle_trans; [|apply Qfloor_le]. by rewrite <- Zle_Qle.
  - intros H. destruct (Z_lt_le_dec (Qfloor q) z) as [Hlt|]; [|done]. exfalso.
    apply Qfloor_lt_iff in Hlt. apply (Qlt_irrefl q).
    eapply Qlt_le_trans; [exact Hlt|done].
Qed.

(** ** The width of a cell *)

Lemma binary_round_aux_sign sx mx ex lx :
  match binary_round_aux 53 1024 sx mx ex lx with
  | S754_zero s | S754_infinity s | S754_finite s _ _ => s = sx
  | S754_nan => True
  end.
Proof.
  unfold binary_round_aux.
  destruct (shr_fexp 53 1024 mx ex lx) as [mrs' e'].
  destruct (shr_fexp 53 1024 _ e' loc_Exact) as [mrs'' e''].
  destruct (shr_m mrs''); [done| |done].
  by destruct (Zle_bool e'' (1024 - 53)).
Qed.

Lemma float_value_finite s m e : ∃ q,
  float_value (S754_finite s m e) = Some q
  ∧ if s then (q < 0)%Q else (0 < q)%Q.
Proof.
  unfold float_value. eexists. split; [done|].
  destruct e as [|p|p], s; unfold Qlt; simpl; lia.
Qed.

(** A float that stands for a positive number is a finite float with a
    positive sign. *)
Lemma float_value_pos x d :
  float_value x = Some d → (0 < d)%Q → ∃ m e, x = S754_finite false m e.
Proof.
  destruct x as [s|s| |s m e]; simpl; [|done..|].
  - intros [= <-] H. by apply Qlt_irrefl in H.
  - intros Hx Hd. destruct s; [|by eauto].
    destruct (float_value_finite true m e) as (q & Hq & Hneg).
    unfold float_value in Hq. rewrite Hx in Hq. injection Hq as ->.
    exfalso. apply (Qlt_irrefl 0). by apply (Qlt_trans 0 q 0).
Qed.

(** The quotient of two positive floats is not negative. *)
Lemma fdiv_pos_nonneg mx ex my ey q :
  float_value (fdiv (S754_finite false mx ex) (S754_finite false my ey)) = Some q →
  (0 <= q)%Q.
Proof.
  unfold fdiv, SFdiv.
  destruct (SFdiv_core_binary 53 1024 (Z.pos mx) ex (Z.pos my) ey) as [[mz ez] lz].
  pose proof (binary_round_aux_sign (xorb false false) mz ez lz) as Hs.
  destruct (binary_round_aux 53 1024 (xorb false false) mz ez lz) as [s|s| |s m e];
    [|done..|].
  - intros [= <-]. apply Qle_refl.
  - simpl in Hs. subst s. intros Hq.
    destruct (float_value_finite false m e) as (q' & Hq' & Hpos).
    rewrite Hq in Hq'. injection Hq' as ->. by apply Qlt_le_weak.
Qed.

Lemma fdiv_by_zero_pos m e : fdiv (S754_finite false m e) (of_int 0) = S754_infinity false.
Proof. reflexivity. Qed.

(** ** The periodicity flags *)

Lemma update_loop_set_periodic flags bodies : ∀ g,
  Neighborgrid.update_loop (Neighborgrid.set_periodic g flags) bodies
  = (Neighborgrid.set_periodic (Neighborgrid.update_loop g bodies).1 flags,
     (Neighborgrid.update_loop g bodies).2).
Proof.
  induction bodies as [|body bodies IH]; intros g; simpl; [done|].
  change (Neighborgrid.convertPosToIndex (Neighborgrid.set_periodic g flags) body)
    with (Neighborgrid.convertPosToIndex g body).
  destruct (Neighborgrid.convertPosToIndex g body) as [key|e|]; simpl; [|done..].
  apply (IH (Neighborgrid.set_map g
               (Neighborgrid.addItemToMap (Neighborgrid.map g) key body))).
Qed.

(** C9. The periodicity flags are stored and never read: the constructor
    returns the same grid up to the stored flags (or raises the same
    exception), and on two grids that differ only in their flags
    [convertPosToIndex], [AdjacentBoxes], [getNeighborhood] and [update] give
    the same results, [update] leaving the same map. *)
Theorem periodic_flags_unused (lim : list (float64 * float64)) (R : float64)
    (flags flags' : list bool)
    (g : Neighborgrid.t) (body : Body) (bodies : list Body) (centerBox : list Z) :
  match Neighborgrid.init lim R flags with
  | Ok g0 => Neighborgrid.init lim R flags' = Ok (Neighborgrid.set_periodic g0 flags')
  | Raise e => Neighborgrid.init lim R flags' = Raise e
  | OutOfFuel => Neighborgrid.init lim R flags' = OutOfFuel
  end
  ∧ Neighborgrid.convertPosToIndex (Neighborgrid.set_periodic g flags') body
    = Neighborgrid.convertPosToIndex g body
  ∧ Neighborgrid.AdjacentBoxes (Neighborgrid.set_periodic g flags') centerBox
    = Neighborgrid.AdjacentBoxes g centerBox
  ∧ Neighborgrid.getNeighborhood (Neighborgrid.set_periodic g flags') body
    = Neighborgrid.getNeighborhood g body
  ∧ Neighborgrid.update (Neighborgrid.set_periodic g flags') bodies
    = (Neighborgrid.set_periodic (Neighborgrid.update g bodies).1 flags',
       (Neighborgrid.update g bodies).2).
Proof.
  split; [|repeat split].
  - unfold Neighborgrid.init. destruct lim as [|row lim]; [done|].
    destruct (for_each (Neighborgrid.init_axis R) _ _); done.
  - apply (update_loop_set_periodic flags' bodies (Neighborgrid.set_map g ∅)).
Qed.

(** ** Bodies outside the box *)

Lemma out_of_bounds_true position : ∀ lim i x lo hi,
  position !! i = Some x → lim !! i = Some (lo, hi) →
  flt x lo = true ∨ flt hi x = true →
  Neighborgrid.out_of_bounds position lim = true.
Proof.
  unfold Neighborgrid.out_of_bounds.
  induction position as [|y position IH]; intros lim i x lo hi Hp Hl Hx; [done|].
  destruct lim as [|row lim]; [done|]. destruct i as [|i]; simpl in *.
  - injection Hp as ->. injection Hl as ->. simpl.
    destruct Hx as [Hx|Hx]; rewrite Hx; simpl.
    + done.
    + by rewrite orb_true_r.
  - specialize (IH lim i x lo hi Hp Hl Hx).
    apply orb_true_iff in IH as [-> | ->]; simpl; by rewrite !orb_true_r.
Qed.

Lemma convertPosToIndex_set_map g m body :
  Neighborgrid.convertPosToIndex (Neighborgrid.set_map g m) body
  = Neighborgrid.convertPosToIndex g body.
Proof. reflexivity. Qed.

Ltac case_out_of_bounds :=
  match goal with
  | |- context [Neighborgrid.out_of_bounds ?p ?l] =>
      destruct (Neighborgrid.out_of_bounds p l) eqn:?
  end.

(** The only exception of [convertPosToIndex] is the [ValueError]. *)
Lemma convertPosToIndex_result g body :
  Neighborgrid.convertPosToIndex g body = Raise ValueError
  ∨ returns (Neighborgrid.convertPosToIndex g body).
Proof.
  unfold Neighborgrid.convertPosToIndex, Neighborgrid.broadcast.
  destruct (_ =? _); simpl.
  - case_out_of_bounds; [by left|right; by eexists].
  - destruct (take _ _) as [|x [|y l]]; simpl; [|..].
    + destruct (_ =? _); simpl; [|by left]. right; by eexists.
    + case_out_of_bounds; [by left|right; by eexists].
    + by left.
Qed.

Lemma outside_raises g body :
  Neighborgrid.outside g body →
  Neighborgrid.convertPosToIndex g body = Raise ValueError.
Proof.
  intros (i & x & lo & hi & Hi & Hp & Hl & Hx).
  unfold Neighborgrid.convertPosToIndex, Neighborgrid.broadcast.
  assert (Ht : take (Neighborgrid.dim g) (get_position body) !! i = Some x).
  { by rewrite lookup_take_lt. }
  destruct (_ =? _); simpl.
  - by rewrite (out_of_bounds_true _ _ i x lo hi Ht Hl Hx).
  - destruct (take _ _) as [|y [|z l]] eqn:E; simpl; [done| |done].
    destruct i as [|i]; [|done]. injection Ht as ->.
    rewrite (out_of_bounds_true _ _ 0 x lo hi); [done| |done|done].
    destruct (Neighborgrid.dim g); [lia|done].
Qed.

Lemma update_loop_raises bodies : ∀ g,
  Exists (λ body, Neighborgrid.convertPosToIndex g body = Raise ValueError) bodies →
  ∃ pre body post keys,
    bodies = pre ++ body :: post
    ∧ Forall2 (λ b key, Neighborgrid.convertPosToIndex g b = Ok key) pre keys
    ∧ Neighborgrid.convertPosToIndex g body = Raise ValueError
    ∧ Neighborgrid.update_loop g bodies
      = (Neighborgrid.set_map g
           (Neighborgrid.insert_all (zip keys pre) (Neighborgrid.map g)),
         Raise ValueError).
Proof.
  induction bodies as [|b bodies IH]; intros g Hex.
  - by apply Exists_nil in Hex.
  - destruct (convertPosToIndex_result g b) as [Hb | [key Hb]].
    + exists [], b, bodies, []. simpl. rewrite Hb. repeat split; try done.
      by destruct g.
    + assert (Hex' : Exists (λ body, Neighborgrid.convertPosToIndex g body
                                     = Raise ValueError) bodies).
      { apply Exists_cons in Hex as [Hex|Hex]; [congruence|done]. }
      destruct (IH (Neighborgrid.set_map g
                      (Neighborgrid.addItemToMap (Neighborgrid.map g) key b)) Hex')
        as (pre & body & post & keys & -> & Hpre & Hbody & Hloop).
      exists (b :: pre), body, post, (key :: keys). simpl. rewrite Hb.
      repeat split; try done.
      by constructor.
Qed.




(** ** Neighbourhoods at the upper edge of the box *)

(** C1, on the bodies [body_edge] at (10, 1) and [body_near_edge] at
    (9.9, 1) in the box [0,10] x [0,10] with radius 1. The update accepts
    both; [body_edge] lies on the upper bound and is filed under cell 20 of
    an axis whose cells are numbered 0 to 19, a cell no wrapped lookup
    names. The two bodies are 0.1 apart, the all-pairs scan finds each from
    the other, but the neighbourhood of [body_near_edge] is empty. *)
Theorem neighborhood_misses_upper_edge :
  let bodies := [body_edge; body_near_edge] in
  let g := (Neighborgrid.update sample_grid bodies).1 in
  (Neighborgrid.update sample_grid bodies).2 = Ok ()
  ∧ Neighborgrid.numD g = [20; 20]%Z
  ∧ Neighborgrid.convertPosToIndex g body_edge = Ok [20; 2]%Z
  ∧ Neighborgrid.convertPosToIndex g body_near_edge = Ok [19; 2]%Z
  ∧ brute_force bodies (Neighborgrid.domain_size g) (Neighborgrid.R g) body_near_edge
    = [body_edge]
  ∧ brute_force bodies (Neighborgrid.domain_size g) (Neighborgrid.R g) body_edge
    = [body_near_edge]
  ∧ Neighborgrid.getNeighborhood g body_near_edge = Ok []
  ∧ Neighborgrid.getNeighborhood g body_edge = Ok [body_near_edge].
Proof. repeat split; vm_compute; reflexivity. Qed.

(** ** Rounding to binary64

    The facts on the rounding of [SpecFloat] that the width of a cell needs:
    the quotient of two floats is not below a float that the quotient of
    the two numbers is not below. *)

Section rounding.

Local Open Scope Z_scope.

Lemma digits2_pos_bounds (p : positive) :
  2 ^ (Z.pos (digits2_pos p) - 1) ≤ Z.pos p < 2 ^ Z.pos (digits2_pos p).
Proof.
  induction p as [p IH|p IH|]; simpl digits2_pos; [| |simpl; lia];
    rewrite Pos2Z.inj_succ;
    replace (Z.succ (Z.pos (digits2_pos p)) - 1) with (Z.succ (Z.pos (digits2_pos p) - 1))
      by lia;
    rewrite !Z.pow_succ_r by lia; lia.
Qed.

Lemma Zdigits2_bounds (m : Z) :
  0 < m → 1 ≤ Zdigits2 m ∧ 2 ^ (Zdigits2 m - 1) ≤ m < 2 ^ Zdigits2 m.
Proof.
  destruct m as [|p|p]; [lia| |lia]. intros _. simpl Zdigits2.
  split; [lia|apply digits2_pos_bounds].
Qed.

Lemma Zdigits2_nonneg (m : Z) : 0 ≤ Zdigits2 m.
Proof. destruct m; simpl; lia. Qed.

Lemma Zdigits2_unique (m d : Z) :
  0 < m → 2 ^ (d - 1) ≤ m < 2 ^ d → Zdigits2 m = d.
Proof.
  intros Hm [Hlo Hhi]. destruct (Zdigits2_bounds m Hm) as (H1 & Hlo' & Hhi').
  assert (Hd : 1 ≤ d).
  { destruct (Z_lt_le_dec d 1) as [Hlt|]; [|done]. exfalso.
    destruct (Z.eq_dec d 0) as [->|]; [simpl in Hhi; lia|].
    rewrite Z.pow_neg_r in Hhi by lia. lia. }
  destruct (Z_lt_le_dec (Zdigits2 m) d) as [Hlt|Hge].
  - exfalso. assert (2 ^ Zdigits2 m ≤ 2 ^ (d - 1)) by (apply Z.pow_le_mono_r; lia). lia.
  - destruct (Z_lt_le_dec d (Zdigits2 m)) as [Hlt|]; [|lia].
    exfalso. assert (2 ^ d ≤ 2 ^ (Zdigits2 m - 1)) by (apply Z.pow_le_mono_r; lia). lia.
Qed.

Lemma Zdigits2_mono (a b : Z) : 0 ≤ a ≤ b → Zdigits2 a ≤ Zdigits2 b.
Proof.
  intros [Ha Hab]. destruct (Z.eq_dec a 0) as [->|Hne]; [apply Zdigits2_nonneg|].
  destruct (Zdigits2_bounds a) as (_ & Hlo & _); [lia|].
  destruct (Zdigits2_bounds b) as (_ & _ & Hhi); [lia|].
  destruct (Z_lt_le_dec (Zdigits2 b) (Zdigits2 a)) as [Hlt|]; [|done].
  exfalso. assert (2 ^ Zdigits2 b ≤ 2 ^ (Zdigits2 a - 1)) by (apply Z.pow_le_mono_r; lia).
  lia.
Qed.

Lemma Zdigits2_div_pow2 (m k : Z) :
  0 ≤ k → 0 < m / 2 ^ k → Zdigits2 (m / 2 ^ k) = Zdigits2 m - k.
Proof.
  intros Hk Hpos.
  assert (Hp : 0 < 2 ^ k) by (apply Z.pow_pos_nonneg; lia).
  assert (Hm : 0 < m).
  { destruct (Z_lt_le_dec 0 m); [done|]. exfalso.
    assert (m / 2 ^ k ≤ 0) by (apply Z.div_le_upper_bound; lia). lia. }
  destruct (Zdigits2_bounds m Hm) as (H1 & Hlo & Hhi).
  assert (Hmk : 2 ^ k ≤ m).
  { destruct (Z_lt_le_dec m (2 ^ k)); [|done]. rewrite Z.div_small in Hpos; lia. }
  assert (Hdk : k < Zdigits2 m).
  { destruct (Z_lt_le_dec k (Zdigits2 m)); [done|]. exfalso.
    assert (2 ^ Zdigits2 m ≤ 2 ^ k) by (apply Z.pow_le_mono_r; lia). lia. }
  apply Zdigits2_unique; [done|]. split.
  - apply Z.div_le_lower_bound; [done|].
    rewrite <- Z.pow_add_r by lia. replace (k + (Zdigits2 m - k - 1)) with (Zdigits2 m - 1) by lia.
    done.
  - apply Z.div_lt_upper_bound; [done|].
    rewrite <- Z.pow_add_r by lia. replace (k + (Zdigits2 m - k)) with (Zdigits2 m) by lia.
    done.
Qed.

(** *** Shifting a mantissa to the right *)

Lemma shr_1_m (mrs : shr_record) :
  0 ≤ shr_m mrs → shr_m (shr_1 mrs) = shr_m mrs / 2.
Proof.
  destruct mrs as [m r s]. simpl. intros Hm.
  destruct m as [|[p|p|]|p]; cbn [shr_m shr_1 orb]; [| | | |lia].
  - reflexivity.
  - apply (Z.div_unique _ _ _ 1); lia.
  - apply (Z.div_unique _ _ _ 0); lia.
  - reflexivity.
Qed.

Lemma iter_shr_1_m (p : positive) : ∀ mrs,
  0 ≤ shr_m mrs → shr_m (SpecFloat.iter_pos shr_1 p mrs) = shr_m mrs / 2 ^ Z.pos p.
Proof.
  induction p as [p IH|p IH|]; intros mrs Hm; simpl SpecFloat.iter_pos.
  - assert (H1 : 0 ≤ shr_m (shr_1 mrs)).
    { rewrite shr_1_m by done. apply Z.div_pos; lia. }
    assert (H2 : 0 ≤ shr_m (SpecFloat.iter_pos shr_1 p (shr_1 mrs))).
    { rewrite IH by done. apply Z.div_pos; [done|]. apply Z.pow_pos_nonneg; lia. }
    rewrite IH, IH, shr_1_m by done.
    rewrite !Z.div_div by (try apply Z.pow_pos_nonneg; lia).
    f_equal. change (Z.pos p~1) with (2 * Z.pos p + 1).
    replace (2 * Z.pos p + 1) with (1 + Z.pos p + Z.pos p) by lia.
    rewrite !Z.pow_add_r by lia. lia.
  - assert (H2 : 0 ≤ shr_m (SpecFloat.iter_pos shr_1 p mrs)).
    { rewrite IH by done. apply Z.div_pos; [done|]. apply Z.pow_pos_nonneg; lia. }
    rewrite IH, IH by done.
    rewrite !Z.div_div by (try apply Z.pow_pos_nonneg; lia).
    f_equal. change (Z.pos p~0) with (2 * Z.pos p).
    replace (2 * Z.pos p) with (Z.pos p + Z.pos p) by lia.
    rewrite !Z.pow_add_r by lia. lia.
  - rewrite shr_1_m by done. done.
Qed.

Lemma shr_record_of_loc_m m l : shr_m (shr_record_of_loc m l) = m.
Proof. by destruct l as [|[]]. Qed.

(** [shr_fexp] brings the exponent to the one of the format, when that one
    is larger, and divides the mantissa accordingly. *)
Lemma shr_fexp_spec (m e : Z) (l : location) :
  0 ≤ m →
  let et := Z.max e (fexp 53 1024 (Zdigits2 m + e)) in
  shr_m (shr_fexp 53 1024 m e l).1 = m / 2 ^ (et - e)
  ∧ (shr_fexp 53 1024 m e l).2 = et.
Proof.
  intros Hm et. unfold shr_fexp, shr.
  destruct (fexp 53 1024 (Zdigits2 m + e) - e) as [|p|p] eqn:E; simpl.
  - rewrite shr_record_of_loc_m. replace (et - e) with 0 by lia.
    rewrite Z.div_1_r. split; [done|lia].
  - rewrite iter_shr_1_m by (by rewrite shr_record_of_loc_m).
    rewrite shr_record_of_loc_m. replace (et - e) with (Z.pos p) by lia.
    split; [done|lia].
  - rewrite shr_record_of_loc_m. replace (et - e) with 0 by lia.
    rewrite Z.div_1_r. split; [done|lia].
Qed.

Lemma round_nearest_even_bounds (m : Z) (l : location) :
  m ≤ round_nearest_even m l ≤ m + 1.
Proof. destruct l as [|[]]; simpl; try lia. destruct (Z.even m); lia. Qed.

(** *** Powers of two as rationals *)

Lemma Qpow2_pos (e : Z) : (0 < 2 ^ e)%Q.
Proof. by apply Qpower_0_lt. Qed.

Lemma Qpow2_add (a b : Z) : (2 ^ (a + b) == 2 ^ a * 2 ^ b)%Q.
Proof. by apply Qpower_plus. Qed.

Lemma Qpow2_Z (k : Z) : 0 ≤ k → (2 ^ k == inject_Z (2 ^ k))%Q.
Proof. intros Hk. symmetry. by apply (Zpower_Qpower 2 k). Qed.

Lemma Qpow2_le (a b : Z) : a ≤ b → (2 ^ a <= 2 ^ b)%Q.
Proof. intros H. by apply Qpower_le_compat_l. Qed.

(** The number a finite float stands for is its signed mantissa times a
    power of two. *)
Lemma float_value_pow2 s m e q :
  float_value (S754_finite s m e) = Some q →
  (q == inject_Z (cond_Zopp s (Z.pos m)) * 2 ^ e)%Q.
Proof.
  unfold float_value. intros [= <-]. destruct e as [|p|p].
  - rewrite Z.mul_1_r. change (2 ^ 0)%Q with 1%Q. by rewrite Qmult_1_r.
  - rewrite inject_Z_mult. apply Qmult_comp; [done|].
    symmetry. by apply Qpow2_Z.
  - change (Z.neg p) with (- Z.pos p). rewrite Qpower_opp.
    rewrite (Qpow2_Z (Z.pos p)) by done.
    rewrite Qmake_Qdiv. unfold Qdiv. apply Qmult_comp; [done|].
    by rewrite Pos2Z.inj_pow.
Qed.

Lemma canonical_mantissa_spec (m : positive) (e : Z) :
  canonical_mantissa 53 1024 m e = true →
  - 1074 ≤ e ∧ Zdigits2 (Z.pos m) ≤ 53
  ∧ (- 1074 < e → Zdigits2 (Z.pos m) = 53).
Proof.
  unfold canonical_mantissa, fexp, emin. intros H%Z.eqb_eq. simpl Zdigits2. lia.
Qed.

(** *** Truncation keeps what is above a float

    A number [x] whose mantissa at the exponent [e] is [m], with at least
    the digits of the format, is cut to the exponent of the format without
    going below a float that [x] is not below. *)
Lemma trunc_lower (x : Q) (m e : Z) (mH : positive) (eH : Z) :
  0 ≤ m →
  (inject_Z m * 2 ^ e <= x)%Q → (x < inject_Z (m + 1) * 2 ^ e)%Q →
  e ≤ fexp 53 1024 (Zdigits2 m + e) →
  canonical_mantissa 53 1024 mH eH = true →
  (inject_Z (Z.pos mH) * 2 ^ eH <= x)%Q →
  (inject_Z (Z.pos mH) * 2 ^ eH
   <= inject_Z (m / 2 ^ (fexp 53 1024 (Zdigits2 m + e) - e))
      * 2 ^ fexp 53 1024 (Zdigits2 m + e))%Q.
Proof.
  intros Hm Hlo Hhi Hk Hcan HH.
  destruct (canonical_mantissa_spec _ _ Hcan) as (HeH & HdH & _).
  set (et := fexp 53 1024 (Zdigits2 m + e)) in *.
  set (k := et - e).
  assert (Hk0 : 0 ≤ k) by (unfold k; lia).
  assert (Hpk : 0 < 2 ^ k) by (apply Z.pow_pos_nonneg; lia).
  pose proof (Qpow2_pos e) as Pe. pose proof (Qpow2_pos et) as Pet.
  pose proof (Qpow2_pos eH) as PeH.
  assert (Eet : (2 ^ et == inject_Z (2 ^ k) * 2 ^ e)%Q).
  { replace et with (k + e) by (unfold k; lia).
    rewrite Qpow2_add. by rewrite (Qpow2_Z k). }
  destruct (Z_le_gt_dec et eH) as [Hge|Hlt].
  - (* the float is a multiple of the unit of the result *)
    set (j := Z.pos mH * 2 ^ (eH - et)).
    assert (Ej : (inject_Z (Z.pos mH) * 2 ^ eH == inject_Z j * 2 ^ et)%Q).
    { unfold j. rewrite inject_Z_mult. replace eH with ((eH - et) + et) at 1 by lia.
      rewrite Qpow2_add. rewrite (Qpow2_Z (eH - et)) by lia. ring. }
    assert (Hj : j * 2 ^ k < m + 1).
    { rewrite Zlt_Qlt, inject_Z_mult.
      apply (Qmult_lt_r _ _ (2 ^ e)%Q); [done|].
      eapply Qle_lt_trans; [|exact Hhi].
      eapply Qle_trans; [|exact HH]. rewrite Ej, Eet.
      apply Qle_lteq. right. ring. }
    assert (Hj' : j ≤ m / 2 ^ k).
    { apply Z.div_le_lower_bound; [done|]. lia. }
    rewrite Ej. apply Qmult_le_compat_r; [|by apply Qlt_le_weak].
    by rewrite <- Zle_Qle.
  - (* the float lies in a binade below the one of the result *)
    assert (Het : et = Zdigits2 m + e - 53).
    { unfold et, fexp, emin in *. lia. }
    assert (Hm0 : 0 < m).
    { destruct (Z.eq_dec m 0) as [->|]; [|lia]. simpl Zdigits2 in Het. lia. }
    destruct (Zdigits2_bounds m Hm0) as (_ & Hmlo & _).
    assert (Hmt : 2 ^ 52 ≤ m / 2 ^ k).
    { apply Z.div_le_lower_bound; [done|].
      rewrite <- Z.pow_add_r by lia.
      replace (k + 52) with (Zdigits2 m - 1) by (unfold k; lia). done. }
    destruct (Zdigits2_bounds (Z.pos mH)) as (_ & _ & HmH); [lia|].
    assert (HmH' : Z.pos mH < 2 ^ 53).
    { eapply Z.lt_le_trans; [exact HmH|]. apply Z.pow_le_mono_r; lia. }
    assert (H1 : (inject_Z (Z.pos mH) * 2 ^ eH <= inject_Z (2 ^ 53) * 2 ^ eH)%Q).
    { apply Qmult_le_compat_r; [|by apply Qlt_le_weak]. rewrite <- Zle_Qle. lia. }
    assert (H2 : (inject_Z (2 ^ 53) * 2 ^ eH <= inject_Z (2 ^ 52) * 2 ^ et)%Q).
    { rewrite <- !Qpow2_Z by lia. rewrite <- !Qpow2_add. apply Qpow2_le. lia. }
    assert (H3 : (inject_Z (2 ^ 52) * 2 ^ et <= inject_Z (m / 2 ^ k) * 2 ^ et)%Q).
    { apply Qmult_le_compat_r; [|by apply Qlt_le_weak]. by rewrite <- Zle_Qle. }
    eapply Qle_trans; [exact H1|]. eapply Qle_trans; [exact H2|exact H3].
Qed.

Lemma fexp_mono (a b : Z) : a ≤ b → fexp 53 1024 a ≤ fexp 53 1024 b.
Proof. unfold fexp. lia. Qed.

(** *** Rounding keeps what is above a float

    [binary_round_aux] on the mantissa [m] at the exponent [e] of a number
    [x], with at least the digits of the format: the result is a float of
    the format, or an infinity, and is not below a positive float that [x]
    is not below. *)
Lemma binary_round_aux_lower (sx : bool) (m e : Z) (l : location) (x : Q)
    (mH : positive) (eH : Z) :
  0 ≤ m →
  (inject_Z m * 2 ^ e <= x)%Q → (x < inject_Z (m + 1) * 2 ^ e)%Q →
  e ≤ fexp 53 1024 (Zdigits2 m + e) →
  canonical_mantissa 53 1024 mH eH = true →
  (inject_Z (Z.pos mH) * 2 ^ eH <= x)%Q →
  match binary_round_aux 53 1024 sx m e l with
  | S754_finite s mz ez =>
      s = sx ∧ canonical_mantissa 53 1024 mz ez = true
      ∧ (inject_Z (Z.pos mH) * 2 ^ eH <= inject_Z (Z.pos mz) * 2 ^ ez)%Q
  | S754_infinity s => s = sx
  | _ => False
  end.
Proof.
  intros Hm Hlo Hhi Hk Hcan HH.
  pose proof (trunc_lower x m e mH eH Hm Hlo Hhi Hk Hcan HH) as Ht.
  unfold binary_round_aux.
  destruct (shr_fexp_spec m e l Hm) as [E1m E1e].
  destruct (shr_fexp 53 1024 m e l) as [mrs' e'] eqn:E1. simpl in E1m, E1e.
  set (et := fexp 53 1024 (Zdigits2 m + e)) in *.
  rewrite Z.max_r in E1m, E1e by done. subst e'.
  set (mt := m / 2 ^ (et - e)) in *.
  set (mr := round_nearest_even (shr_m mrs') (loc_of_shr_record mrs')).
  assert (Hmr : mt ≤ mr ≤ mt + 1).
  { unfold mr. rewrite E1m. apply round_nearest_even_bounds. }
  pose proof (Qpow2_pos et) as Pet. pose proof (Qpow2_pos eH) as PeH.
  assert (HposH : (0 < inject_Z (Z.pos mH) * 2 ^ eH)%Q).
  { apply Qmult_lt_0_compat; [|done].
    change (inject_Z 0 < inject_Z (Z.pos mH))%Q. rewrite <- Zlt_Qlt. lia. }
  assert (Hmt : 0 < mt).
  { destruct (Z_lt_le_dec 0 mt) as [|Hle]; [done|]. exfalso.
    assert (inject_Z mt * 2 ^ et <= 0)%Q.
    { rewrite (Zle_Qle mt 0) in Hle. change (inject_Z 0) with 0%Q in Hle. nra. }
    lra. }
  assert (Hdt : Zdigits2 mt + et = Zdigits2 m + e).
  { unfold mt. rewrite Zdigits2_div_pow2; [lia|lia|done]. }
  assert (Hmr0 : 0 ≤ mr) by lia.
  assert (Hr : (inject_Z (Z.pos mH) * 2 ^ eH <= inject_Z mr * 2 ^ et)%Q).
  { eapply Qle_trans; [exact Ht|]. apply Qmult_le_compat_r; [|by apply Qlt_le_weak].
    rewrite <- Zle_Qle. lia. }
  assert (Hfr : et ≤ fexp 53 1024 (Zdigits2 mr + et)).
  { replace et with (fexp 53 1024 (Zdigits2 mt + et)) at 1 by (by rewrite Hdt).
    apply fexp_mono. pose proof (Zdigits2_mono mt mr). lia. }
  destruct (shr_fexp_spec mr et loc_Exact Hmr0) as [E2m E2e].
  destruct (shr_fexp 53 1024 mr et loc_Exact) as [mrs'' e''] eqn:E2. simpl in E2m, E2e.
  set (ef := fexp 53 1024 (Zdigits2 mr + et)) in *.
  rewrite Z.max_r in E2m, E2e by done. subst e''.
  assert (Hf : (inject_Z (Z.pos mH) * 2 ^ eH <= inject_Z (shr_m mrs'') * 2 ^ ef)%Q).
  { rewrite E2m. apply (trunc_lower (inject_Z mr * 2 ^ et)%Q mr et mH eH); try done.
    - apply Qle_refl.
    - apply Qmult_lt_r; [done|]. rewrite <- Zlt_Qlt. lia. }
  pose proof (Qpow2_pos ef) as Pef.
  assert (Hmf : 0 < shr_m mrs'').
  { destruct (Z_lt_le_dec 0 (shr_m mrs'')) as [|Hle]; [done|]. exfalso.
    assert (inject_Z (shr_m mrs'') * 2 ^ ef <= 0)%Q.
    { rewrite (Zle_Qle _ 0) in Hle. change (inject_Z 0) with 0%Q in Hle. nra. }
    lra. }
  assert (Hdf : Zdigits2 (shr_m mrs'') + ef = Zdigits2 mr + et).
  { rewrite E2m. rewrite Zdigits2_div_pow2; [lia|lia|by rewrite <- E2m]. }
  destruct (shr_m mrs'') as [|mz|mz] eqn:Emz; [lia| |lia].
  destruct (Z.leb ef (1024 - 53)); [|done].
  split; [done|]. split; [|done].
  unfold canonical_mantissa. apply Z.eqb_eq.
  change (Z.pos (digits2_pos mz)) with (Zdigits2 (Z.pos mz)). by rewrite Hdf.
Qed.

(** *** The division of two mantissas *)

(** [SFdiv_core_binary] gives the mantissa of the quotient at an exponent
    that leaves at least the digits of the format. *)
Lemma SFdiv_core_spec (m1 m2 : positive) (e1 e2 : Z) :
  ∃ q e' l,
    SFdiv_core_binary 53 1024 (Z.pos m1) e1 (Z.pos m2) e2 = (q, e', l)
    ∧ 0 ≤ q
    ∧ e' ≤ fexp 53 1024 (Zdigits2 q + e')
    ∧ (inject_Z q * 2 ^ e' * (inject_Z (Z.pos m2) * 2 ^ e2)
       <= inject_Z (Z.pos m1) * 2 ^ e1)%Q
    ∧ (inject_Z (Z.pos m1) * 2 ^ e1
       < inject_Z (q + 1) * 2 ^ e' * (inject_Z (Z.pos m2) * 2 ^ e2))%Q.
Proof.
  unfold SFdiv_core_binary.
  set (d1 := Zdigits2 (Z.pos m1)). set (d2 := Zdigits2 (Z.pos m2)).
  set (F := d1 + e1 - (d2 + e2)).
  set (e' := Z.min (fexp 53 1024 F) (e1 - e2)).
  set (s := e1 - e2 - e').
  assert (Hs : 0 ≤ s) by (unfold s, e'; lia).
  set (m' := match s with
             | 0 => Z.pos m1
             | Z.pos _ => Z.shiftl (Z.pos m1) s
             | Z.neg _ => 0
             end).
  assert (Em' : m' = Z.pos m1 * 2 ^ s).
  { unfold m'. destruct s as [|p|p] eqn:Es; [simpl; lia| |lia].
    by rewrite Z.shiftl_mul_pow2. }
  pose proof (Z_div_mod m' (Z.pos m2)) as Hdm.
  destruct (Z.div_eucl m' (Z.pos m2)) as [q r] eqn:Eqr.
  destruct Hdm as [Hdiv Hr]; [lia|].
  assert (Hps : 0 < 2 ^ s) by (apply Z.pow_pos_nonneg; lia).
  assert (Hq : 0 ≤ q) by nia.
  exists q, e', (new_location (Z.pos m2) r). split; [done|]. split; [done|].
  destruct (Zdigits2_bounds (Z.pos m1)) as (Hd1 & Hlo1 & _); [lia|].
  destruct (Zdigits2_bounds (Z.pos m2)) as (Hd2 & _ & Hhi2); [lia|].
  fold d1 in Hd1, Hlo1. fold d2 in Hd2, Hhi2.
  split.
  { (* enough digits *)
    assert (Hdq : d1 - d2 + s ≤ Zdigits2 q).
    { destruct (Z_le_gt_dec (d1 - d2 + s) 0) as [|Hpos];
        [pose proof (Zdigits2_nonneg q); lia|].
      set (t := d1 - d2 + s - 1).
      assert (Ht : 2 ^ t ≤ q).
      { assert (Hprod : 2 ^ t * 2 ^ d2 = 2 ^ (d1 - 1) * 2 ^ s).
        { rewrite <- !Z.pow_add_r by lia. f_equal. unfold t. lia. }
        assert (Hpt : 0 < 2 ^ t) by (apply Z.pow_pos_nonneg; lia).
        destruct (Z_lt_le_dec q (2 ^ t)) as [Hlt|]; [|done]. exfalso.
        assert (q + 1 ≤ 2 ^ t) by lia.
        assert (m' < Z.pos m2 * 2 ^ t) by nia.
        assert (2 ^ (d1 - 1) * 2 ^ s ≤ m') by (rewrite Em'; nia).
        nia. }
      assert (Hq0 : 0 < q).
      { assert (0 < 2 ^ t) by (apply Z.pow_pos_nonneg; lia). lia. }
      destruct (Zdigits2_bounds q Hq0) as (_ & _ & Hqhi).
      destruct (Z_le_gt_dec (d1 - d2 + s) (Zdigits2 q)) as [|Hgt]; [done|]. exfalso.
      assert (2 ^ Zdigits2 q ≤ 2 ^ t) by (apply Z.pow_le_mono_r; unfold t; lia).
      lia. }
    transitivity (fexp 53 1024 F); [unfold e'; lia|].
    apply fexp_mono. unfold F, s in *. lia. }
  pose proof (Qpow2_pos e') as Pe'. pose proof (Qpow2_pos e2) as Pe2.
  assert (E1 : (inject_Z (Z.pos m1) * 2 ^ e1
                == inject_Z (Z.pos m2 * q + r) * (2 ^ e' * 2 ^ e2))%Q).
  { rewrite <- Hdiv, Em', inject_Z_mult.
    replace e1 with (s + (e' + e2)) at 1 by (unfold s; lia).
    rewrite !Qpow2_add, (Qpow2_Z s) by done. ring. }
  assert (P2 : (0 < 2 ^ e' * 2 ^ e2)%Q) by (by apply Qmult_lt_0_compat).
  split.
  - rewrite E1.
    assert (E2 : (inject_Z q * 2 ^ e' * (inject_Z (Z.pos m2) * 2 ^ e2)
                  == inject_Z (Z.pos m2 * q) * (2 ^ e' * 2 ^ e2))%Q)
      by (rewrite inject_Z_mult; ring).
    rewrite E2.
    apply Qmult_le_compat_r; [|by apply Qlt_le_weak]. rewrite <- Zle_Qle. lia.
  - rewrite E1.
    assert (E2 : (inject_Z (q + 1) * 2 ^ e' * (inject_Z (Z.pos m2) * 2 ^ e2)
                  == inject_Z (Z.pos m2 * (q + 1)) * (2 ^ e' * 2 ^ e2))%Q)
      by (rewrite inject_Z_mult; ring).
    rewrite E2.
    apply Qmult_lt_r; [done|]. rewrite <- Zlt_Qlt. lia.
Qed.

(** *** The floats that rounding gives *)

Lemma binary_round_aux_canonical (sx : bool) (m e : Z) (l : location) s mz ez :
  0 ≤ m → e ≤ fexp 53 1024 (Zdigits2 m + e) →
  binary_round_aux 53 1024 sx m e l = S754_finite s mz ez →
  canonical_mantissa 53 1024 mz ez = true ∧ ez ≤ 971.
Proof.
  intros Hm Hk. unfold binary_round_aux.
  destruct (shr_fexp_spec m e l Hm) as [E1m E1e].
  destruct (shr_fexp 53 1024 m e l) as [mrs' e'] eqn:E1. simpl in E1m, E1e.
  set (et := fexp 53 1024 (Zdigits2 m + e)) in *.
  rewrite Z.max_r in E1m, E1e by done. subst e'.
  set (mt := m / 2 ^ (et - e)) in *.
  set (mr := round_nearest_even (shr_m mrs') (loc_of_shr_record mrs')).
  assert (Hmr : mt ≤ mr ≤ mt + 1).
  { unfold mr. rewrite E1m. apply round_nearest_even_bounds. }
  assert (Hpk : 0 < 2 ^ (et - e)) by (apply Z.pow_pos_nonneg; lia).
  assert (Hmt : 0 ≤ mt) by (apply Z.div_pos; lia).
  assert (Hmr0 : 0 ≤ mr) by lia.
  destruct (shr_fexp_spec mr et loc_Exact Hmr0) as [E2m E2e].
  destruct (shr_fexp 53 1024 mr et loc_Exact) as [mrs'' e''] eqn:E2. simpl in E2m, E2e.
  destruct (shr_m mrs'') as [|mf|mf] eqn:Emf; [done| |done].
  destruct (Z.leb e'' (1024 - 53)) eqn:Ele; [|done].
  apply Z.leb_le in Ele.
  intros [= _ <- <-]. split; [|lia].
  assert (Hmr1 : 0 < mr).
  { destruct (Z.eq_dec mr 0) as [E0|]; [|lia]. rewrite E0 in E2m.
    rewrite Z.div_0_l in E2m; [done|]. apply Z.pow_nonzero; lia. }
  assert (Hfr : et ≤ fexp 53 1024 (Zdigits2 mr + et)).
  { destruct (Z.eq_dec mt 0) as [E0|Hne].
    - (* the result is the least positive float *)
      assert (Emr : mr = 1) by lia.
      assert (Het : et = - 1074).
      { destruct (Z.eq_dec m 0) as [->|Hm0].
        - unfold et, fexp, emin in *. simpl Zdigits2 in *. lia.
        - destruct (Zdigits2_bounds m) as (_ & Hlo & _); [lia|].
          assert (Hlt : m < 2 ^ (et - e)).
          { destruct (Z_lt_le_dec m (2 ^ (et - e))) as [|Hge]; [done|]. exfalso.
            assert (1 ≤ mt) by (apply Z.div_le_lower_bound; lia). lia. }
          assert (Zdigits2 m - 1 < et - e).
          { destruct (Z_lt_le_dec (Zdigits2 m - 1) (et - e)) as [|Hge]; [done|]. exfalso.
            assert (2 ^ (et - e) ≤ 2 ^ (Zdigits2 m - 1)) by (apply Z.pow_le_mono_r; lia).
            lia. }
          unfold et, fexp, emin in *. lia. }
      rewrite Emr, Het. unfold fexp, emin. simpl Zdigits2. lia.
    - assert (Hdt : Zdigits2 mt + et = Zdigits2 m + e).
      { unfold mt. rewrite Zdigits2_div_pow2; [lia|lia|fold mt; lia]. }
      replace et with (fexp 53 1024 (Zdigits2 mt + et)) at 1 by (by rewrite Hdt).
      apply fexp_mono. pose proof (Zdigits2_mono mt mr). lia. }
  rewrite Z.max_r in E2m, E2e by done.
  unfold canonical_mantissa. apply Z.eqb_eq.
  change (Z.pos (digits2_pos mf)) with (Zdigits2 (Z.pos mf)).
  rewrite E2m, Zdigits2_div_pow2; [|lia|rewrite <- E2m; lia].
  rewrite E2e. f_equal. lia.
Qed.

(** A finite quotient of two finite floats is a float of the format. *)
Lemma fdiv_canonical sx mx ex sy my ey s mz ez :
  fdiv (S754_finite sx mx ex) (S754_finite sy my ey) = S754_finite s mz ez →
  canonical_mantissa 53 1024 mz ez = true ∧ ez ≤ 971.
Proof.
  unfold fdiv, SFdiv.
  destruct (SFdiv_core_spec mx my ex ey) as (q & e' & l & -> & Hq & Hk & _).
  by apply binary_round_aux_canonical.
Qed.

(** The quotient of two positive floats is not below a positive float of
    the format that the quotient of the two numbers is not below. *)
Lemma fdiv_lower (mD : positive) (eD : Z) (mN : positive) (eN : Z)
    (mH : positive) (eH : Z) :
  canonical_mantissa 53 1024 mH eH = true →
  (inject_Z (Z.pos mH) * 2 ^ eH * (inject_Z (Z.pos mN) * 2 ^ eN)
   <= inject_Z (Z.pos mD) * 2 ^ eD)%Q →
  match fdiv (S754_finite false mD eD) (S754_finite false mN eN) with
  | S754_finite s mz ez =>
      s = false ∧ canonical_mantissa 53 1024 mz ez = true
      ∧ (inject_Z (Z.pos mH) * 2 ^ eH <= inject_Z (Z.pos mz) * 2 ^ ez)%Q
  | S754_infinity s => s = false
  | _ => False
  end.
Proof.
  intros Hcan Hle. unfold fdiv, SFdiv.
  destruct (SFdiv_core_spec mD mN eD eN) as (q & e' & l & -> & Hq & Hk & Hlo & Hhi).
  set (vN := (inject_Z (Z.pos mN) * 2 ^ eN)%Q) in *.
  set (vD := (inject_Z (Z.pos mD) * 2 ^ eD)%Q) in *.
  assert (PN : (0 < vN)%Q).
  { unfold vN. apply Qmult_lt_0_compat; [|apply Qpow2_pos].
    change (inject_Z 0 < inject_Z (Z.pos mN))%Q. rewrite <- Zlt_Qlt. lia. }
  apply (binary_round_aux_lower (xorb false false) q e' l (vD / vN)%Q mH eH);
    try done.
  - apply Qle_shift_div_l; done.
  - apply Qlt_shift_div_r; done.
  - apply Qle_shift_div_l; done.
Qed.

(** *** Comparing floats of the format *)

Lemma flt_canonical_false (m1 : positive) (e1 : Z) (m2 : positive) (e2 : Z) :
  canonical_mantissa 53 1024 m1 e1 = true →
  canonical_mantissa 53 1024 m2 e2 = true →
  (inject_Z (Z.pos m2) * 2 ^ e2 <= inject_Z (Z.pos m1) * 2 ^ e1)%Q →
  flt (S754_finite false m1 e1) (S754_finite false m2 e2) = false.
Proof.
  intros H1 H2 Hle.
  destruct (canonical_mantissa_spec _ _ H1) as (He1 & Hd1 & _).
  destruct (canonical_mantissa_spec _ _ H2) as (He2 & _ & Hd2).
  unfold flt, SFltb, SFcompare.
  destruct (Z.compare_spec e1 e2) as [->|Hlt|Hgt]; [| |done].
  - assert (Hc' : PosDef.Pos.compare_cont Eq m1 m2 = (m1 ?= m2)%positive) by reflexivity.
    rewrite Hc'. destruct (Pos.compare_spec m1 m2) as [|Hm|]; [done| |done].
    exfalso. pose proof (Qpow2_pos e2) as P.
    assert (inject_Z (Z.pos m1) < inject_Z (Z.pos m2))%Q by (rewrite <- Zlt_Qlt; lia).
    nra.
  - exfalso. specialize (Hd2 ltac:(lia)).
    destruct (Zdigits2_bounds (Z.pos m2)) as (_ & Hlo2 & _); [lia|].
    destruct (Zdigits2_bounds (Z.pos m1)) as (_ & _ & Hhi1); [lia|].
    rewrite Hd2 in Hlo2.
    assert (Hm1 : Z.pos m1 < 2 ^ 53).
    { eapply Z.lt_le_trans; [exact Hhi1|]. apply Z.pow_le_mono_r; lia. }
    pose proof (Qpow2_pos e1) as P1. pose proof (Qpow2_pos e2) as P2.
    assert (A1 : (inject_Z (Z.pos m1) * 2 ^ e1 < inject_Z (2 ^ 53) * 2 ^ e1)%Q).
    { apply Qmult_lt_r; [done|]. rewrite <- Zlt_Qlt. lia. }
    assert (A2 : (inject_Z (2 ^ 53) * 2 ^ e1 <= inject_Z (2 ^ 52) * 2 ^ e2)%Q).
    { rewrite <- !Qpow2_Z by lia. rewrite <- !Qpow2_add. apply Qpow2_le. lia. }
    assert (A3 : (inject_Z (2 ^ 52) * 2 ^ e2 <= inject_Z (Z.pos m2) * 2 ^ e2)%Q).
    { apply Qmult_le_compat_r; [|by apply Qlt_le_weak]. rewrite <- Zle_Qle. lia. }
    apply (Qlt_irrefl (inject_Z (Z.pos m1) * 2 ^ e1)).
    eapply Qlt_le_trans; [exact A1|]. eapply Qle_trans; [exact A2|].
    eapply Qle_trans; [exact A3|exact Hle].
Qed.

(** *** Integers as floats *)

Lemma iter_xO_pow2 (m d : positive) :
  Z.pos (Pos.iter xO m d) = Z.pos m * 2 ^ Z.pos d.
Proof.
  induction d as [|d IH] using Pos.peano_ind.
  - simpl. lia.
  - rewrite Pos.iter_succ, Pos2Z.inj_xO, IH, Pos2Z.inj_succ, Z.pow_succ_r by lia. lia.
Qed.

Lemma shr_fexp_id (m e : Z) (l : location) :
  fexp 53 1024 (Zdigits2 m + e) ≤ e →
  shr_fexp 53 1024 m e l = (shr_record_of_loc m l, e).
Proof.
  intros H. unfold shr_fexp, shr.
  destruct (fexp 53 1024 (Zdigits2 m + e) - e) as [|p|p] eqn:E; [done|lia|done].
Qed.

(** A positive integer below [2^53] is a float. *)
Lemma of_int_small (n : Z) :
  0 < n < 2 ^ 53 →
  ∃ m e, of_int n = S754_finite false m e
         ∧ (inject_Z (Z.pos m) * 2 ^ e == inject_Z n)%Q.
Proof.
  intros [Hn0 Hn]. destruct n as [|p|p]; [lia| |lia].
  unfold of_int, binary_normalize, binary_round.
  destruct (Zdigits2_bounds (Z.pos p)) as (Hd1 & Hlo & Hhi); [lia|].
  set (d := Zdigits2 (Z.pos p)) in *.
  change (Z.pos (digits2_pos p)) with d.
  assert (Hd : d ≤ 53).
  { destruct (Z_le_gt_dec d 53) as [|Hgt]; [done|]. exfalso.
    assert (2 ^ 53 ≤ 2 ^ (d - 1)) by (apply Z.pow_le_mono_r; lia). lia. }
  assert (Hf : fexp 53 1024 (d + 0) = d - 53) by (unfold fexp, emin; lia).
  rewrite Hf.
  assert (Hal : ∃ mz, shl_align p 0 (d - 53) = (mz, d - 53)
                      ∧ Z.pos mz = Z.pos p * 2 ^ (53 - d)).
  { unfold shl_align. destruct (d - 53 - 0) as [|k|k] eqn:E; [|lia|].
    - exists p. replace (d - 53) with 0 by lia. split; [done|].
      replace (53 - d) with 0 by lia. lia.
    - exists (Pos.iter xO p k). split; [done|].
      rewrite iter_xO_pow2. f_equal. f_equal. lia. }
  destruct Hal as (mz & -> & Emz).
  assert (Hdz : Zdigits2 (Z.pos mz) = 53).
  { apply Zdigits2_unique; [lia|]. rewrite Emz.
    assert (Hp : 0 < 2 ^ (53 - d)) by (apply Z.pow_pos_nonneg; lia).
    assert (E52 : 2 ^ (53 - 1) = 2 ^ (d - 1) * 2 ^ (53 - d)).
    { rewrite <- Z.pow_add_r by lia. f_equal. lia. }
    assert (E53 : 2 ^ 53 = 2 ^ d * 2 ^ (53 - d)).
    { rewrite <- Z.pow_add_r by lia. f_equal. lia. }
    rewrite E52, E53. nia. }
  assert (Hid : fexp 53 1024 (Zdigits2 (Z.pos mz) + (d - 53)) ≤ d - 53).
  { rewrite Hdz. unfold fexp, emin. lia. }
  unfold binary_round_aux.
  rewrite (shr_fexp_id _ _ _ Hid). cbn [shr_record_of_loc shr_m loc_of_shr_record
                                          round_nearest_even].
  rewrite (shr_fexp_id _ _ _ Hid). cbn [shr_record_of_loc shr_m].
  rewrite (proj2 (Z.leb_le (d - 53) (1024 - 53))) by lia.
  exists mz, (d - 53). split; [done|].
  rewrite Emz, inject_Z_mult, <- (Qpow2_Z (53 - d)) by lia.
  rewrite <- Qmult_assoc, <- Qpow2_add.
  replace (53 - d + (d - 53)) with 0 by lia. change (2 ^ 0)%Q with 1%Q. ring.
Qed.

(** Shifting out digits that are all zero leaves no trace in the rounding
    bits. *)
Lemma shr_1_clean (j : Z) (mrs : shr_record) :
  0 ≤ j → 0 ≤ shr_m mrs → (2 ^ (j + 1) | shr_m mrs) →
  shr_r mrs = false → shr_s mrs = false →
  0 ≤ shr_m (shr_1 mrs) ∧ (2 ^ j | shr_m (shr_1 mrs))
  ∧ shr_r (shr_1 mrs) = false ∧ shr_s (shr_1 mrs) = false.
Proof.
  intros Hj Hm [c Hc] Hr Hs.
  rewrite Z.pow_add_r, Z.pow_1_r in Hc by lia.
  pose proof (shr_1_m mrs Hm) as E.
  assert (E2 : shr_m (shr_1 mrs) = c * 2 ^ j).
  { rewrite E, Hc. replace (c * (2 ^ j * 2)) with (c * 2 ^ j * 2) by lia.
    by rewrite Z.div_mul. }
  assert (Hp : 0 < 2 ^ j) by (apply Z.pow_pos_nonneg; lia).
  split; [rewrite E; apply Z.div_pos; lia|]. split; [exists c; done|].
  destruct mrs as [m r s]. simpl in *. subst r s.
  destruct m as [|[p|p|]|p]; simpl; try done; exfalso; lia.
Qed.

Lemma iter_shr_1_clean (p : positive) : ∀ (j : Z) (mrs : shr_record),
  0 ≤ j → 0 ≤ shr_m mrs → (2 ^ (j + Z.pos p) | shr_m mrs) →
  shr_r mrs = false → shr_s mrs = false →
  0 ≤ shr_m (SpecFloat.iter_pos shr_1 p mrs)
  ∧ (2 ^ j | shr_m (SpecFloat.iter_pos shr_1 p mrs))
  ∧ shr_r (SpecFloat.iter_pos shr_1 p mrs) = false
  ∧ shr_s (SpecFloat.iter_pos shr_1 p mrs) = false.
Proof.
  induction p as [p IH|p IH|]; intros j mrs Hj Hm Hdiv Hr Hs; simpl SpecFloat.iter_pos.
  - destruct (shr_1_clean (j + Z.pos p + Z.pos p) mrs) as (A1 & A2 & A3 & A4);
      [lia|done| |done|done|].
    { replace (j + Z.pos p + Z.pos p + 1) with (j + Z.pos p~1) by lia. done. }
    destruct (IH (j + Z.pos p) _ ltac:(lia) A1 A2 A3 A4) as (B1 & B2 & B3 & B4).
    by apply IH.
  - destruct (IH (j + Z.pos p) mrs) as (B1 & B2 & B3 & B4); [lia|done| |done|done|].
    { replace (j + Z.pos p + Z.pos p) with (j + Z.pos p~0) by lia. done. }
    by apply IH.
  - by apply shr_1_clean.
Qed.

(** An integer that is a mantissa of 53 digits times a power of two is a
    float. *)
Lemma of_int_pow2 (mq : positive) (eq : Z) :
  Zdigits2 (Z.pos mq) = 53 → 1 ≤ eq ≤ 971 →
  of_int (Z.pos mq * 2 ^ eq) = S754_finite false mq eq.
Proof.
  intros Hdq [He1 He2].
  assert (Hp : 0 < 2 ^ eq) by (apply Z.pow_pos_nonneg; lia).
  destruct (Z.pos mq * 2 ^ eq) as [|p|p] eqn:Ep; [lia| |lia].
  destruct (Zdigits2_bounds (Z.pos mq)) as (_ & Hlo & Hhi); [lia|].
  rewrite Hdq in Hlo, Hhi.
  assert (Hdp : Zdigits2 (Z.pos p) = 53 + eq).
  { apply Zdigits2_unique; [lia|]. rewrite <- Ep.
    replace (53 + eq - 1) with (52 + eq) by lia.
    rewrite !Z.pow_add_r by lia. nia. }
  unfold of_int, binary_normalize, binary_round.
  change (Z.pos (digits2_pos p)) with (Zdigits2 (Z.pos p)). rewrite Hdp.
  assert (Hf : fexp 53 1024 (53 + eq + 0) = eq) by (unfold fexp, emin; lia).
  rewrite Hf.
  assert (Hal : shl_align p 0 eq = (p, 0)).
  { unfold shl_align. destruct (eq - 0) as [|k|k] eqn:E; [done|done|lia]. }
  rewrite Hal. unfold binary_round_aux.
  assert (Hsh : shr_fexp 53 1024 (Z.pos p) 0 loc_Exact
                = ({| shr_m := Z.pos mq; shr_r := false; shr_s := false |}, eq)).
  { unfold shr_fexp, shr. rewrite Hdp, Hf.
    destruct (eq - 0) as [|k|k] eqn:E; [lia| |lia].
    assert (Ek : Z.pos k = eq) by lia.
    pose proof (iter_shr_1_m k (shr_record_of_loc (Z.pos p) loc_Exact)) as Hm.
    destruct (iter_shr_1_clean k 0 (shr_record_of_loc (Z.pos p) loc_Exact))
      as (_ & _ & Hr & Hs); [lia|simpl; lia| |done|done|].
    { change (shr_m (shr_record_of_loc (Z.pos p) loc_Exact)) with (Z.pos p).
      replace (0 + Z.pos k) with eq by lia. exists (Z.pos mq). lia. }
    destruct (SpecFloat.iter_pos shr_1 k (shr_record_of_loc (Z.pos p) loc_Exact))
      as [m' r' s']. simpl in Hr, Hs, Hm. subst r' s'.
    rewrite Hm by (simpl; lia). simpl shr_m.
    rewrite Ek, <- Ep, Z.div_mul by lia. f_equal. }
  rewrite Hsh. cbn [shr_m loc_of_shr_record round_nearest_even].
  assert (Hid : fexp 53 1024 (Zdigits2 (Z.pos mq) + eq) ≤ eq).
  { rewrite Hdq. unfold fexp, emin. lia. }
  rewrite (shr_fexp_id _ _ _ Hid). cbn [shr_record_of_loc shr_m].
  by rewrite (proj2 (Z.leb_le eq (1024 - 53))) by lia.
Qed.

(** The floor of a positive float of the format, when it is not zero, is a
    float. *)
Lemma of_int_floor (mq : positive) (eq : Z) (q : Q) :
  canonical_mantissa 53 1024 mq eq = true → eq ≤ 971 →
  (q == inject_Z (Z.pos mq) * 2 ^ eq)%Q →
  0 < Qfloor q →
  ∃ m e, of_int (Qfloor q) = S754_finite false m e
         ∧ (inject_Z (Z.pos m) * 2 ^ e == inject_Z (Qfloor q))%Q.
Proof.
  intros Hcan Hmax Hq Hn.
  destruct (canonical_mantissa_spec _ _ Hcan) as (He & Hd & Hd53).
  destruct (Zdigits2_bounds (Z.pos mq)) as (_ & _ & Hhi); [lia|].
  assert (Hm53 : Z.pos mq < 2 ^ 53).
  { eapply Z.lt_le_trans; [exact Hhi|]. apply Z.pow_le_mono_r; lia. }
  destruct (Z_le_gt_dec eq 0) as [Hle|Hgt].
  - apply of_int_small. split; [done|].
    apply Qfloor_lt_iff. rewrite Hq.
    pose proof (Qpow2_le eq 0 Hle) as P. change (2 ^ 0)%Q with 1%Q in P.
    pose proof (Qpow2_pos eq) as P0.
    assert (inject_Z (Z.pos mq) < inject_Z (2 ^ 53))%Q by (rewrite <- Zlt_Qlt; lia).
    assert (0 < inject_Z (Z.pos mq))%Q.
    { change (inject_Z 0 < inject_Z (Z.pos mq))%Q. rewrite <- Zlt_Qlt. lia. }
    nra.
  - assert (En : Qfloor q = Z.pos mq * 2 ^ eq).
    { rewrite (Qfloor_comp _ _ Hq), (Qpow2_Z eq), <- inject_Z_mult by lia.
      apply Qfloor_Z. }
    exists mq, eq. split.
    + rewrite En. apply of_int_pow2; [apply Hd53; lia|lia].
    + by rewrite En, inject_Z_mult, (Qpow2_Z eq) by lia.
Qed.

End rounding.

(** ** The width of a cell against [R/2] *)

(** The half of a radius, when it is a positive number, is a float of the
    format. *)
Lemma half_R_canonical (R : float64) (h : Q) :
  float_value (fdiv R (of_int 2)) = Some h → (0 < h)%Q →
  ∃ mH eH, fdiv R (of_int 2) = S754_finite false mH eH
           ∧ canonical_mantissa 53 1024 mH eH = true.
Proof.
  intros Hh Hpos. destruct (float_value_pos _ _ Hh Hpos) as (mH & eH & EH).
  exists mH, eH. split; [done|].
  destruct R as [s|s| |s m e]; try discriminate EH.
  change (of_int 2) with (S754_finite false 4503599627370496 (-51)) in EH.
  by apply fdiv_canonical in EH as [? _].
Qed.

(** The floor of the quotient of two positive floats, when it is not
    zero, is a float. *)
Lemma of_int_floor_fdiv mD eD mH eH q :
  float_value (fdiv (S754_finite false mD eD) (S754_finite false mH eH)) = Some q →
  (0 < Qfloor q)%Z →
  ∃ m e, of_int (Qfloor q) = S754_finite false m e
         ∧ (inject_Z (Z.pos m) * 2 ^ e == inject_Z (Qfloor q))%Q.
Proof.
  intros Hq Hn.
  destruct (fdiv (S754_finite false mD eD) (S754_finite false mH eH))
    as [s|s| |s mq eq] eqn:E; [|done..|].
  - injection Hq as <-. change (Qfloor 0) with 0%Z in Hn. lia.
  - pose proof (fdiv_pos_nonneg mD eD mH eH q) as Hq0. rewrite E in Hq0.
    specialize (Hq0 Hq).
    destruct (fdiv_canonical _ _ _ _ _ _ _ _ _ E) as [Hcan Hmax].
    apply float_value_pow2 in Hq. destruct s.
    + exfalso. simpl cond_Zopp in Hq. pose proof (Qpow2_pos eq) as P.
      assert (inject_Z (- Z.pos mq) < 0)%Q.
      { change (inject_Z (- Z.pos mq) < inject_Z 0)%Q. rewrite <- Zlt_Qlt. lia. }
      nra.
    + by apply (of_int_floor mq eq).
Qed.




(** ** Connected components: auxiliary facts *)

Lemma connected_sym bond_dict i j :
  symmetric_bonds bond_dict → connected bond_dict i j → connected bond_dict j i.
Proof.
  intros Hsym H. induction H as [|x y z Hxy _ IH]; [apply rtc_refl|].
  eapply rtc_r; [exact IH|]. by apply Hsym.
Qed.

Lemma py_get_last {A} (l : list A) (x : A) :
  py_get (l ++ [x]) (Z.of_nat (length (l ++ [x])) - 1) = Ok x.
Proof.
  unfold py_get, py_index. rewrite length_app. simpl.
  destruct (0 <=? _)%Z eqn:E1; [|apply Z.leb_gt in E1; lia].
  destruct (_ <? _)%Z eqn:E2; [|apply Z.ltb_ge in E2; lia].
  replace (Z.to_nat _) with (length l) by lia.
  by rewrite list_lookup_middle.
Qed.

Lemma py_index_nat len (g : nat) :
  g < len → py_index len (Z.of_nat g) = Some g.
Proof.
  intros H. unfold py_index.
  destruct (0 <=? _)%Z eqn:E1; [|apply Z.leb_gt in E1; lia].
  destruct (_ <? _)%Z eqn:E2; [|apply Z.ltb_ge in E2; lia].
  by rewrite Nat2Z.id.
Qed.

Lemma elem_of_where_unassigned a : ∀ from x,
  x ∈ where_unassigned from a ↔ ∃ i, x = from + i ∧ a !! i = Some (-1)%Z.
Proof.
  induction a as [|v a IH]; intros from x; simpl.
  - split; [by intros ?%elem_of_nil|by intros (i & _ & ?)].
  - destruct (v =? -1)%Z eqn:E.
    + apply Z.eqb_eq in E as ->. rewrite elem_of_cons, IH. split.
      * intros [-> | (i & -> & Hi)]; [exists 0|exists (S i)]; split; try done; lia.
      * intros ([|i] & -> & Hi); [left; lia|right]. exists i. split; [lia|done].
    + apply Z.eqb_neq in E. rewrite IH. split.
      * intros (i & -> & Hi). exists (S i). split; [lia|done].
      * intros ([|i] & -> & Hi); simpl in Hi; [congruence|].
        exists i. split; [lia|done].
Qed.

(** A duplicate-free list of numbers below [n] that misses none has length
    [n]; a shorter one misses some number below [n]. *)
Lemma below_all_in (l : list nat) (n : nat) :
  NoDup l → (∀ x, x ∈ l → x < n) → length l = n → ∀ x, x < n → x ∈ l.
Proof.
  intros Hnd Hlt Hlen x Hx.
  assert (Hsub : l ⊆+ seq 0 n).
  { apply NoDup_submseteq; [done|]. intros y Hy. apply elem_of_seq.
    specialize (Hlt y Hy). lia. }
  assert (Hperm : l ≡ₚ seq 0 n).
  { apply submseteq_length_Permutation; [done|]. rewrite length_seq. lia. }
  rewrite Hperm. apply elem_of_seq. lia.
Qed.

Lemma below_some_missing (l : list nat) (n : nat) :
  NoDup l → (∀ x, x ∈ l → x < n) → length l ≠ n → ∃ x, x < n ∧ x ∉ l.
Proof.
  intros Hnd Hlt Hlen.
  destruct (decide (Forall (λ x, x ∈ l) (seq 0 n))) as [Hall|Hnot].
  - exfalso. apply Hlen.
    assert (Hsub : l ⊆+ seq 0 n).
    { apply NoDup_submseteq; [done|]. intros y Hy. apply elem_of_seq.
      specialize (Hlt y Hy). lia. }
    assert (Hsub' : seq 0 n ⊆+ l).
    { apply NoDup_submseteq; [apply NoDup_seq|]. intros y Hy.
      by apply (proj1 (Forall_forall _ _) Hall). }
    apply submseteq_length in Hsub, Hsub'. rewrite length_seq in *. lia.
  - apply not_Forall_Exists in Hnot; [|apply _].
    apply Exists_exists in Hnot as (x & Hx & Hnx).
    exists x. split; [|done]. apply elem_of_seq in Hx. lia.
Qed.

(** ** Connected components: the loop of [get_groups] *)

Lemma py_get_nat {A} (l : list A) (g : nat) (a : A) :
  l !! g = Some a → py_get l (Z.of_nat g) = Ok a.
Proof.
  intros H. unfold py_get.
  rewrite py_index_nat by (by eapply lookup_lt_Some). by rewrite H.
Qed.

Lemma last_group_nat st :
  G st ≠ [] → last_group st = Z.of_nat (length (G st) - 1)
              ∧ length (G st) - 1 < length (G st).
Proof.
  intros H. unfold last_group. destruct (G st); [done|]. simpl. lia.
Qed.

Lemma nodup_below_length (l : list nat) (n : nat) :
  NoDup l → (∀ x, x ∈ l → x < n) → length l ≤ n.
Proof.
  intros Hnd Hlt.
  assert (Hsub : l ⊆+ seq 0 n).
  { apply NoDup_submseteq; [done|]. intros y Hy. apply elem_of_seq.
    specialize (Hlt y Hy). lia. }
  apply submseteq_length in Hsub. by rewrite length_seq in Hsub.
Qed.

Section get_groups_correct.

Variable bond_dict : gmap nat (list nat).
Hypothesis Hkeys : keys_are_range bond_dict.
Hypothesis Hsym : symmetric_bonds bond_dict.
Hypothesis Hirr : no_self_bond bond_dict.

Lemma bonded_lt i j : bonded bond_dict i j → i < size bond_dict ∧ j < size bond_dict.
Proof using Hkeys Hsym.
  intros Hij. split.
  - destruct Hij as (l & Hl & _). apply Hkeys. by eexists.
  - destruct (Hsym _ _ Hij) as (l & Hl & _). apply Hkeys. by eexists.
Qed.

(** Visiting one neighbour of the popped body: it joins the group under
    construction unless it is in it already, and it is queued unless it is
    queued or searched already. *)
Lemma visit_member_inv bod m st :
  groups_inv bond_dict [bod] st → bonded bond_dict bod m →
  ∃ st', visit_member (last_group st) st m = Ok st'
         ∧ groups_inv bond_dict [bod] st'
         ∧ searched st' = searched st
         ∧ length (G st') = length (G st)
         ∧ to_group st' !! m = Some (last_group st)
         ∧ (∀ x, to_group st !! x = Some (last_group st) →
                 to_group st' !! x = Some (last_group st)).
Proof using Hkeys Hsym Hirr.
  intros Hinv Hbm.
  destruct (last_group_nat st (inv_groups _ _ _ Hinv)) as [Hlast Hn].
  set (n := length (G st) - 1) in *.
  destruct (lookup_lt_is_Some_2 (G st) n Hn) as [grp Hgrp].
  assert (Hm : m < length (to_group st)).
  { rewrite (inv_length _ _ _ Hinv). by apply (bonded_lt bod m). }
  assert (Hne : m ≠ bod) by (intros ->; by apply (Hirr bod)).
  assert (Hbod : to_group st !! bod = Some (Z.of_nat n)).
  { rewrite <- Hlast. apply (inv_frontier _ _ _ Hinv). set_solver. }
  assert (Hbod_in : bod ∈ grp).
  { apply (inv_to_group _ _ _ Hinv) in Hbod as (grp' & Hg' & Hin). congruence. }
  unfold visit_member. rewrite Hlast, (py_get_nat _ _ _ Hgrp). simpl.
  destruct (decide (m ∈ grp)) as [Hin|Hnin].
  - (* the member is already in the group *)
    rewrite bool_decide_eq_true_2 by done. simpl.
    assert (Htm : to_group st !! m = Some (Z.of_nat n)).
    { apply (inv_to_group _ _ _ Hinv). by exists grp. }
    assert (Hmem : m ∈ [bod] ++ queue st ++ searched st).
    { eapply (inv_assigned _ _ _ Hinv); [exact Htm|lia]. }
    exists st. split.
    + destruct (bool_decide (m ∉ searched st)) eqn:E1; simpl; [|done].
      destruct (bool_decide (m ∉ queue st)) eqn:E2; simpl; [|done].
      apply bool_decide_eq_true in E1, E2. set_solver.
    + split; [exact Hinv|]. split; [done|]. split; [done|].
      split; [exact Htm|]. done.
  - (* the member joins the group *)
    rewrite bool_decide_eq_false_2 by done.
    destruct (lookup_lt_is_Some_2 _ _ Hm) as [v Hv].
    assert (Hv1 : v = (-1)%Z).
    { destruct (decide (v = (-1)%Z)) as [|Hv']; [done|]. exfalso.
      pose proof (inv_assigned _ _ _ Hinv m v Hv Hv') as Hmem.
      assert (Hcase : m ∈ queue st ∨ m ∈ searched st) by set_solver.
      apply Hnin. destruct Hcase as [Hq|Hs].
      - assert (Htm : to_group st !! m = Some (Z.of_nat n)).
        { rewrite <- Hlast. apply (inv_frontier _ _ _ Hinv). set_solver. }
        apply (inv_to_group _ _ _ Hinv) in Htm as (grp' & Hg' & Hin). congruence.
      - pose proof (inv_closed _ _ _ Hinv m bod Hs (Hsym _ _ Hbm)) as Hc.
        rewrite Hbod in Hc. symmetry in Hc.
        apply (inv_to_group _ _ _ Hinv) in Hc as (grp' & Hg' & Hin). congruence. }
    subst v.
    unfold group_append. rewrite (py_index_nat _ _ Hn), Hgrp. simpl.
    unfold np_set. rewrite decide_True by done. simpl.
    assert (Hns : m ∉ searched st).
    { intros Hs. destruct (inv_searched _ _ _ Hinv m Hs) as [g Hg].
      rewrite Hv in Hg. injection Hg. lia. }
    assert (Hnq : m ∉ queue st).
    { intros Hq. assert (Htm : to_group st !! m = Some (last_group st)).
      { apply (inv_frontier _ _ _ Hinv). set_solver. }
      rewrite Hv, Hlast in Htm. injection Htm. lia. }
    rewrite !bool_decide_eq_true_2 by done. simpl.
    eexists. split; [reflexivity|].
    assert (Hunch : ∀ x w, to_group st !! x = Some w → w ≠ (-1)%Z →
                           <[m:=Z.of_nat n]> (to_group st) !! x = Some w).
    { intros x w Hx Hw. rewrite list_lookup_insert_ne; [done|].
      intros ->. congruence. }
    split; [|simpl; repeat split].
    + constructor; simpl.
      * rewrite length_insert. apply (inv_length _ _ _ Hinv).
      * intros E. apply (f_equal length) in E. rewrite length_insert in E.
        simpl in E. lia.
      * intros x g. destruct (decide (x = m)) as [->|Hxm].
        -- rewrite list_lookup_insert_eq by done. split.
           ++ intros [= Hg]. apply Nat2Z.inj in Hg as <-.
              exists (grp ++ [m]). split; [by apply list_lookup_insert_eq|set_solver].
           ++ intros (grp' & Hg' & Hin').
              destruct (decide (g = n)) as [->|Hgn]; [done|].
              rewrite list_lookup_insert_ne in Hg' by done.
              assert (Htm : to_group st !! m = Some (Z.of_nat g)).
              { apply (inv_to_group _ _ _ Hinv). by exists grp'. }
              rewrite Hv in Htm. injection Htm. lia.
        -- rewrite list_lookup_insert_ne by done.
           rewrite (inv_to_group _ _ _ Hinv). unfold group_of.
           destruct (decide (g = n)) as [->|Hgn].
           ++ rewrite list_lookup_insert_eq by done. rewrite Hgrp. split.
              ** intros (grp' & [= <-] & Hin'). eexists. split; [done|set_solver].
              ** intros (grp' & [= <-] & Hin'). eexists. split; [done|set_solver].
           ++ by rewrite list_lookup_insert_ne.
      * intros x w Hx. destruct (decide (x = m)) as [->|Hxm].
        -- rewrite list_lookup_insert_eq in Hx by done. injection Hx as <-. lia.
        -- rewrite list_lookup_insert_ne in Hx by done.
           by apply (inv_values _ _ _ Hinv x).
      * intros g grp' Hg'. destruct (decide (g = n)) as [->|Hgn].
        -- rewrite list_lookup_insert_eq in Hg' by done. injection Hg' as <-.
           apply NoDup_app. split; [by apply (inv_group_nodup _ _ _ Hinv n)|].
           split; [set_solver|apply NoDup_singleton].
        -- rewrite list_lookup_insert_ne in Hg' by done.
           by apply (inv_group_nodup _ _ _ Hinv g).
      * assert (Hp : [bod] ++ (queue st ++ [m]) ++ searched st
                     ≡ₚ m :: [bod] ++ queue st ++ searched st).
        { simpl. rewrite <- app_assoc. simpl.
          rewrite <- Permutation_middle. apply perm_swap. }
        rewrite Hp. apply NoDup_cons. split; [set_solver|].
        apply (inv_nodup _ _ _ Hinv).
      * intros x Hx. unfold last_group. simpl. rewrite length_insert.
        fold (last_group st). rewrite Hlast.
        destruct (decide (x = m)) as [->|Hxm];
          [by apply list_lookup_insert_eq|].
        rewrite list_lookup_insert_ne by done. rewrite <- Hlast.
        apply (inv_frontier _ _ _ Hinv). set_solver.
      * intros x w Hx Hw. destruct (decide (x = m)) as [->|Hxm]; [set_solver|].
        rewrite list_lookup_insert_ne in Hx by done.
        pose proof (inv_assigned _ _ _ Hinv x w Hx Hw). set_solver.
      * intros x Hx. destruct (inv_searched _ _ _ Hinv x Hx) as [g Hg].
        exists g. apply Hunch; [done|lia].
      * intros s0 m' Hs0 Hb.
        destruct (inv_searched _ _ _ Hinv s0 Hs0) as [g Hg].
        pose proof (inv_closed _ _ _ Hinv s0 m' Hs0 Hb) as Hc.
        rewrite Hg in Hc.
        rewrite (Hunch s0 _ Hg) by lia. rewrite (Hunch m' _ Hc) by lia. done.
      * assert (Hvia : ∀ z, z ∈ grp ++ [m] → connected bond_dict bod z).
        { intros z Hz. apply elem_of_app in Hz as [Hz|Hz].
          - by apply (inv_connected _ _ _ Hinv n grp).
          - apply list_elem_of_singleton in Hz as ->. by apply rtc_once. }
        intros g grp' x y Hg' Hx Hy. destruct (decide (g = n)) as [->|Hgn].
        -- rewrite list_lookup_insert_eq in Hg' by done. injection Hg' as <-.
           eapply rtc_trans; [apply connected_sym; [done|]|]; by apply Hvia.
        -- rewrite list_lookup_insert_ne in Hg' by done.
           by apply (inv_connected _ _ _ Hinv g grp').
    + by rewrite length_insert.
    + by apply list_lookup_insert_eq.
    + intros x Hx. apply Hunch; [done|]. lia.
Qed.

Lemma visit_members_inv bod l : ∀ st,
  groups_inv bond_dict [bod] st → (∀ m, m ∈ l → bonded bond_dict bod m) →
  ∃ st', for_each (visit_member (last_group st)) l st = Ok st'
         ∧ groups_inv bond_dict [bod] st'
         ∧ searched st' = searched st
         ∧ length (G st') = length (G st)
         ∧ (∀ m, m ∈ l → to_group st' !! m = Some (last_group st))
         ∧ (∀ x, to_group st !! x = Some (last_group st) →
                 to_group st' !! x = Some (last_group st)).
Proof using Hkeys Hsym Hirr.
  induction l as [|m l IH]; intros st Hinv Hl.
  - exists st. simpl. split; [done|]. split; [exact Hinv|]. split; [done|].
    split; [done|]. split; [by intros m ?%elem_of_nil|done].
  - destruct (visit_member_inv bod m st Hinv) as (st1 & H1 & Hinv1 & Hs1 & Hg1 & Hm1 & Hk1).
    { apply Hl. set_solver. }
    assert (Hlg : last_group st1 = last_group st).
    { unfold last_group. by rewrite Hg1. }
    destruct (IH st1 Hinv1) as (st2 & H2 & Hinv2 & Hs2 & Hg2 & Hm2 & Hk2).
    { intros m' Hm'. apply Hl. set_solver. }
    rewrite Hlg in H2, Hm2, Hk2.
    exists st2. simpl. rewrite H1. simpl. split; [done|]. split; [done|].
    split; [congruence|]. split; [congruence|]. split.
    + intros m' [->|Hm']%elem_of_cons; [by apply Hk2|by apply Hm2].
    + intros x Hx. by apply Hk2, Hk1.
Qed.

Lemma inv_lookup_lt current st x v :
  groups_inv bond_dict current st → to_group st !! x = Some v → x < size bond_dict.
Proof.
  intros Hinv Hx. rewrite <- (inv_length _ _ _ Hinv). by eapply lookup_lt_Some.
Qed.

(** Appending the popped body to [searched] once its neighbours are done. *)
Lemma inv_searched_append bod l st :
  groups_inv bond_dict [bod] st → bond_dict !! bod = Some l →
  (∀ m, m ∈ l → to_group st !! m = Some (last_group st)) →
  groups_inv bond_dict []
    {| to_group := to_group st; G := G st; queue := queue st;
       searched := searched st ++ [bod] |}.
Proof using Hkeys Hsym Hirr.
  intros Hinv Hl Hall.
  assert (Hbod : to_group st !! bod = Some (last_group st)).
  { apply (inv_frontier _ _ _ Hinv). set_solver. }
  destruct (last_group_nat st (inv_groups _ _ _ Hinv)) as [Hlast _].
  constructor; simpl.
  - apply (inv_length _ _ _ Hinv).
  - apply (inv_groups _ _ _ Hinv).
  - apply (inv_to_group _ _ _ Hinv).
  - apply (inv_values _ _ _ Hinv).
  - apply (inv_group_nodup _ _ _ Hinv).
  - assert (Hp : queue st ++ searched st ++ [bod] ≡ₚ [bod] ++ queue st ++ searched st).
    { rewrite app_assoc. by rewrite <- Permutation_cons_append. }
    rewrite Hp. apply (inv_nodup _ _ _ Hinv).
  - intros x Hx. apply (inv_frontier _ _ _ Hinv). set_solver.
  - intros x v Hx Hv. pose proof (inv_assigned _ _ _ Hinv x v Hx Hv). set_solver.
  - intros x [Hx| ->%list_elem_of_singleton]%elem_of_app.
    + by apply (inv_searched _ _ _ Hinv).
    + eexists. rewrite Hbod. by rewrite Hlast.
  - intros s m [Hs| ->%list_elem_of_singleton]%elem_of_app Hb.
    + by apply (inv_closed _ _ _ Hinv).
    + destruct Hb as (l' & Hl' & Hm). rewrite Hl in Hl'. injection Hl' as <-.
      rewrite Hbod. by apply Hall.
  - apply (inv_connected _ _ _ Hinv).
Qed.

(** Opening a new group at the first unassigned body. *)
Lemma start_new_group_inv st :
  groups_inv bond_dict [] st →
  ∃ st', start_new_group (size bond_dict) st = Ok st'
         ∧ groups_inv bond_dict [] st'
         ∧ searched st' = searched st
         ∧ (queue st' ≠ [] ∨ length (searched st') = size bond_dict).
Proof using Hkeys Hsym Hirr.
  intros Hinv. unfold start_new_group.
  destruct (bool_decide (length (queue st) = 0)) eqn:Eq; simpl.
  2:{ exists st. split; [done|]. split; [exact Hinv|]. split; [done|]. left.
      apply bool_decide_eq_false in Eq. intros E. by rewrite E in Eq. }
  destruct (bool_decide (length (searched st) ≠ size bond_dict)) eqn:Es; simpl.
  2:{ exists st. split; [done|]. split; [exact Hinv|]. split; [done|]. right.
      apply bool_decide_eq_false in Es. by apply dec_stable. }
  apply bool_decide_eq_true in Eq, Es.
  assert (Hq : queue st = []) by (by apply nil_length_inv).
  assert (Hsa : ∀ x, x ∈ searched st → x < size bond_dict).
  { intros x Hx. destruct (inv_searched _ _ _ Hinv x Hx) as [g Hg].
    by eapply inv_lookup_lt. }
  assert (Hnd : NoDup (searched st)).
  { pose proof (inv_nodup _ _ _ Hinv) as H. rewrite Hq in H. exact H. }
  destruct (below_some_missing _ _ Hnd Hsa Es) as (x & Hx & Hxs).
  assert (Hfree : ∀ y, y < size bond_dict → y ∉ searched st →
                       to_group st !! y = Some (-1)%Z).
  { intros y Hy Hys. rewrite <- (inv_length _ _ _ Hinv) in Hy.
    destruct (lookup_lt_is_Some_2 _ _ Hy) as [v Hv]. rewrite Hv. f_equal.
    destruct (decide (v = (-1)%Z)) as [|Hv']; [done|]. exfalso.
    pose proof (inv_assigned _ _ _ Hinv y v Hv Hv') as Hmem.
    rewrite Hq in Hmem. set_solver. }
  destruct (where_unassigned 0 (to_group st)) as [|u rest] eqn:Ew.
  { exfalso. assert (Hin : x ∈ where_unassigned 0 (to_group st)).
    { apply elem_of_where_unassigned. exists x. split; [lia|by apply Hfree]. }
    rewrite Ew in Hin. by apply elem_of_nil in Hin. }
  assert (Hu : to_group st !! u = Some (-1)%Z).
  { assert (Hin : u ∈ where_unassigned 0 (to_group st)) by (rewrite Ew; set_solver).
    apply elem_of_where_unassigned in Hin as (i & -> & Hi). exact Hi. }
  assert (Hul : u < length (to_group st)) by (by eapply lookup_lt_Some).
  assert (Hus : u ∉ searched st).
  { intros Hs. destruct (inv_searched _ _ _ Hinv u Hs) as [g Hg].
    rewrite Hu in Hg. injection Hg. lia. }
  unfold np_set. rewrite decide_True by done. simpl.
  rewrite length_app. simpl.
  replace (Z.of_nat (length (G st) + 1) - 1)%Z with (Z.of_nat (length (G st))) by lia.
  eexists. split; [reflexivity|]. simpl.
  split; [|split; [done|left; by rewrite Hq]].
  assert (Hunch : ∀ y w, to_group st !! y = Some w → w ≠ (-1)%Z →
                         <[u:=Z.of_nat (length (G st))]> (to_group st) !! y = Some w).
  { intros y w Hy Hw. rewrite list_lookup_insert_ne; [done|].
    intros ->. congruence. }
  constructor; simpl.
  - rewrite length_insert. apply (inv_length _ _ _ Hinv).
  - by destruct (G st).
  - intros y g. unfold group_of. destruct (decide (y = u)) as [->|Hyu].
    + rewrite list_lookup_insert_eq by done. split.
      * intros [= Hg]. apply Nat2Z.inj in Hg as <-.
        exists [u]. split; [by apply list_lookup_middle|set_solver].
      * intros (grp & Hg & Hin).
        destruct (decide (g < length (G st))) as [Hlt|Hge].
        -- rewrite lookup_app_l in Hg by done.
           assert (Htu : to_group st !! u = Some (Z.of_nat g)).
           { apply (inv_to_group _ _ _ Hinv). by exists grp. }
           rewrite Hu in Htu. injection Htu. lia.
        -- apply lookup_lt_Some in Hg as Hlt. rewrite length_app in Hlt.
           simpl in Hlt. do 2 f_equal. lia.
    + rewrite list_lookup_insert_ne by done.
      rewrite (inv_to_group _ _ _ Hinv). unfold group_of. split.
      * intros (grp & Hg & Hin). exists grp. split; [|done].
        by apply lookup_app_l_Some.
      * intros (grp & Hg & Hin). exists grp. split; [|done].
        apply lookup_app_Some in Hg as [Hg|[Hlen Hg]]; [done|].
        apply list_lookup_singleton_Some in Hg as [_ <-]. set_solver.
  - intros y w Hy. destruct (decide (y = u)) as [->|Hyu].
    + rewrite list_lookup_insert_eq in Hy by done. injection Hy as <-. lia.
    + rewrite list_lookup_insert_ne in Hy by done.
      by apply (inv_values _ _ _ Hinv y).
  - intros g grp Hg. apply lookup_app_Some in Hg as [Hg|[Hlen Hg]].
    + by apply (inv_group_nodup _ _ _ Hinv g).
    + apply list_lookup_singleton_Some in Hg as [_ <-]. apply NoDup_singleton.
  - rewrite Hq. simpl. apply NoDup_cons. split; [done|exact Hnd].
  - rewrite Hq. simpl. intros y ->%list_elem_of_singleton.
    unfold last_group. simpl. rewrite length_app. simpl.
    replace (Z.of_nat (length (G st) + 1) - 1)%Z with (Z.of_nat (length (G st))) by lia.
    by apply list_lookup_insert_eq.
  - intros y w Hy Hw. destruct (decide (y = u)) as [->|Hyu]; [set_solver|].
    rewrite list_lookup_insert_ne in Hy by done.
    pose proof (inv_assigned _ _ _ Hinv y w Hy Hw). set_solver.
  - intros y Hy. destruct (inv_searched _ _ _ Hinv y Hy) as [g Hg].
    exists g. apply Hunch; [done|lia].
  - intros s m Hs Hb.
    destruct (inv_searched _ _ _ Hinv s Hs) as [g Hg].
    pose proof (inv_closed _ _ _ Hinv s m Hs Hb) as Hc. rewrite Hg in Hc.
    rewrite (Hunch s _ Hg) by lia. rewrite (Hunch m _ Hc) by lia. done.
  - intros g grp y z Hg Hy Hz. apply lookup_app_Some in Hg as [Hg|[Hlen Hg]].
    + by apply (inv_connected _ _ _ Hinv g grp).
    + apply list_lookup_singleton_Some in Hg as [_ <-].
      apply list_elem_of_singleton in Hy as ->.
      apply list_elem_of_singleton in Hz as ->. apply rtc_refl.
Qed.

(** One turn of the [while] loop. *)
Lemma groups_step_inv bod st :
  groups_inv bond_dict [bod] st →
  ∃ st', groups_step bond_dict (size bond_dict) bod st = Ok st'
         ∧ groups_inv bond_dict [] st'
         ∧ length (searched st') = S (length (searched st))
         ∧ (queue st' ≠ [] ∨ length (searched st') = size bond_dict).
Proof using Hkeys Hsym Hirr.
  intros Hinv.
  assert (Hbod : to_group st !! bod = Some (last_group st)).
  { apply (inv_frontier _ _ _ Hinv). set_solver. }
  assert (Hkey : is_Some (bond_dict !! bod)).
  { apply Hkeys. by eapply inv_lookup_lt. }
  destruct Hkey as [l Hl].
  unfold groups_step, np_get. rewrite Hbod. simpl. rewrite Hl. simpl.
  destruct (visit_members_inv bod l st Hinv)
    as (st1 & H1 & Hinv1 & Hs1 & Hg1 & Hm1 & Hk1).
  { intros m Hm. by exists l. }
  rewrite H1. simpl.
  assert (Hlg : last_group st1 = last_group st).
  { unfold last_group. by rewrite Hg1. }
  assert (Hinv2 := inv_searched_append bod l st1 Hinv1 Hl).
  rewrite Hlg in Hinv2. specialize (Hinv2 Hm1).
  destruct (start_new_group_inv _ Hinv2) as (st3 & H3 & Hinv3 & Hs3 & Hq3).
  exists st3. split; [exact H3|]. split; [exact Hinv3|]. split; [|exact Hq3].
  rewrite Hs3. simpl. rewrite length_app, Hs1. simpl. lia.
Qed.

(** The loop runs to its end within [size bond_dict] turns. *)
Lemma groups_loop_inv fuel : ∀ st,
  groups_inv bond_dict [] st →
  queue st ≠ [] ∨ length (searched st) = size bond_dict →
  size bond_dict - length (searched st) ≤ fuel →
  ∃ st', groups_loop fuel bond_dict (size bond_dict) st = Ok (G st')
         ∧ groups_inv bond_dict [] st'
         ∧ queue st' = []
         ∧ length (searched st') = size bond_dict.
Proof using Hkeys Hsym Hirr.
  induction fuel as [|fuel IH]; intros st Hinv Hq Hfuel.
  - destruct (queue st) as [|bod rest] eqn:Eq.
    + exists st. simpl. rewrite Eq. destruct Hq as [Hq|Hq]; [done|]. done.
    + exfalso.
      assert (Hle : length (queue st ++ searched st) ≤ size bond_dict).
      { apply nodup_below_length; [apply (inv_nodup _ _ _ Hinv)|].
        intros x Hx. apply elem_of_app in Hx as [Hx|Hx].
        - eapply inv_lookup_lt; [exact Hinv|].
          apply (inv_frontier _ _ _ Hinv). set_solver.
        - destruct (inv_searched _ _ _ Hinv x Hx) as [g Hg].
          by eapply inv_lookup_lt. }
      rewrite length_app, Eq in Hle. simpl in Hle. lia.
  - destruct (queue st) as [|bod rest] eqn:Eq.
    + exists st. simpl. rewrite Eq. destruct Hq as [Hq|Hq]; [done|]. done.
    + simpl. rewrite Eq.
      assert (Hpop : groups_inv bond_dict [bod]
                {| to_group := to_group st; G := G st; queue := rest;
                   searched := searched st |}).
      { destruct Hinv. rewrite Eq in *. by constructor. }
      destruct (groups_step_inv bod _ Hpop) as (st1 & H1 & Hinv1 & Hs1 & Hq1).
      rewrite H1. simpl. simpl in Hs1.
      apply (IH st1 Hinv1 Hq1). lia.
Qed.

Lemma groups_init_inv :
  1 ≤ size bond_dict →
  groups_inv bond_dict []
    {| to_group := <[0 := 0%Z]> (replicate (size bond_dict) (-1)%Z);
       G := [[0]]; queue := [0]; searched := [] |}.
Proof using Hkeys Hsym Hirr.
  intros HN.
  assert (Hlook : ∀ x v, <[0 := 0%Z]> (replicate (size bond_dict) (-1)%Z) !! x = Some v →
                         (x = 0 ∧ v = 0%Z) ∨ (x ≠ 0 ∧ v = (-1)%Z)).
  { intros x v Hx. destruct (decide (x = 0)) as [->|Hx0].
    - rewrite list_lookup_insert_eq in Hx by (rewrite length_replicate; lia).
      left. by injection Hx as <-.
    - rewrite list_lookup_insert_ne in Hx by done.
      apply lookup_replicate in Hx as [-> _]. by right. }
  assert (H0 : <[0 := 0%Z]> (replicate (size bond_dict) (-1)%Z) !! 0 = Some 0%Z).
  { apply list_lookup_insert_eq. rewrite length_replicate. lia. }
  constructor; simpl.
  - by rewrite length_insert, length_replicate.
  - done.
  - intros x g. unfold group_of. split.
    + intros Hx. destruct (Hlook _ _ Hx) as [[-> Hg]|[_ Hg]]; [|lia].
      assert (g = 0) as -> by lia. exists [0]. split; [done|set_solver].
    + intros (grp & Hg & Hin). destruct g as [|g]; [|done].
      injection Hg as <-. apply list_elem_of_singleton in Hin as ->. exact H0.
  - intros x v Hx. destruct (Hlook _ _ Hx) as [[_ ->]|[_ ->]]; [right; lia|by left].
  - intros [|g] grp Hg; [|done]. injection Hg as <-. apply NoDup_singleton.
  - apply NoDup_singleton.
  - intros x ->%list_elem_of_singleton. exact H0.
  - intros x v Hx Hv. destruct (Hlook _ _ Hx) as [[-> _]|[_ ->]]; [set_solver|done].
  - by intros x ?%elem_of_nil.
  - by intros s m ?%elem_of_nil.
  - intros [|g] grp x y Hg Hx Hy; [|done]. injection Hg as <-.
    apply list_elem_of_singleton in Hx as ->.
    apply list_elem_of_singleton in Hy as ->. apply rtc_refl.
Qed.

(** What the invariant gives once the queue is empty and every body has
    been searched. *)
Lemma groups_inv_final st :
  groups_inv bond_dict [] st → queue st = [] →
  length (searched st) = size bond_dict →
  is_partition bond_dict (G st).
Proof using Hkeys Hsym Hirr.
  intros Hinv Hq Hlen.
  assert (Hnd : NoDup (searched st)).
  { pose proof (inv_nodup _ _ _ Hinv) as H. rewrite Hq in H. exact H. }
  assert (Hsa : ∀ x, x ∈ searched st → x < size bond_dict).
  { intros x Hx. destruct (inv_searched _ _ _ Hinv x Hx) as [g Hg].
    by eapply inv_lookup_lt. }
  assert (Hall : ∀ x, x < size bond_dict → x ∈ searched st).
  { by apply below_all_in. }
  assert (Hsame : ∀ i j, connected bond_dict i j → i < size bond_dict →
                         to_group st !! j = to_group st !! i).
  { intros i j Hc. induction Hc as [|x y z Hxy _ IH]; intros Hx; [done|].
    pose proof (inv_closed _ _ _ Hinv x y (Hall x Hx) Hxy) as Hy.
    rewrite <- Hy. apply IH. by apply (bonded_lt x y). }
  constructor.
  - intros i. split.
    + intros Hi. destruct (inv_searched _ _ _ Hinv i (Hall i Hi)) as [g Hg].
      apply (inv_to_group _ _ _ Hinv) in Hg as (grp & Hg & Hin).
      exists grp. split; [|done]. by eapply list_elem_of_lookup_2.
    + intros (grp & Hg & Hin). apply list_elem_of_lookup in Hg as [g Hg].
      eapply inv_lookup_lt; [exact Hinv|].
      apply (inv_to_group _ _ _ Hinv). by exists grp.
  - intros a b ga gb i Ha Hb Hia Hib.
    assert (H1 : to_group st !! i = Some (Z.of_nat a)).
    { apply (inv_to_group _ _ _ Hinv). by exists ga. }
    assert (H2 : to_group st !! i = Some (Z.of_nat b)).
    { apply (inv_to_group _ _ _ Hinv). by exists gb. }
    rewrite H1 in H2. injection H2. lia.
  - intros grp Hg. apply list_elem_of_lookup in Hg as [g Hg].
    by apply (inv_group_nodup _ _ _ Hinv g).
  - intros grp i j Hg Hi Hj. apply list_elem_of_lookup in Hg as [g Hg].
    by apply (inv_connected _ _ _ Hinv g grp).
  - intros a b ga gb i j Ha Hb Hia Hjb Hab Hc.
    assert (H1 : to_group st !! i = Some (Z.of_nat a)).
    { apply (inv_to_group _ _ _ Hinv). by exists ga. }
    assert (H2 : to_group st !! j = Some (Z.of_nat b)).
    { apply (inv_to_group _ _ _ Hinv). by exists gb. }
    rewrite (Hsame i j Hc) in H2 by (by eapply inv_lookup_lt).
    rewrite H1 in H2. injection H2. lia.
Qed.

Lemma get_groups_partition :
  1 ≤ size bond_dict →
  ∃ groups, get_groups bond_dict = Ok groups ∧ is_partition bond_dict groups.
Proof using Hkeys Hsym Hirr.
  intros HN. unfold get_groups, np_set.
  rewrite decide_True by (rewrite length_replicate; lia). simpl.
  destruct (groups_loop_inv (2 * size bond_dict + 1) _ (groups_init_inv HN))
    as (st & Hrun & Hinv & Hq & Hlen).
  - by left.
  - simpl. lia.
  - exists (G st). split; [exact Hrun|]. by apply groups_inv_final.
Qed.

End get_groups_correct.

(** ** Connected components: any bond dictionary *)

Lemma occurrences_app x l1 l2 :
  occurrences x (l1 ++ l2) = occurrences x l1 + occurrences x l2.
Proof. unfold occurrences. by rewrite filter_app, length_app. Qed.

Lemma occurrences_cons x y l :
  occurrences x (y :: l) = (if decide (x = y) then 1 else 0) + occurrences x l.
Proof.
  unfold occurrences. rewrite filter_cons. case_decide; simpl; done.
Qed.

Lemma occurrences_nil x : occurrences x [] = 0.
Proof. done. Qed.

Lemma occurrences_not_elem x l : x ∉ l → occurrences x l = 0.
Proof.
  induction l as [|y l IH]; intros Hx; [done|].
  rewrite occurrences_cons, IH by set_solver.
  rewrite decide_False by set_solver. done.
Qed.

Lemma occurrences_elem x l : x ∈ l → 1 ≤ occurrences x l.
Proof.
  induction l as [|y l IH]; intros Hx; [by apply elem_of_nil in Hx|].
  rewrite occurrences_cons. destruct (decide (x = y)); [lia|].
  apply elem_of_cons in Hx as [?|Hx]; [done|]. specialize (IH Hx). lia.
Qed.

Lemma occurrences_perm x l1 l2 : l1 ≡ₚ l2 → occurrences x l1 = occurrences x l2.
Proof. intros H. unfold occurrences. by rewrite H. Qed.

Lemma occurrences_NoDup l : (∀ x, occurrences x l ≤ 1) → NoDup l.
Proof.
  induction l as [|y l IH]; intros H; [constructor|].
  apply NoDup_cons. split.
  - intros Hy. apply occurrences_elem in Hy. specialize (H y).
    rewrite occurrences_cons, decide_True in H by done. lia.
  - apply IH. intros x. specialize (H x). rewrite occurrences_cons in H. lia.
Qed.

Lemma occurrences_filter x (P : nat → Prop) `{!∀ y, Decision (P y)} l :
  occurrences x (filter P l) ≤ occurrences x l.
Proof.
  induction l as [|y l IH]; [done|].
  rewrite filter_cons. case_decide; rewrite !occurrences_cons; lia.
Qed.

(** A list of keys in which no key occurs more than [k] times is at most
    [k] times as long as the dictionary. *)
Lemma occurrences_length (k : nat) (X : gset nat) : ∀ l,
  (∀ x, x ∈ l → x ∈ X) → (∀ x, occurrences x l ≤ k) → length l ≤ k * size X.
Proof.
  induction X as [|y X Hy IH] using set_ind_L; intros l Hin Hocc.
  - destruct l as [|x l]; [simpl; lia|]. specialize (Hin x). set_solver.
  - rewrite size_union, size_singleton by set_solver.
    assert (Hsplit : length l = occurrences y l + length (filter (y ≠.) l)).
    { clear. induction l as [|x l IHl]; [done|].
      rewrite occurrences_cons, filter_cons. simpl.
      destruct (decide (y = x)), (decide (y ≠ x)); simpl; try done; lia. }
    specialize (IH (filter (y ≠.) l)).
    assert (length (filter (y ≠.) l) ≤ k * size X).
    { apply IH.
      - intros x [Hne Hx]%list_elem_of_filter. specialize (Hin x Hx). set_solver.
      - intros x. etrans; [apply occurrences_filter|apply Hocc]. }
    specialize (Hocc y). lia.
Qed.

Lemma py_get_Ok_inv {A} (l : list A) (i : Z) (a : A) :
  py_get l i = Ok a → a ∈ l.
Proof.
  unfold py_get. destruct (py_index _ _) as [n|]; [|done].
  destruct (l !! n) as [a'|] eqn:E; [|done]. intros [= <-].
  by eapply list_elem_of_lookup_2.
Qed.

Lemma group_append_Ok_inv G0 gn m G' :
  group_append G0 gn m = Ok G' →
  ∃ n grp, G0 !! n = Some grp ∧ G' = <[n := grp ++ [m]]> G0.
Proof.
  unfold group_append. destruct (py_index _ _) as [n|]; [|done].
  destruct (G0 !! n) as [grp|] eqn:E; [|done]. intros [= <-]. by exists n, grp.
Qed.

Lemma np_set_Ok_inv a i v a' :
  np_set a i v = Ok a' → i < length a ∧ a' = <[i := v]> a.
Proof. unfold np_set. case_decide; [|done]. by intros [= <-]. Qed.

Lemma assigned_insert (a : list Z) (i : nat) (w : Z) (x : nat) :
  w ≠ (-1)%Z → i < length a →
  (x = i ∨ ∃ v, a !! x = Some v ∧ v ≠ (-1)%Z) →
  ∃ v, <[i := w]> a !! x = Some v ∧ v ≠ (-1)%Z.
Proof.
  intros Hw Hi Hx. destruct (decide (x = i)) as [->|Hne].
  - exists w. split; [by apply list_lookup_insert_eq|done].
  - destruct Hx as [?|Hx]; [done|]. by rewrite list_lookup_insert_ne.
Qed.

Lemma elem_of_group_insert (G0 : list (list nat)) n grp m grp' x :
  G0 !! n = Some grp →
  grp' ∈ <[n := grp ++ [m]]> G0 → x ∈ grp' →
  x = m ∨ ∃ grp0, grp0 ∈ G0 ∧ x ∈ grp0.
Proof.
  intros Hn Hg Hx. apply list_elem_of_lookup in Hg as [g Hg].
  destruct (decide (g = n)) as [->|Hne].
  - rewrite list_lookup_insert_eq in Hg by (by eapply lookup_lt_Some).
    injection Hg as <-. apply elem_of_app in Hx as [Hx|Hx].
    + right. exists grp. split; [by eapply list_elem_of_lookup_2|done].
    + left. by apply list_elem_of_singleton in Hx.
  - rewrite list_lookup_insert_ne in Hg by done.
    right. exists grp'. split; [by eapply list_elem_of_lookup_2|done].
Qed.

Lemma group_insert_mono (G0 : list (list nat)) n grp m grp0 x :
  G0 !! n = Some grp → grp0 ∈ G0 → x ∈ grp0 →
  ∃ grp', grp' ∈ <[n := grp ++ [m]]> G0 ∧ x ∈ grp'.
Proof.
  intros Hn Hg Hx. apply list_elem_of_lookup in Hg as [g Hg].
  destruct (decide (g = n)) as [->|Hne].
  - exists (grp ++ [m]). split.
    + eapply list_elem_of_lookup_2. apply list_lookup_insert_eq.
      by eapply lookup_lt_Some.
    + rewrite Hn in Hg. injection Hg as <-. set_solver.
  - exists grp0. split; [|done]. eapply list_elem_of_lookup_2.
    by rewrite list_lookup_insert_ne.
Qed.

Section get_groups_any.

Variable bond_dict : gmap nat (list nat).
Variable k : nat.
Hypothesis Hk : 1 ≤ k.

Lemma visit_member_wf gn bod m st st' :
  groups_wf bond_dict k [bod] st → gn ≠ (-1)%Z → (m = bod → 2 ≤ k) →
  visit_member gn st m = Ok st' →
  groups_wf bond_dict k [bod] st' ∧ searched st' = searched st.
Proof using Hk.
  intros Hwf Hgn Hne. unfold visit_member.
  destruct (py_get (G st) gn) as [grp| |] eqn:Eg; [simpl|done..].
  apply py_get_Ok_inv in Eg.
  assert (Henq : ∀ st1, groups_wf bond_dict k [bod] st1 →
            (∃ grp', grp' ∈ G st1 ∧ m ∈ grp') →
            ∀ st2,
            (if bool_decide (m ∉ searched st1) && bool_decide (m ∉ queue st1)
             then Ok {| to_group := to_group st1; G := G st1;
                        queue := queue st1 ++ [m]; searched := searched st1 |}
             else Ok st1) = Ok st2 →
            groups_wf bond_dict k [bod] st2 ∧ searched st2 = searched st1).
  { intros st1 Hwf1 Hm st2.
    destruct (bool_decide (m ∉ searched st1)) eqn:E1; simpl;
      [|intros [= <-]; done].
    destruct (bool_decide (m ∉ queue st1)) eqn:E2; simpl;
      [|intros [= <-]; done].
    apply bool_decide_eq_true in E1, E2. intros [= <-]. split; [|done].
    destruct Hwf1. constructor; simpl; try done.
    - intros x Hx.
      assert (Hc : x = m ∨ x ∈ [bod] ++ queue st1 ++ searched st1) by set_solver.
      destruct Hc as [->|Hc]; [done|by apply wf_listed0].
    - intros x. specialize (wf_weight0 x).
      change (occurrences x ([bod] ++ (queue st1 ++ [m]) ++ searched st1) ≤ k).
      change (occurrences x ([bod] ++ queue st1 ++ searched st1) ≤ k) in wf_weight0.
      rewrite !occurrences_app, !occurrences_cons, !occurrences_nil in *.
      destruct (decide (x = m)) as [->|Hxm]; [|lia].
      rewrite (occurrences_not_elem m (queue st1)) by done.
      rewrite (occurrences_not_elem m (searched st1)) by done.
      destruct (decide (m = bod)) as [Hmb|_]; [specialize (Hne Hmb)|]; lia. }
  destruct (bool_decide (m ∈ grp)) eqn:Em.
  - apply bool_decide_eq_true in Em. simpl. intros H.
    apply (Henq st Hwf); [by exists grp|exact H].
  - destruct (group_append (G st) gn m) as [G'| |] eqn:Ea; [simpl|done..].
    destruct (np_set (to_group st) m gn) as [tg'| |] eqn:Es; [simpl|done..].
    apply group_append_Ok_inv in Ea as (n & grp0 & Hn & ->).
    apply np_set_Ok_inv in Es as [Hm ->].
    intros H.
    eapply (Henq _ _ _ _ H).
    Unshelve.
    + destruct Hwf. constructor; simpl; try done.
      * by rewrite length_insert.
      * intros E. apply (f_equal length) in E. rewrite length_insert in E.
        by destruct (G st).
      * intros grp' x Hg Hx. apply assigned_insert; [done..|].
        destruct (elem_of_group_insert _ _ _ _ _ _ Hn Hg Hx) as [->|(g0 & Hg0 & Hx0)];
          [by left|right]. by eapply wf_member_assigned0.
      * intros x Hx. destruct (wf_listed0 x Hx) as (g0 & Hg0 & Hx0).
        by eapply group_insert_mono.
    + simpl. exists (grp0 ++ [m]). split; [|set_solver].
      eapply list_elem_of_lookup_2. apply list_lookup_insert_eq.
      by eapply lookup_lt_Some.
Qed.

Lemma visit_members_wf gn bod l : ∀ st st',
  groups_wf bond_dict k [bod] st → gn ≠ (-1)%Z → (bod ∈ l → 2 ≤ k) →
  for_each (visit_member gn) l st = Ok st' →
  groups_wf bond_dict k [bod] st' ∧ searched st' = searched st.
Proof using Hk.
  induction l as [|m l IH]; intros st st' Hwf Hgn Hl H.
  - by injection H as <-.
  - simpl in H. apply bind_Ok_inv in H as (st1 & H1 & H2).
    destruct (visit_member_wf gn bod m st st1 Hwf Hgn) as [Hwf1 Hs1];
      [intros ->; apply Hl; set_solver|done|].
    destruct (IH st1 st' Hwf1 Hgn) as [Hwf2 Hs2];
      [intros ?; apply Hl; set_solver|done|].
    split; [done|congruence].
Qed.

Lemma start_new_group_wf st st' :
  groups_wf bond_dict k [] st →
  start_new_group (size bond_dict) st = Ok st' →
  groups_wf bond_dict k [] st'
  ∧ searched st' = searched st
  ∧ (queue st' ≠ [] ∨ length (searched st') = size bond_dict).
Proof using Hk.
  intros Hwf. unfold start_new_group.
  destruct (bool_decide (length (queue st) = 0)) eqn:Eq; simpl.
  2:{ intros [= <-]. split; [done|]. split; [done|]. left.
      apply bool_decide_eq_false in Eq. intros E. by rewrite E in Eq. }
  destruct (bool_decide (length (searched st) ≠ size bond_dict)) eqn:Es; simpl.
  2:{ intros [= <-]. split; [done|]. split; [done|]. right.
      apply bool_decide_eq_false in Es. by apply dec_stable. }
  apply bool_decide_eq_true in Eq. apply nil_length_inv in Eq.
  destruct (where_unassigned 0 (to_group st)) as [|u rest] eqn:Ew; [done|].
  assert (Hu : to_group st !! u = Some (-1)%Z).
  { assert (Hin : u ∈ where_unassigned 0 (to_group st)) by (rewrite Ew; set_solver).
    apply elem_of_where_unassigned in Hin as (i & -> & Hi). exact Hi. }
  intros H. apply bind_Ok_inv in H as (tg & Hset & [= <-]).
  apply np_set_Ok_inv in Hset as [Hul ->]. simpl.
  split; [|split; [done|left; by destruct (queue st)]].
  assert (Hus : u ∉ searched st).
  { intros Hs. destruct (wf_listed _ _ _ _ Hwf u) as (grp & Hg & Hx); [set_solver|].
    destruct (wf_member_assigned _ _ _ _ Hwf grp u Hg Hx) as (v & Hv & Hv').
    congruence. }
  assert (Hw : (Z.of_nat (length (G st ++ [[u]])) - 1)%Z ≠ (-1)%Z).
  { rewrite length_app. simpl. lia. }
  destruct Hwf. constructor; simpl; try done.
  - by rewrite length_insert.
  - by destruct (G st).
  - intros grp x Hg Hx. apply assigned_insert; [done..|].
    apply elem_of_app in Hg as [Hg|Hg].
    + right. by eapply wf_member_assigned0.
    + left. apply list_elem_of_singleton in Hg as ->.
      by apply list_elem_of_singleton in Hx.
  - intros x Hx. rewrite Eq in Hx. simpl in Hx.
    apply elem_of_cons in Hx as [->|Hx].
    + exists [u]. set_solver.
    + destruct (wf_listed0 x) as (grp & Hg & Hxg); [set_solver|].
      exists grp. set_solver.
  - intros x. specialize (wf_weight0 x). rewrite Eq in *.
    change (occurrences x ([u] ++ searched st) ≤ k).
    rewrite occurrences_app, occurrences_cons, occurrences_nil.
    destruct (decide (x = u)) as [->|]; [|simpl in *; lia].
    rewrite occurrences_not_elem by done. lia.
Qed.

Lemma groups_step_wf bod st st' :
  no_self_bond bond_dict ∨ 2 ≤ k →
  groups_wf bond_dict k [bod] st →
  groups_step bond_dict (size bond_dict) bod st = Ok st' →
  groups_wf bond_dict k [] st'
  ∧ length (searched st') = S (length (searched st))
  ∧ (queue st' ≠ [] ∨ length (searched st') = size bond_dict).
Proof using Hk.
  intros Hirr Hwf. unfold groups_step, np_get.
  destruct (to_group st !! bod) as [gn|] eqn:Egn; [simpl|done].
  destruct (bond_dict !! bod) as [l|] eqn:El; [simpl|done].
  intros H. apply bind_Ok_inv in H as (st1 & H1 & H2).
  assert (Hgn : gn ≠ (-1)%Z).
  { destruct (wf_listed _ _ _ _ Hwf bod) as (grp & Hg & Hx); [set_solver|].
    destruct (wf_member_assigned _ _ _ _ Hwf grp bod Hg Hx) as (v & Hv & Hv').
    congruence. }
  assert (Hbl : bod ∈ l → 2 ≤ k).
  { intros Hin. destruct Hirr as [Hirr|?]; [|done].
    destruct (Hirr bod). by exists l. }
  destruct (visit_members_wf gn bod l st st1 Hwf Hgn Hbl H1) as [Hwf1 Hs1].
  assert (Hwf2 : groups_wf bond_dict k []
            {| to_group := to_group st1; G := G st1; queue := queue st1;
               searched := searched st1 ++ [bod] |}).
  { destruct Hwf1. constructor; simpl; try done.
    - intros x Hx. apply wf_listed0. set_solver.
    - assert (Hp : queue st1 ++ searched st1 ++ [bod]
                   ≡ₚ [bod] ++ queue st1 ++ searched st1).
      { rewrite app_assoc. by rewrite <- Permutation_cons_append. }
      intros x. rewrite (occurrences_perm x _ _ Hp). apply wf_weight0.
    - intros x [Hx| ->%list_elem_of_singleton]%elem_of_app;
        [by apply wf_searched_keys0|by eexists]. }
  destruct (start_new_group_wf _ _ Hwf2 H2) as (Hwf3 & Hs3 & Hq3).
  split; [done|]. split; [|done].
  rewrite Hs3. simpl. rewrite length_app, Hs1. simpl. lia.
Qed.

Lemma groups_loop_wf fuel : ∀ st groups,
  no_self_bond bond_dict ∨ 2 ≤ k →
  groups_wf bond_dict k [] st →
  queue st ≠ [] ∨ length (searched st) = size bond_dict →
  groups_loop fuel bond_dict (size bond_dict) st = Ok groups →
  ∃ st', groups = G st' ∧ groups_wf bond_dict k [] st'
         ∧ queue st' = [] ∧ length (searched st') = size bond_dict.
Proof using Hk.
  induction fuel as [|fuel IH]; intros st groups Hirr Hwf Hq; simpl;
    destruct (queue st) as [|bod rest] eqn:Eq; try done.
  - intros [= <-]. exists st. destruct Hq as [Hq|Hq]; done.
  - intros [= <-]. exists st. destruct Hq as [Hq|Hq]; done.
  - intros H. apply bind_Ok_inv in H as (st1 & H1 & H2).
    assert (Hpop : groups_wf bond_dict k [bod]
              {| to_group := to_group st; G := G st; queue := rest;
                 searched := searched st |}).
    { destruct Hwf. rewrite Eq in *. by constructor. }
    destruct (groups_step_wf bod _ st1 Hirr Hpop H1) as (Hwf1 & _ & Hq1).
    by apply (IH st1 groups).
Qed.

Lemma groups_init_wf :
  1 ≤ size bond_dict →
  groups_wf bond_dict k []
    {| to_group := <[0 := 0%Z]> (replicate (size bond_dict) (-1)%Z);
       G := [[0]]; queue := [0]; searched := [] |}.
Proof using Hk.
  intros HN. constructor; simpl.
  - by rewrite length_insert, length_replicate.
  - done.
  - intros grp x ->%list_elem_of_singleton ->%list_elem_of_singleton.
    exists 0%Z. split; [|done]. apply list_lookup_insert_eq.
    by rewrite length_replicate.
  - intros x Hx. exists [0]. set_solver.
  - intros x. rewrite occurrences_cons, occurrences_nil. case_decide; lia.
  - by intros x ?%elem_of_nil.
Qed.

(** No body is searched more than [k] times, and only keys are searched. *)
Lemma groups_searched_bound current st :
  groups_wf bond_dict k current st →
  length (searched st) ≤ k * size bond_dict.
Proof using Hk.
  intros Hwf. rewrite <- (size_dom (D := gset nat)).
  apply occurrences_length.
  - intros x Hx. apply elem_of_dom. by apply (wf_searched_keys _ _ _ _ Hwf).
  - intros x. pose proof (wf_weight _ _ _ _ Hwf x) as Hw.
    rewrite !occurrences_app in Hw. lia.
Qed.

Lemma for_each_no_fuel {S X} (f : S → X → result S) (l : list X) : ∀ st,
  (∀ s x, f s x ≠ OutOfFuel) → for_each f l st ≠ OutOfFuel.
Proof.
  induction l as [|x l IH]; intros st Hf; simpl; [done|].
  destruct (f st x) as [s| |] eqn:E; simpl; [by apply IH|done|].
  by destruct (Hf st x).
Qed.

Lemma visit_member_no_fuel gn st m : visit_member gn st m ≠ OutOfFuel.
Proof.
  unfold visit_member, py_get, group_append, np_set.
  destruct (py_index _ _) as [n|]; [|done].
  destruct (G st !! n) as [grp|]; [|done]. simpl.
  destruct (bool_decide (m ∈ grp)); simpl.
  - by destruct (_ && _).
  - case_decide; simpl; [|done]. by destruct (_ && _).
Qed.

Lemma groups_step_no_fuel total bod st :
  groups_step bond_dict total bod st ≠ OutOfFuel.
Proof.
  unfold groups_step, np_get.
  destruct (to_group st !! bod) as [gn|]; [simpl|done].
  destruct (bond_dict !! bod) as [l|]; [simpl|done].
  destruct (for_each (visit_member gn) l st) as [st1| |] eqn:E; simpl; [|done|].
  - unfold start_new_group. destruct (_ && _); [|done].
    destruct (where_unassigned _ _); [done|]. unfold np_set.
    by case_decide.
  - by destruct (for_each_no_fuel (visit_member gn) l st (visit_member_no_fuel gn)).
Qed.

(** The bound on the turns of the loop: [k] times the number of keys. *)
Lemma groups_loop_fuel fuel : ∀ st,
  no_self_bond bond_dict ∨ 2 ≤ k →
  groups_wf bond_dict k [] st →
  k * size bond_dict < fuel + length (searched st) →
  groups_loop fuel bond_dict (size bond_dict) st ≠ OutOfFuel.
Proof using Hk.
  induction fuel as [|fuel IH]; intros st Hirr Hwf Hfuel.
  - pose proof (groups_searched_bound _ _ Hwf). lia.
  - simpl. destruct (queue st) as [|bod rest] eqn:Eq; [done|].
    assert (Hpop : groups_wf bond_dict k [bod]
              {| to_group := to_group st; G := G st; queue := rest;
                 searched := searched st |}).
    { destruct Hwf. rewrite Eq in *. by constructor. }
    destruct (groups_step bond_dict (size bond_dict) bod _) as [st1| |] eqn:E;
      simpl; [|done|by apply groups_step_no_fuel in E].
    destruct (groups_step_wf bod _ st1 Hirr Hpop E) as (Hwf1 & Hs1 & _).
    apply IH; [done..|]. simpl in Hs1. lia.
Qed.

End get_groups_any.

(** A returned result means the keys were [0 .. N-1]. *)
Lemma get_groups_Ok_keys bond_dict groups :
  no_self_bond bond_dict →
  get_groups bond_dict = Ok groups →
  keys_are_range bond_dict ∧ 1 ≤ size bond_dict ∧ groups ≠ [].
Proof.
  intros Hirr. unfold get_groups. intros H.
  apply bind_Ok_inv in H as (tg & Hset & H).
  apply np_set_Ok_inv in Hset as [HN ->]. rewrite length_replicate in HN.
  apply (groups_loop_wf bond_dict 1) in H as (st & -> & Hwf & Hq & Hlen);
    [|done|by left|by apply groups_init_wf|by left].
  split; [|split; [lia|apply (wf_groups _ _ _ _ Hwf)]].
  assert (Hnd : NoDup (searched st)).
  { apply occurrences_NoDup. intros x.
    pose proof (wf_weight _ _ _ _ Hwf x) as Hw.
    rewrite !occurrences_app in Hw. lia. }
  assert (Hsa : ∀ x, x ∈ searched st → x < size bond_dict).
  { intros x Hx. destruct (wf_listed _ _ _ _ Hwf x) as (grp & Hg & Hxg); [set_solver|].
    destruct (wf_member_assigned _ _ _ _ Hwf grp x Hg Hxg) as (v & Hv & _).
    rewrite <- (wf_length _ _ _ _ Hwf). by eapply lookup_lt_Some. }
  assert (Hall : ∀ x, x < size bond_dict → x ∈ searched st).
  { by apply below_all_in. }
  assert (Hsub : set_seq (C := gset nat) 0 (size bond_dict) ⊆ dom bond_dict).
  { intros x Hx%elem_of_set_seq. apply elem_of_dom.
    apply (wf_searched_keys _ _ _ _ Hwf), Hall. lia. }
  apply set_subseteq_size_eq in Hsub.
  2:{ rewrite size_set_seq, size_dom. done. }
  intros i. rewrite <- elem_of_dom, <- Hsub, elem_of_set_seq. lia.
Qed.

(** The bound on the turns of the loop in [get_groups] is never reached:
    whatever the bond dictionary, [get_groups] returns or raises. *)
Lemma get_groups_terminates bond_dict : get_groups bond_dict ≠ OutOfFuel.
Proof.
  unfold get_groups, np_set. rewrite length_replicate.
  case_decide as HN; [simpl|done].
  apply (groups_loop_fuel bond_dict 2); [lia|by right| |simpl; lia].
  apply groups_init_wf; lia.
Qed.

(** ** Checking the input contract *)

Lemma bonded_b_true bond_dict i j :
  bonded_b bond_dict i j = true ↔ bonded bond_dict i j.
Proof.
  unfold bonded_b, bonded. destruct (bond_dict !! i) as [l|]; split.
  - intros H%bool_decide_eq_true. by exists l.
  - intros (l' & [= <-] & H). by apply bool_decide_eq_true.
  - done.
  - by intros (l' & ? & _).
Qed.

Lemma keys_are_range_b_true bond_dict :
  keys_are_range_b bond_dict = true → keys_are_range bond_dict.
Proof.
  intros H%bool_decide_eq_true i.
  rewrite <- elem_of_dom, H, elem_of_set_seq. lia.
Qed.

Lemma symmetric_bonds_b_true bond_dict :
  symmetric_bonds_b bond_dict = true → symmetric_bonds bond_dict.
Proof.
  intros H i j (l & Hl & Hj). apply bonded_b_true.
  unfold symmetric_bonds_b in H. rewrite forallb_forall in H.
  specialize (H (i, l)). simpl in H. rewrite forallb_forall in H.
  apply H; apply list_elem_of_In; [by apply elem_of_map_to_list|done].
Qed.

Lemma no_self_bond_b_true bond_dict :
  no_self_bond_b bond_dict = true → no_self_bond bond_dict.
Proof.
  intros H i Hii. pose proof Hii as (l & Hl & _).
  unfold no_self_bond_b in H. rewrite forallb_forall in H.
  specialize (H (i, l)). simpl in H.
  rewrite (proj2 (bonded_b_true bond_dict i i) Hii) in H.
  discriminate H. apply list_elem_of_In. by apply elem_of_map_to_list.
Qed.

(** ** Connected components: the result *)

(** C2 (as amended). For every bond dictionary with keys [0 .. N-1], [N >= 1],
    a symmetric adjacency and no body bonded to itself, [get_groups] returns,
    and what it returns is a partition of [{0, .., N-1}]: every identifier is
    in a group, no identifier is in two groups or twice in one, two
    identifiers of one group are connected by bonds, and two identifiers of
    different groups are not. *)
Theorem get_groups_partitions (bond_dict : gmap nat (list nat)) :
  1 ≤ size bond_dict →
  keys_are_range bond_dict →
  symmetric_bonds bond_dict →
  no_self_bond bond_dict →
  ∃ groups, get_groups bond_dict = Ok groups ∧ is_partition bond_dict groups.
Proof.
  intros HN Hkeys Hsym Hirr. by apply get_groups_partition.
Qed.

Lemma get_groups_partitions_witness :
  ∃ groups, get_groups sample_bonds = Ok groups ∧ is_partition sample_bonds groups.
Proof.
  apply (get_groups_partitions sample_bonds).
  - vm_compute. lia.
  - apply keys_are_range_b_true. vm_compute. reflexivity.
  - apply symmetric_bonds_b_true. vm_compute. reflexivity.
  - apply no_self_bond_b_true. vm_compute. reflexivity.
Defined.

(** With a body bonded to itself the claim fails: the keys of [self_bonds]
    are 0 and 1, its adjacency is symmetric, and [get_groups] returns the one
    group [[0]], which leaves body 1 out. *)
Lemma get_groups_self_bond_counterexample :
  keys_are_range self_bonds ∧ symmetric_bonds self_bonds ∧ size self_bonds = 2
  ∧ get_groups self_bonds = Ok [[0]]
  ∧ ¬ is_partition self_bonds [[0]].
Proof.
  split; [apply keys_are_range_b_true; vm_compute; reflexivity|].
  split; [apply symmetric_bonds_b_true; vm_compute; reflexivity|].
  split; [vm_compute; reflexivity|].
  split; [vm_compute; reflexivity|].
  intros [Hcover _ _ _ _].
  destruct (proj1 (Hcover 1)) as (grp & Hg & H1).
  - vm_compute. lia.
  - apply list_elem_of_singleton in Hg as ->.
    apply list_elem_of_singleton in H1. discriminate H1.
Qed.

(** ** Where [get_groups] is defined *)

Lemma get_groups_without_0 (bond_dict : gmap nat (list nat)) :
  bond_dict !! 0 = None →
  get_groups bond_dict = Raise IndexError ∨ get_groups bond_dict = Raise KeyError.
Proof.
  intros H0. unfold get_groups.
  destruct (size bond_dict) as [|N]; [by left|right].
  simpl. unfold groups_step, np_get. simpl. by rewrite H0.
Qed.




(** ** The history of a record *)

Lemma compute_observable_Ok cluster d name d' :
  compute_observable cluster d name = Ok d' →
  recognized name ∧ d' = <[name := observable_value cluster name]> d.
Proof.
  unfold compute_observable, observable_value.
  destruct (String.eqb name "num_bodies") eqn:E1.
  { apply String.eqb_eq in E1 as ->. intros [= <-]. split; [by left|done]. }
  destruct (String.eqb name "positions") eqn:E2; [|done].
  apply String.eqb_eq in E2 as ->. intros [= <-]. split; [by right|done].
Qed.

Lemma compute_loop_content cluster names : ∀ d0 d,
  for_each (compute_observable cluster) names d0 = Ok d →
  Forall recognized names
  ∧ ∀ name, d !! name = if decide (name ∈ names)
                        then Some (observable_value cluster name)
                        else d0 !! name.
Proof.
  induction names as [|n names IH]; intros d0 d H.
  - injection H as <-. split; [constructor|]. intros name.
    rewrite decide_False; [done|apply not_elem_of_nil].
  - simpl in H. apply bind_Ok_inv in H as (d1 & H1 & H2).
    apply compute_observable_Ok in H1 as [Hr ->].
    destruct (IH _ _ H2) as [Hall Hd]. split; [by constructor|].
    intros name. rewrite Hd.
    destruct (decide (name ∈ names)) as [Hin|Hnin].
    + rewrite decide_True by set_solver. done.
    + destruct (decide (name = n)) as [->|Hne].
      * rewrite decide_True by set_solver. by rewrite lookup_insert_eq.
      * rewrite decide_False by set_solver. by rewrite lookup_insert_ne.
Qed.

Lemma compute_coordinate_unstamped self cluster d :
  compute_coordinate self cluster = Ok d → d !! "monomer_fraction" = None.
Proof.
  unfold compute_coordinate. intros H.
  apply compute_loop_content in H as [Hall Hd].
  rewrite Hd. case_decide as Hin; [|by rewrite lookup_empty].
  apply (proj1 (Forall_forall _ _) Hall) in Hin.
  destruct Hin as [Hin|Hin]; discriminate Hin.
Qed.

(** X1. A snapshot that [__compute_coordinate] returns has exactly the
    observables of the observer as its keys, all of them recognized;
    ["num_bodies"] holds the number of bodies of the cluster, ["positions"]
    their positions in the order of the cluster, and there is no
    ["monomer_fraction"] yet. *)
Theorem compute_coordinate_content (self : ClusterInfo) (cluster : Cluster)
    (d : gmap string value) :
  compute_coordinate self cluster = Ok d →
  dom d = get_observables (observer self)
  ∧ (∀ name, name ∈ get_observables (observer self) → recognized name)
  ∧ (∀ v, d !! "num_bodies" = Some v → v = VInt (Z.of_nat (length (get_bodies cluster))))
  ∧ (∀ v, d !! "positions" = Some v → v = VPositions (get_body_positions cluster))
  ∧ d !! "monomer_fraction" = None.
Proof.
  unfold compute_coordinate. intros H.
  apply compute_loop_content in H as [Hall Hd].
  assert (Hrec : ∀ name, name ∈ get_observables (observer self) → recognized name).
  { intros name Hin. apply (proj1 (Forall_forall _ _) Hall). by apply elem_of_elements. }
  split; [|split; [done|]].
  - apply set_eq. intros name. rewrite elem_of_dom, Hd.
    destruct (decide (name ∈ elements _)) as [Hin|Hnin].
    + apply elem_of_elements in Hin. split; [done|by eexists].
    + rewrite lookup_empty. split; [by intros [? ?]|].
      intros Hin. destruct Hnin. by apply elem_of_elements.
  - repeat split.
    + intros v. rewrite Hd. case_decide; [|by rewrite lookup_empty]. by intros [= <-].
    + intros v. rewrite Hd. case_decide; [|by rewrite lookup_empty]. by intros [= <-].
    + rewrite Hd. case_decide as Hin; [|by rewrite lookup_empty].
      apply elem_of_elements, Hrec in Hin. destruct Hin as [Hin|Hin]; discriminate Hin.
Qed.

(** What one call can do to a record. *)
Lemma do_call_effect self c self' :
  do_call self c = Ok self' →
  birth_frame self' = birth_frame self
  ∧ observer self' = observer self
  ∧ (is_dead self = true → is_dead self' = true)
  ∧ (has_parent self = true → has_parent self' = true)
  ∧ (last_updated self ≤ last_updated self')%Z
  ∧ (∃ pre post, stored_data self' = pre ++ stored_data self ++ post
                 ∧ length pre + parent_entries self = parent_entries self'
                 ∧ Forall (λ d, ¬ stamped d) pre ∧ Forall stamped post)
  ∧ (∃ gains, from_monomer self' = from_monomer self ++ gains
              ∧ Forall (λ e : gmap string value * Z, stamped e.1) gains)
  ∧ (∃ losses, to_monomer self' = to_monomer self ++ losses
               ∧ Forall (λ e : gmap string value * Z, ¬ stamped e.1) losses).
Proof.
  assert (Hid : ∀ s : ClusterInfo,
    (∃ pre post, stored_data s = pre ++ stored_data s ++ post
                 ∧ length pre + parent_entries s = parent_entries s
                 ∧ Forall (λ d, ¬ stamped d) pre ∧ Forall stamped post)
    ∧ (∃ gains, from_monomer s = from_monomer s ++ gains
                ∧ Forall (λ e : gmap string value * Z, stamped e.1) gains)
    ∧ (∃ losses, to_monomer s = to_monomer s ++ losses
                 ∧ Forall (λ e : gmap string value * Z, ¬ stamped e.1) losses)).
  { intros s. split; [exists [], []|split; exists []]; rewrite ?app_nil_r; by repeat split. }
  assert (Hnst : ∀ cl d, compute_coordinate self cl = Ok d → ¬ stamped d).
  { intros cl d Hd [v Hv].
    apply compute_coordinate_unstamped in Hd. congruence. }
  assert (Hst : ∀ (d : gmap string value) mf,
             stamped (<["monomer_fraction" := VFloat mf]> d)).
  { intros d mf. unfold stamped. rewrite lookup_insert_eq. by eexists. }
  destruct c as [cl f mf|cl|f|cl n mf|cl n]; simpl.
  - unfold update_data. destruct (last_updated self <? f)%Z eqn:E; simpl.
    2:{ intros [= <-]. destruct (Hid self) as (? & ? & ?). repeat split; try done; lia. }
    destruct (is_dead self) eqn:Ed; simpl.
    { intros [= <-]. destruct (Hid self) as (? & ? & ?). repeat split; try done; lia. }
    intros H. apply bind_Ok_inv in H as (d & Hd & [= <-]). simpl.
    apply Z.ltb_lt in E.
    destruct (Hid self) as (_ & Hg & Hl).
    repeat split; try done; try lia.
    exists [], [<["monomer_fraction" := VFloat mf]> d]. simpl.
    repeat split; try done. constructor; [apply Hst|constructor].
  - unfold set_parent. destruct (has_parent self) eqn:Ep; simpl.
    { intros [= <-]. destruct (Hid self) as (? & ? & ?). repeat split; try done; lia. }
    intros H. apply bind_Ok_inv in H as (d & Hd & [= <-]). simpl.
    destruct (Hid self) as (_ & Hg & Hl).
    repeat split; try done; try lia.
    exists [d], []. rewrite app_nil_r. unfold parent_entries. rewrite Ep. simpl.
    repeat split; try done. constructor; [by eapply Hnst|constructor].
  - intros [= <-]. simpl. destruct (Hid self) as (Hs & Hg & Hl).
    repeat split; try done; lia.
  - unfold add_monomers. intros H. apply bind_Ok_inv in H as (d & Hd & [= <-]). simpl.
    destruct (Hid self) as (Hs & _ & Hl).
    repeat split; try done; try lia.
    eexists. split; [done|]. constructor; [apply Hst|constructor].
  - unfold remove_monomers. intros H. apply bind_Ok_inv in H as (d & Hd & [= <-]). simpl.
    destruct (Hid self) as (Hs & Hg & _).
    repeat split; try done; try lia.
    eexists. split; [done|]. constructor; [by eapply Hnst|constructor].
Qed.

Lemma do_calls_effect cs : ∀ self self',
  do_calls self cs = Ok self' →
  birth_frame self' = birth_frame self
  ∧ observer self' = observer self
  ∧ (is_dead self = true → is_dead self' = true)
  ∧ (has_parent self = true → has_parent self' = true)
  ∧ (last_updated self ≤ last_updated self')%Z
  ∧ (∃ pre post, stored_data self' = pre ++ stored_data self ++ post
                 ∧ length pre + parent_entries self = parent_entries self'
                 ∧ Forall (λ d, ¬ stamped d) pre ∧ Forall stamped post)
  ∧ (∃ gains, from_monomer self' = from_monomer self ++ gains
              ∧ Forall (λ e : gmap string value * Z, stamped e.1) gains)
  ∧ (∃ losses, to_monomer self' = to_monomer self ++ losses
               ∧ Forall (λ e : gmap string value * Z, ¬ stamped e.1) losses).
Proof.
  induction cs as [|c cs IH]; intros self self' H.
  - injection H as <-. repeat split; try done; try lia.
    + exists [], []. rewrite app_nil_r. by repeat split.
    + exists []. by rewrite app_nil_r.
    + exists []. by rewrite app_nil_r.
  - apply do_calls_cons in H as (s1 & H1 & H2).
    apply do_call_effect in H1
      as (Hb1 & Ho1 & Hd1 & Hp1 & Hu1 & (pre1 & post1 & Hs1 & Hl1 & Hpre1 & Hpost1)
          & (g1 & Hg1 & Hgs1) & (l1 & Hlo1 & Hls1)).
    apply IH in H2
      as (Hb2 & Ho2 & Hd2 & Hp2 & Hu2 & (pre2 & post2 & Hs2 & Hl2 & Hpre2 & Hpost2)
          & (g2 & Hg2 & Hgs2) & (l2 & Hlo2 & Hls2)).
    split; [congruence|]. split; [congruence|]. split; [auto|]. split; [auto|].
    split; [lia|]. split; [|split].
    + exists (pre2 ++ pre1), (post1 ++ post2). rewrite Hs2, Hs1, length_app.
      split; [by rewrite <- !app_assoc|]. split; [lia|].
      split; by apply Forall_app.
    + exists (g1 ++ g2). rewrite Hg2, Hg1, <- app_assoc. split; [done|].
      by apply Forall_app.
    + exists (l1 ++ l2). rewrite Hlo2, Hlo1, <- app_assoc. split; [done|].
      by apply Forall_app.
Qed.

(** X2. The history of a record is append-only. Whatever calls are made
    on a record, [get_data] afterwards is what it was before with snapshots
    added at its end and, if [set_parent] acted in between, one snapshot
    added at its front; the two monomer logs only grow at their ends. No
    call, [kill] included, removes or reorders an entry. *)
Theorem history_append_only (self self' : ClusterInfo) (cs : list call) :
  do_calls self cs = Ok self' →
  (∃ pre post, get_data self' = pre ++ get_data self ++ post
               ∧ length pre + parent_entries self = parent_entries self')
  ∧ (∃ gains, get_monomer_gain_data self' = get_monomer_gain_data self ++ gains)
  ∧ (∃ losses, get_monomer_loss_data self' = get_monomer_loss_data self ++ losses).
Proof.
  intros H. apply do_calls_effect in H
    as (_ & _ & _ & _ & _ & (pre & post & Hs & Hl & _) & (g & Hg & _) & (l & Hlo & _)).
  split; [by exists pre, post|]. split; [by exists g|by exists l].
Qed.

(** X3. No sequence of calls changes the birth frame or the observer of a
    record, brings a dead record back to life, takes its parent away, or
    lowers the frame of its last update. *)
Theorem record_never_goes_back (self self' : ClusterInfo) (cs : list call) :
  do_calls self cs = Ok self' →
  birth_frame self' = birth_frame self
  ∧ observer self' = observer self
  ∧ (is_dead self = true → is_dead self' = true)
  ∧ (has_parent self = true → has_parent self' = true)
  ∧ (last_updated self ≤ last_updated self')%Z.
Proof.
  intros H. apply do_calls_effect in H as (? & ? & ? & ? & ? & _). done.
Qed.

(** X4. Which snapshots carry the monomer fraction. In a record made by
    the constructor and used through its methods, every snapshot of
    [get_data] holds the key ["monomer_fraction"] except the parent snapshot
    at its front, which does not; every entry of the gain log holds it, and
    no entry of the loss log does. *)
Theorem monomer_fraction_stamps (cluster : Cluster) (f : Z) (mf : Q) (obs : Observer)
    (self0 self : ClusterInfo) (cs : list call) :
  ClusterInfo_init cluster f mf obs = Ok self0 →
  do_calls self0 cs = Ok self →
  Forall (λ d, ¬ stamped d) (take (parent_entries self) (get_data self))
  ∧ Forall stamped (drop (parent_entries self) (get_data self))
  ∧ Forall (λ e : gmap string value * Z, stamped e.1) (get_monomer_gain_data self)
  ∧ Forall (λ e : gmap string value * Z, ¬ stamped e.1) (get_monomer_loss_data self).
Proof.
  intros Hinit Hcalls.
  unfold ClusterInfo_init in Hinit.
  apply bind_Ok_inv in Hinit as (s1 & H1 & [= <-]).
  assert (Hc1 : do_call
            {| birth_frame := f; death_frame := (-1)%Z; last_updated := (-1)%Z;
               lifetime := (-1)%Z; is_dead := false; has_parent := false;
               observer := obs; stored_data := []; from_monomer := [];
               to_monomer := [] |} (CallUpdateData cluster f mf) = Ok s1) by exact H1.
  apply do_call_effect in Hc1
    as (_ & _ & _ & _ & _ & (pre1 & post1 & Hs1 & Hl1 & Hpre1 & Hpost1) & _).
  apply do_calls_effect in Hcalls
    as (_ & _ & _ & _ & _ & (pre & post & Hs & Hl & Hpre & Hpost)
        & (g & Hg & Hgs) & (l & Hlo & Hls)).
  simpl in *. unfold parent_entries in Hl1 at 1. simpl in Hl1.
  assert (Hp1 : parent_entries (set_monomer_logs s1 [] []) = parent_entries s1) by done.
  assert (Hs1p : has_parent s1 = false).
  { unfold update_data in H1. simpl in H1. destruct (_ && _); simpl in H1.
    - apply bind_Ok_inv in H1 as (d & _ & [= <-]). done.
    - by injection H1 as <-. }
  assert (Hpre1' : pre1 = []).
  { unfold parent_entries in Hl1. rewrite Hs1p in Hl1. by destruct pre1. }
  subst pre1. simpl in Hs1.
  unfold get_data, get_monomer_gain_data, get_monomer_loss_data.
  rewrite Hg, Hlo. simpl.
  assert (Hlen : length pre = parent_entries self).
  { rewrite Hp1 in Hl. unfold parent_entries in Hl at 1. rewrite Hs1p in Hl. lia. }
  rewrite Hs, <- Hlen, take_app_length, drop_app_length.
  split; [done|]. split; [|by split].
  apply Forall_app. split; [|done]. by rewrite Hs1.
Qed.

Lemma do_call_death self c self' :
  (∀ f, c ≠ CallKill f) → do_call self c = Ok self' →
  is_dead self' = is_dead self ∧ death_frame self' = death_frame self
  ∧ lifetime self' = lifetime self.
Proof.
  intros Hnk. destruct c as [cl f mf|cl|f|cl n mf|cl n]; simpl.
  - unfold update_data. destruct (_ && _); simpl; [|by intros [= <-]].
    intros H. by apply bind_Ok_inv in H as (d & _ & [= <-]).
  - unfold set_parent. destruct (negb _); simpl; [|by intros [= <-]].
    intros H. by apply bind_Ok_inv in H as (d & _ & [= <-]).
  - by destruct (Hnk f).
  - unfold add_monomers. intros H. by apply bind_Ok_inv in H as (d & _ & [= <-]).
  - unfold remove_monomers. intros H. by apply bind_Ok_inv in H as (d & _ & [= <-]).
Qed.

Lemma do_calls_death cs : ∀ self self',
  do_calls self cs = Ok self' →
  match last_kill cs with
  | Some d => is_dead self' = true ∧ death_frame self' = d
              ∧ lifetime self' = (d - birth_frame self)%Z
  | None => is_dead self' = is_dead self ∧ death_frame self' = death_frame self
            ∧ lifetime self' = lifetime self
  end.
Proof.
  induction cs as [|c cs IH]; intros self self' H.
  - by injection H as <-.
  - apply do_calls_cons in H as (s1 & H1 & H2).
    pose proof (do_call_effect _ _ _ H1) as (Hb & _).
    specialize (IH _ _ H2).
    destruct c as [cl f mf|cl|f|cl n mf|cl n]; simpl last_kill.
    3:{ injection H1 as <-. destruct (last_kill cs); simpl in *; [done|].
        destruct IH as (-> & -> & ->). done. }
    all: apply do_call_death in H1 as (Hd & Hf & Hl); [|done].
    all: destruct (last_kill cs); rewrite ?Hb, ?Hd, ?Hf, ?Hl in IH; done.
Qed.

(** X5. Death is decided by the last [kill]. After the constructor at
    frame [f] and any calls: if [kill] was called, the record is dead, its
    death frame [d] is that of the last [kill] (a dead record can be killed
    again) and [get_lifetime] is [d - f]; if not, the record is alive and
    both are [-1]. *)
Theorem death_is_last_kill (cluster : Cluster) (f : Z) (mf : Q) (obs : Observer)
    (self0 self : ClusterInfo) (cs : list call) :
  ClusterInfo_init cluster f mf obs = Ok self0 →
  do_calls self0 cs = Ok self →
  match last_kill cs with
  | Some d => is_dead self = true ∧ death_frame self = d
              ∧ get_lifetime self = (d - f)%Z
  | None => is_dead self = false ∧ death_frame self = (-1)%Z
            ∧ get_lifetime self = (-1)%Z
  end.
Proof.
  intros Hinit Hcalls. pose proof (do_calls_death _ _ _ Hcalls) as H.
  destruct (ClusterInfo_init_effect _ _ _ _ _ Hinit) as (Hb & Hd & _).
  unfold ClusterInfo_init in Hinit.
  apply bind_Ok_inv in Hinit as (s1 & H1 & [= <-]).
  assert (Hs1 : death_frame s1 = (-1)%Z ∧ lifetime s1 = (-1)%Z).
  { unfold update_data in H1. simpl in H1. destruct (_ && _); simpl in H1.
    - by apply bind_Ok_inv in H1 as (d & _ & [= <-]).
    - by injection H1 as <-. }
  destruct Hs1 as [Hdf Hlt]. simpl in *. unfold get_lifetime.
  destruct (last_kill cs); [by rewrite Hb in H|].
  by rewrite Hd, Hdf, Hlt in H.
Qed.

(** X6. [set_parent] acts once. A first call puts the snapshot of the given
    cluster in front of the history; when a record has a parent, a further
    call with any cluster changes nothing. Neither the frame of the last
    update nor the death of the record is touched, so a dead record still
    takes a parent. *)
Theorem set_parent_once (self self1 : ClusterInfo) (cluster cluster' : Cluster) :
  set_parent self cluster = Ok self1 →
  set_parent self1 cluster' = Ok self1
  ∧ has_parent self1 = true
  ∧ last_updated self1 = last_updated self
  ∧ is_dead self1 = is_dead self
  ∧ (has_parent self = false →
       ∃ d, compute_coordinate self cluster = Ok d
            ∧ get_data self1 = d :: get_data self).
Proof.
  unfold set_parent at 1. destruct (has_parent self) eqn:Ep; simpl.
  - intros [= <-]. unfold set_parent. rewrite Ep. simpl. by repeat split.
  - intros H. apply bind_Ok_inv in H as (d & Hd & [= <-]).
    unfold set_parent. simpl. repeat split; try done.
    intros _. by exists d.
Qed.

Lemma compute_coordinate_content_witness :
  ∃ d, compute_coordinate sample_info0 sample_cluster = Ok d
       ∧ dom d = get_observables (observer sample_info0)
       ∧ d !! "monomer_fraction" = None.
Proof.
  eexists. split; [vm_compute; reflexivity|].
  refine ((λ H, conj (proj1 H) (proj2 (proj2 (proj2 (proj2 H)))))
            (compute_coordinate_content sample_info0 sample_cluster _ _)).
  vm_compute. reflexivity.
Defined.

Lemma history_append_only_witness :
  (∃ pre post, get_data monomer_info = pre ++ get_data sample_info0 ++ post
               ∧ length pre + parent_entries sample_info0 = parent_entries monomer_info)
  ∧ (∃ gains, get_monomer_gain_data monomer_info
              = get_monomer_gain_data sample_info0 ++ gains)
  ∧ (∃ losses, get_monomer_loss_data monomer_info
               = get_monomer_loss_data sample_info0 ++ losses).
Proof.
  apply (history_append_only sample_info0 monomer_info monomer_calls).
  vm_compute. reflexivity.
Defined.

Lemma record_never_goes_back_witness :
  birth_frame sample_info = birth_frame sample_info0
  ∧ observer sample_info = observer sample_info0
  ∧ (is_dead sample_info0 = true → is_dead sample_info = true)
  ∧ (has_parent sample_info0 = true → has_parent sample_info = true)
  ∧ (last_updated sample_info0 ≤ last_updated sample_info)%Z.
Proof.
  apply (record_never_goes_back sample_info0 sample_info sample_calls).
  vm_compute. reflexivity.
Defined.

Lemma monomer_fraction_stamps_witness :
  Forall (λ d, ¬ stamped d) (take (parent_entries monomer_info) (get_data monomer_info))
  ∧ Forall stamped (drop (parent_entries monomer_info) (get_data monomer_info))
  ∧ Forall (λ e : gmap string value * Z, stamped e.1) (get_monomer_gain_data monomer_info)
  ∧ Forall (λ e : gmap string value * Z, ¬ stamped e.1)
           (get_monomer_loss_data monomer_info).
Proof.
  apply (monomer_fraction_stamps sample_cluster 0 (1 # 2) test_observer
           sample_info0 monomer_info monomer_calls); vm_compute; reflexivity.
Defined.

Lemma death_is_last_kill_witness :
  is_dead monomer_info = true ∧ death_frame monomer_info = 7%Z
  ∧ get_lifetime monomer_info = (7 - 0)%Z.
Proof.
  apply (death_is_last_kill sample_cluster 0 (1 # 2) test_observer
           sample_info0 monomer_info monomer_calls); vm_compute; reflexivity.
Defined.

Lemma set_parent_once_witness :
  ∃ self1, set_parent sample_info0 sample_cluster = Ok self1
           ∧ set_parent self1 (Cluster_init [] 3) = Ok self1
           ∧ has_parent self1 = true.
Proof.
  eexists. split; [vm_compute; reflexivity|].
  refine ((λ H, conj (proj1 H) (proj1 (proj2 H)))
            (set_parent_once sample_info0 _ sample_cluster (Cluster_init [] 3) _)).
  vm_compute. reflexivity.
Defined.

(** ** The histogram of group sizes *)

Lemma groups_of_size_cons L group G :
  groups_of_size L (group :: G)
  = (if decide (length group = L) then 1 else 0) + groups_of_size L G.
Proof. unfold groups_of_size. rewrite filter_cons. by case_decide. Qed.

Lemma count_groups_lookup G : ∀ size_dict L,
  (∀ k c, size_dict !! k = Some c → 0 < c) →
  foldl count_group size_dict G !! L
  = (let c := default 0 (size_dict !! L) + groups_of_size L G in
     if decide (c = 0) then None else Some c).
Proof.
  induction G as [|group G IH]; intros sd L Hpos; simpl.
  - unfold groups_of_size. simpl. destruct (sd !! L) as [c|] eqn:E; simpl.
    + specialize (Hpos L c E). rewrite decide_False by lia. f_equal. lia.
    + done.
  - rewrite IH.
    2:{ intros k c. unfold count_group. destruct (sd !! length group) as [c0|] eqn:E.
        - destruct (decide (k = length group)) as [->|Hne].
          + rewrite lookup_insert_eq. intros [= <-]. lia.
          + rewrite lookup_insert_ne by done. apply Hpos.
        - destruct (decide (k = length group)) as [->|Hne].
          + rewrite lookup_insert_eq. intros [= <-]. lia.
          + rewrite lookup_insert_ne by done. apply Hpos. }
    rewrite groups_of_size_cons. unfold count_group.
    destruct (decide (length group = L)) as [<-|Hne].
    + destruct (sd !! length group) as [c0|] eqn:E; rewrite lookup_insert_eq; simpl.
      * replace (c0 + 1 + groups_of_size (length group) G)
          with (c0 + (1 + groups_of_size (length group) G)) by lia. done.
      * done.
    + destruct (sd !! length group) as [c0|] eqn:E;
        rewrite lookup_insert_ne by done; done.
Qed.

Lemma size_dict_lookup (G : list (list nat)) (L : nat) :
  (get_group_sizes G).1 !! L
  = if decide (groups_of_size L G = 0) then None else Some (groups_of_size L G).
Proof.
  unfold get_group_sizes. simpl. rewrite count_groups_lookup.
  - by rewrite lookup_empty.
  - intros k c. by rewrite lookup_empty.
Qed.

Lemma groups_of_size_pos L G :
  groups_of_size L G ≠ 0 ↔ ∃ group, group ∈ G ∧ length group = L.
Proof.
  unfold groups_of_size. split.
  - intros H. destruct (filter _ G) as [|group l] eqn:E; [done|].
    assert (group ∈ filter (λ group, length group = L) G) as Hf
      by (rewrite E; left).
    apply list_elem_of_filter in Hf as [HL Hin]. by exists group.
  - intros (group & Hin & HL) H. apply length_zero_iff_nil in H.
    assert (group ∈ filter (λ group, length group = L) G) as Hf
      by (by apply list_elem_of_filter).
    rewrite H in Hf. by apply elem_of_nil in Hf.
Qed.

Lemma max_list_same_elements (l1 l2 : list nat) :
  (∀ x, x ∈ l1 ↔ x ∈ l2) → max_list l1 = max_list l2.
Proof.
  intros H. destruct l1 as [|a l1], l2 as [|b l2]; [done| | |].
  - exfalso. eapply (elem_of_nil b). apply H. left.
  - exfalso. eapply (elem_of_nil a). apply H. left.
  - apply Nat.le_antisymm.
    + apply max_list_elem_of_le, H, max_list_elem_of. done.
    + apply max_list_elem_of_le, H, max_list_elem_of. done.
Qed.

Lemma get_group_sizes_keys G L :
  L ∈ (map_to_list (get_group_sizes G).1).*1 ↔ L ∈ length <$> G.
Proof.
  rewrite list_elem_of_fmap. split.
  - intros ([L' c] & -> & Hin). apply elem_of_map_to_list in Hin. simpl.
    rewrite size_dict_lookup in Hin. case_decide as Hc; [done|].
    apply groups_of_size_pos in Hc as (group & Hg & <-).
    apply list_elem_of_fmap. by exists group.
  - intros Hin. apply list_elem_of_fmap in Hin as (group & -> & Hg).
    exists (length group, groups_of_size (length group) G). split; [done|].
    apply elem_of_map_to_list. rewrite size_dict_lookup.
    rewrite decide_False; [done|]. apply groups_of_size_pos. by exists group.
Qed.

Lemma get_group_sizes_max G :
  (get_group_sizes G).2 = max_list (length <$> G).
Proof.
  pose proof (get_group_sizes_keys G) as Hkeys.
  unfold get_group_sizes in *. simpl in *.
  destruct (0 <? size (foldl count_group ∅ G)) eqn:E.
  - by apply max_list_same_elements.
  - apply Nat.ltb_ge in E.
    assert (foldl count_group ∅ G = ∅) as Hemp by (apply map_size_empty_iff; lia).
    rewrite Hemp in Hkeys. rewrite map_to_list_empty in Hkeys.
    destruct G as [|group G]; [done|]. exfalso.
    eapply (elem_of_nil (length group)). apply Hkeys. simpl. left.
Qed.

(** X7. The dictionary [get_group_sizes] returns is the histogram of the
    sizes: a size [L] of which there is a group is a key whose value is the
    number of groups of [L] members, and no other size is a key (no key
    holds a zero count). An empty group counts under the key [0]. *)
Theorem get_group_sizes_histogram (G : list (list nat)) (L : nat) :
  (get_group_sizes G).1 !! L
  = if decide (groups_of_size L G = 0) then None else Some (groups_of_size L G).
Proof. apply size_dict_lookup. Qed.

(** X8. The second component of [get_group_sizes] is the size of a largest
    group: no group has more members, some group has exactly that many, and
    it is [0] when there is no group at all. *)
Theorem get_group_sizes_largest (G : list (list nat)) :
  let largest_group_size := (get_group_sizes G).2 in
  (∀ group, group ∈ G → length group ≤ largest_group_size)
  ∧ (G ≠ [] → ∃ group, group ∈ G ∧ length group = largest_group_size)
  ∧ (G = [] → largest_group_size = 0).
Proof.
  cbv zeta. rewrite get_group_sizes_max. split; [|split].
  - intros group Hin. apply max_list_elem_of_le, list_elem_of_fmap. by exists group.
  - intros Hne. assert (length <$> G ≠ []) as Hne' by (by destruct G).
    apply max_list_elem_of in Hne'. apply list_elem_of_fmap in Hne' as (group & -> & Hin).
    by exists group.
  - by intros ->.
Qed.

Lemma count_group_totals size_dict group :
  total_groups (count_group size_dict group) = total_groups size_dict + 1
  ∧ total_members (count_group size_dict group)
    = total_members size_dict + length group.
Proof.
  unfold total_groups, total_members, count_group.
  destruct (size_dict !! length group) as [c|] eqn:E.
  - rewrite <- (insert_delete_eq size_dict).
    rewrite map_to_list_insert by apply lookup_delete_eq.
    rewrite <- (map_to_list_delete _ _ _ E). simpl. lia.
  - rewrite map_to_list_insert by done. simpl. lia.
Qed.

Lemma count_groups_totals G : ∀ size_dict,
  total_groups (foldl count_group size_dict G) = total_groups size_dict + length G
  ∧ total_members (foldl count_group size_dict G)
    = total_members size_dict + length (concat G).
Proof.
  induction G as [|group G IH]; intros sd; simpl.
  - lia.
  - destruct (IH (count_group sd group)) as [-> ->].
    destruct (count_group_totals sd group) as [-> ->].
    rewrite length_app. lia.
Qed.

Lemma size_dict_totals (G : list (list nat)) :
  total_groups (get_group_sizes G).1 = length G
  ∧ total_members (get_group_sizes G).1 = length (concat G).
Proof.
  unfold get_group_sizes. simpl.
  destruct (count_groups_totals G ∅) as [-> ->].
  unfold total_groups, total_members. by rewrite map_to_list_empty.
Qed.

(** X9. The histogram loses no group and no member: its counts add up to
    the number of groups, and its counts weighted by their sizes add up to
    the number of members of all groups together. *)
Theorem get_group_sizes_totals (G : list (list nat)) :
  total_groups (get_group_sizes G).1 = length G
  ∧ total_members (get_group_sizes G).1 = length (concat G).
Proof.
  apply size_dict_totals.
Qed.

Lemma elem_of_concat (x : nat) (G : list (list nat)) :
  x ∈ concat G ↔ ∃ l, x ∈ l ∧ l ∈ G.
Proof.
  induction G as [|g G IH]; simpl.
  - split; [by intros ?%elem_of_nil|]. by intros (l & _ & ?%elem_of_nil).
  - rewrite elem_of_app, IH. split.
    + intros [H|(l & Hx & Hl)]; [exists g; split; [done|left]|].
      exists l. split; [done|by right].
    + intros (l & Hx & Hl). apply elem_of_cons in Hl as [->|Hl]; [by left|].
      right. by exists l.
Qed.

Lemma partition_concat_NoDup (G : list (list nat)) :
  (∀ grp, grp ∈ G → NoDup grp) →
  (∀ a b ga gb i,
      G !! a = Some ga → G !! b = Some gb → i ∈ ga → i ∈ gb → a = b) →
  NoDup (concat G).
Proof.
  induction G as [|g G IH]; intros Hnd Hdis; simpl; [constructor|].
  apply NoDup_app. split; [apply Hnd; left|]. split.
  - intros x Hx Hin. apply elem_of_concat in Hin as (grp & Hxg & Hg).
    apply list_elem_of_lookup in Hg as [b Hb].
    specialize (Hdis 0 (S b) g grp x eq_refl Hb Hx Hxg). done.
  - apply IH.
    + intros grp Hg. apply Hnd. by right.
    + intros a b ga gb i Ha Hb Hia Hib.
      specialize (Hdis (S a) (S b) ga gb i Ha Hb Hia Hib). lia.
Qed.

Lemma partition_members bond_dict G :
  is_partition bond_dict G → length (concat G) = size bond_dict.
Proof.
  intros [Hcov Hdis Hnd _ _].
  transitivity (length (seq 0 (size bond_dict))); [|apply length_seq].
  apply Permutation_length, NoDup_Permutation.
  - by apply partition_concat_NoDup.
  - apply NoDup_seq.
  - intros i. rewrite elem_of_seq, elem_of_concat.
    specialize (Hcov i). split.
    + intros (grp & Hi & Hg). assert (i < size bond_dict); [|lia].
      apply Hcov. by exists grp.
    + intros [_ Hi]. apply Hcov in Hi as (grp & Hg & Hi). by exists grp.
Qed.

(** X10. [get_group_sizes] after [get_groups]: for a bond dictionary with
    the keys [0 .. N-1], [N >= 1], a symmetric adjacency and no body bonded
    to itself, the histogram of the groups accounts for each of the [N]
    bodies once, and the largest group has at most [N] members. *)
Theorem group_sizes_of_bond_dict (bond_dict : gmap nat (list nat)) :
  1 ≤ size bond_dict →
  keys_are_range bond_dict →
  symmetric_bonds bond_dict →
  no_self_bond bond_dict →
  ∃ G, get_groups bond_dict = Ok G
    ∧ total_members (get_group_sizes G).1 = size bond_dict
    ∧ (get_group_sizes G).2 ≤ size bond_dict.
Proof.
  intros HN Hkeys Hsym Hirr.
  destruct (get_groups_partition bond_dict Hkeys Hsym Hirr HN) as (G & Hrun & Hpart).
  exists G. split; [done|].
  pose proof (partition_members _ _ Hpart) as Hlen.
  split.
  - destruct (size_dict_totals G) as [_ ->]. done.
  - rewrite get_group_sizes_max.
    destruct (decide (G = [])) as [->|Hne]; [simpl; lia|].
    assert (length <$> G ≠ []) as Hne' by (by destruct G).
    apply max_list_elem_of in Hne'.
    apply list_elem_of_fmap in Hne' as (group & -> & Hin).
    rewrite <- Hlen. clear -Hin.
    induction Hin as [group G|group g G Hin IH]; simpl; rewrite length_app; lia.
Qed.

Lemma group_sizes_of_bond_dict_witness :
  ∃ G, get_groups sample_bonds = Ok G
    ∧ total_members (get_group_sizes G).1 = size sample_bonds
    ∧ (get_group_sizes G).2 ≤ size sample_bonds.
Proof.
  apply (group_sizes_of_bond_dict sample_bonds).
  - vm_compute. lia.
  - apply keys_are_range_b_true. vm_compute. reflexivity.
  - apply symmetric_bonds_b_true. vm_compute. reflexivity.
  - apply no_self_bond_b_true. vm_compute. reflexivity.
Defined.

(** ** Connected components: the order of the result *)

Lemma where_unassigned_first a : ∀ from u rest,
  where_unassigned from a = u :: rest →
  from ≤ u ∧ ∀ i, from ≤ i < u → ∃ v, a !! (i - from) = Some v ∧ v ≠ (-1)%Z.
Proof.
  induction a as [|v a IH]; intros from u rest; simpl; [done|].
  destruct (v =? -1)%Z eqn:E.
  - intros [= <- _]. split; [lia|]. intros i Hi. lia.
  - apply Z.eqb_neq in E. intros H. apply IH in H as [Hle Hlt]. split; [lia|].
    intros i Hi. destruct (decide (i = from)) as [->|Hne].
    + rewrite Nat.sub_diag. by exists v.
    + destruct (Hlt i) as (w & Hw & Hw'); [lia|]. exists w. split; [|done].
      replace (i - from) with (S (i - S from)) by lia. done.
Qed.

Section get_groups_order.

Variable bond_dict : gmap nat (list nat).

Lemma groups_ord_append tg G0 n grp bod m :
  groups_ord bond_dict tg G0 → G0 !! n = Some grp → bod ∈ grp →
  bonded bond_dict bod m →
  groups_ord bond_dict (<[m := Z.of_nat n]> tg) (<[n := grp ++ [m]]> G0).
Proof.
  intros [Ha Hh Hb] Hn Hbod Hbm.
  assert (Hlt : n < length G0) by (by eapply lookup_lt_Some).
  assert (Hmono : ∀ a g x, G0 !! a = Some g → x ∈ g →
            ∃ g', <[n := grp ++ [m]]> G0 !! a = Some g' ∧ x ∈ g').
  { intros a g x Hg Hx. destruct (decide (a = n)) as [->|Hne].
    - exists (grp ++ [m]). rewrite list_lookup_insert_eq by done.
      split; [done|]. rewrite Hn in Hg. injection Hg as <-. set_solver.
    - exists g. by rewrite list_lookup_insert_ne. }
  constructor.
  - intros x v Hx Hv. destruct (decide (x = m)) as [->|Hne].
    + destruct (decide (m < length tg)) as [Hm|Hm].
      * rewrite list_lookup_insert_eq in Hx by done. injection Hx as <-.
        exists n, (grp ++ [m]). rewrite list_lookup_insert_eq by done.
        split; [done|]. split; [done|set_solver].
      * rewrite list_insert_ge in Hx by lia.
        destruct (Ha _ _ Hx Hv) as (n0 & g0 & -> & Hg0 & Hx0).
        destruct (Hmono _ _ _ Hg0 Hx0) as (g' & Hg' & Hx').
        by exists n0, g'.
    + rewrite list_lookup_insert_ne in Hx by done.
      destruct (Ha _ _ Hx Hv) as (n0 & g0 & -> & Hg0 & Hx0).
      destruct (Hmono _ _ _ Hg0 Hx0) as (g' & Hg' & Hx').
      by exists n0, g'.
  - intros a g Hg.
    assert (Hold : ∃ g0, G0 !! a = Some g0 ∧ ∃ tl, g = g0 ++ tl).
    { destruct (decide (a = n)) as [->|Hne].
      - rewrite list_lookup_insert_eq in Hg by done. injection Hg as <-.
        exists grp. split; [done|]. by exists [m].
      - rewrite list_lookup_insert_ne in Hg by done.
        exists g. split; [done|]. exists []. by rewrite app_nil_r. }
    destruct Hold as (g0 & Hg0 & tl & ->).
    destruct (Hh _ _ Hg0) as (h & rest & -> & Hsm).
    exists h, (rest ++ tl). split; [done|]. intros i Hi.
    destruct (Hsm i Hi) as (a' & g' & Ha' & Hg' & Hi').
    destruct (Hmono _ _ _ Hg' Hi') as (g'' & Hg'' & Hi'').
    by exists a', g''.
  - intros a g j x Hg Hj. destruct (decide (a = n)) as [->|Hne].
    + rewrite list_lookup_insert_eq in Hg by done. injection Hg as <-.
      destruct (decide (S j < length grp)) as [Hin|Hout].
      * rewrite lookup_app_l in Hj by done.
        destruct (Hb _ _ _ _ Hn Hj) as (i & b & Hi & Hib & Hbx).
        exists i, b. split; [done|]. split; [|done].
        by apply lookup_app_l_Some.
      * assert (HSj : S j = length grp).
        { apply lookup_lt_Some in Hj. rewrite length_app in Hj. simpl in Hj. lia. }
        rewrite HSj, list_lookup_middle in Hj by done. injection Hj as <-.
        apply list_elem_of_lookup in Hbod as [i Hi].
        exists i, bod. split; [apply lookup_lt_Some in Hi; lia|].
        split; [by apply lookup_app_l_Some|done].
    + rewrite list_lookup_insert_ne in Hg by done. by eapply Hb.
Qed.

Lemma groups_ord_new tg G0 u rest :
  groups_ord bond_dict tg G0 → where_unassigned 0 tg = u :: rest →
  groups_ord bond_dict (<[u := (Z.of_nat (length (G0 ++ [[u]])) - 1)%Z]> tg)
             (G0 ++ [[u]]).
Proof.
  intros [Ha Hh Hb] Hu.
  replace (Z.of_nat (length (G0 ++ [[u]])) - 1)%Z with (Z.of_nat (length G0))
    by (rewrite length_app; simpl; lia).
  assert (Hult : u < length tg).
  { assert (Hin : u ∈ where_unassigned 0 tg) by (rewrite Hu; left).
    apply elem_of_where_unassigned in Hin as (i & -> & Hi).
    by apply lookup_lt_Some in Hi. }
  apply where_unassigned_first in Hu as [_ Hfirst].
  constructor.
  - intros x v Hx Hv. destruct (decide (x = u)) as [->|Hne].
    + rewrite list_lookup_insert_eq in Hx by done. injection Hx as <-.
      exists (length G0), [u]. split; [done|].
      split; [by rewrite list_lookup_middle|set_solver].
    + rewrite list_lookup_insert_ne in Hx by done.
      destruct (Ha _ _ Hx Hv) as (n0 & g0 & -> & Hg0 & Hx0).
      exists n0, g0. split; [done|]. split; [by apply lookup_app_l_Some|done].
  - intros a g Hg. destruct (decide (a < length G0)) as [Hlt|Hge].
    + rewrite lookup_app_l in Hg by done.
      destruct (Hh _ _ Hg) as (h & tl & -> & Hsm).
      exists h, tl. split; [done|]. intros i Hi.
      destruct (Hsm i Hi) as (a' & g' & Ha' & Hg' & Hi').
      exists a', g'. split; [done|]. split; [by apply lookup_app_l_Some|done].
    + assert (a = length G0) as ->.
      { apply lookup_lt_Some in Hg. rewrite length_app in Hg. simpl in Hg. lia. }
      rewrite list_lookup_middle in Hg by done. injection Hg as <-.
      exists u, []. split; [done|]. intros i Hi.
      destruct (Hfirst i) as (v & Hv & Hv'); [lia|].
      rewrite Nat.sub_0_r in Hv.
      destruct (Ha _ _ Hv Hv') as (n0 & g0 & _ & Hg0 & Hx0).
      exists n0, g0. split; [by eapply lookup_lt_Some|].
      split; [by apply lookup_app_l_Some|done].
  - intros a g j x Hg Hj. destruct (decide (a < length G0)) as [Hlt|Hge].
    + rewrite lookup_app_l in Hg by done. by eapply Hb.
    + assert (a = length G0) as ->.
      { apply lookup_lt_Some in Hg. rewrite length_app in Hg. simpl in Hg. lia. }
      rewrite list_lookup_middle in Hg by done. by injection Hg as <-.
Qed.

Lemma visit_member_ord bod n m st st' :
  groups_ord bond_dict (to_group st) (G st) →
  (∃ grp, G st !! n = Some grp ∧ bod ∈ grp) →
  bonded bond_dict bod m →
  visit_member (Z.of_nat n) st m = Ok st' →
  groups_ord bond_dict (to_group st') (G st')
  ∧ ∃ grp, G st' !! n = Some grp ∧ bod ∈ grp.
Proof.
  intros Hord (grp & Hn & Hbod) Hbm. unfold visit_member.
  rewrite (py_get_nat _ _ _ Hn). simpl.
  assert (Hlt : n < length (G st)) by (by eapply lookup_lt_Some).
  destruct (bool_decide (m ∈ grp)) eqn:Em; simpl.
  - destruct (_ && _); intros [= <-]; simpl; (split; [done|eauto]).
  - unfold group_append. rewrite py_index_nat by done. rewrite Hn. simpl.
    unfold np_set. destruct (decide (m < length (to_group st))) as [Hm|Hm]; simpl; [|done].
    destruct (_ && _); intros [= <-]; simpl.
    all: split; [by eapply groups_ord_append|].
    all: exists (grp ++ [m]); rewrite list_lookup_insert_eq by done.
    all: split; [done|set_solver].
Qed.

Lemma visit_members_ord bod n l : ∀ st st',
  groups_ord bond_dict (to_group st) (G st) →
  (∃ grp, G st !! n = Some grp ∧ bod ∈ grp) →
  (∀ m, m ∈ l → bonded bond_dict bod m) →
  for_each (visit_member (Z.of_nat n)) l st = Ok st' →
  groups_ord bond_dict (to_group st') (G st').
Proof.
  induction l as [|m l IH]; intros st st' Hord Hbod Hl H.
  - by injection H as <-.
  - simpl in H. apply bind_Ok_inv in H as (st1 & H1 & H2).
    destruct (visit_member_ord bod n m st st1 Hord Hbod) as [Hord1 Hbod1];
      [apply Hl; set_solver|done|].
    apply (IH st1 st' Hord1 Hbod1); [|done]. intros; apply Hl; set_solver.
Qed.

Lemma start_new_group_ord total st st' :
  groups_ord bond_dict (to_group st) (G st) →
  start_new_group total st = Ok st' →
  groups_ord bond_dict (to_group st') (G st').
Proof.
  intros Hord. unfold start_new_group.
  destruct (_ && _); [|by intros [= <-]].
  destruct (where_unassigned 0 (to_group st)) as [|u rest] eqn:Eu; [done|].
  unfold np_set. case_decide; [simpl|done]. intros [= <-]. simpl.
  by eapply groups_ord_new.
Qed.

Lemma groups_step_ord total bod st st' :
  groups_ord bond_dict (to_group st) (G st) →
  (∃ v, to_group st !! bod = Some v ∧ v ≠ (-1)%Z) →
  groups_step bond_dict total bod st = Ok st' →
  groups_ord bond_dict (to_group st') (G st').
Proof.
  intros Hord (v & Hv & Hv'). unfold groups_step, np_get. rewrite Hv. simpl.
  destruct (bond_dict !! bod) as [l|] eqn:El; [simpl|done].
  intros H. apply bind_Ok_inv in H as (st1 & H1 & H2).
  destruct (ord_assigned _ _ _ Hord _ _ Hv Hv') as (n & grp & -> & Hn & Hbod).
  apply (start_new_group_ord _ _ _) in H2; [done|]. simpl.
  apply (visit_members_ord bod n l st st1 Hord); [eauto| |done].
  intros m Hm. by exists l.
Qed.

Lemma groups_loop_ord fuel : ∀ st groups,
  groups_wf bond_dict 2 [] st →
  queue st ≠ [] ∨ length (searched st) = size bond_dict →
  groups_ord bond_dict (to_group st) (G st) →
  groups_loop fuel bond_dict (size bond_dict) st = Ok groups →
  ∃ tg, groups_ord bond_dict tg groups.
Proof.
  induction fuel as [|fuel IH]; intros st groups Hwf Hq Hord; simpl;
    destruct (queue st) as [|bod rest] eqn:Eq; try done.
  - intros [= <-]. by exists (to_group st).
  - intros [= <-]. by exists (to_group st).
  - intros H. apply bind_Ok_inv in H as (st1 & H1 & H2).
    assert (Hpop : groups_wf bond_dict 2 [bod]
              {| to_group := to_group st; G := G st; queue := rest;
                 searched := searched st |}).
    { destruct Hwf. rewrite Eq in *. by constructor. }
    destruct (groups_step_wf bond_dict 2 (le_S _ _ (le_n 1)) bod _ st1
                (or_intror (le_n 2)) Hpop H1) as (Hwf1 & _ & Hq1).
    apply (IH st1 groups Hwf1 Hq1); [|done].
    eapply groups_step_ord; [| |exact H1]; [done|]. simpl.
    destruct (wf_listed _ _ _ _ Hpop bod) as (grp & Hg & Hx); [set_solver|].
    by apply (wf_member_assigned _ _ _ _ Hpop grp bod).
Qed.

Lemma get_groups_ord groups :
  get_groups bond_dict = Ok groups → ∃ tg, groups_ord bond_dict tg groups.
Proof.
  unfold get_groups. intros H.
  apply bind_Ok_inv in H as (tg & Hset & H).
  apply np_set_Ok_inv in Hset as [HN ->]. rewrite length_replicate in HN.
  eapply (groups_loop_ord _ _ groups); [| | |exact H].
  - apply groups_init_wf; lia.
  - by left.
  - simpl. constructor.
    + intros x v Hx Hv. destruct (decide (x = 0)) as [->|Hne].
      * rewrite list_lookup_insert_eq in Hx by (rewrite length_replicate; lia).
        injection Hx as <-. exists 0, [0]. split; [done|]. split; [done|set_solver].
      * rewrite list_lookup_insert_ne in Hx by done.
        apply lookup_replicate in Hx as [-> _]. done.
    + intros [|a] grp Hg; [|done]. injection Hg as <-.
      exists 0, []. split; [done|]. intros i Hi. lia.
    + intros [|a] grp j m Hg; [|done]. by injection Hg as <-.
Qed.

End get_groups_order.

(** X11. The order of discovery. Whatever the bond dictionary, if
    [get_groups] returns then the first group starts with body 0; no group
    is empty; a group starts with a body such that every smaller body is in
    an earlier group; and every other member of a group is bonded from a
    member listed before it in the same group. *)
Theorem get_groups_discovery_order (bond_dict : gmap nat (list nat))
    (groups : list (list nat)) :
  get_groups bond_dict = Ok groups →
  (∃ rest, groups !! 0 = Some (0 :: rest))
  ∧ (∀ a grp, groups !! a = Some grp →
       ∃ h rest, grp = h :: rest
         ∧ ∀ i, i < h → ∃ a' grp', a' < a ∧ groups !! a' = Some grp' ∧ i ∈ grp')
  ∧ (∀ a grp j m, groups !! a = Some grp → grp !! S j = Some m →
       ∃ i b, i ≤ j ∧ grp !! i = Some b ∧ bonded bond_dict b m).
Proof.
  intros H. pose proof (get_groups_ord _ _ H) as (tg & [_ Hh Hb]).
  split; [|split; [exact Hh|exact Hb]].
  assert (Hne : groups ≠ []).
  { unfold get_groups in H. apply bind_Ok_inv in H as (tg0 & Hset & H).
    apply np_set_Ok_inv in Hset as [HN ->]. rewrite length_replicate in HN.
    apply (groups_loop_wf bond_dict 2) in H as (st & -> & Hwf & _);
      [|lia|by right|apply groups_init_wf; lia|by left].
    apply (wf_groups _ _ _ _ Hwf). }
  destruct groups as [|grp groups]; [done|].
  destruct (Hh 0 grp eq_refl) as (h & rest & -> & Hsm).
  exists rest. destruct h as [|h]; [done|].
  destruct (Hsm 0) as (a' & _ & Ha' & _); lia.
Qed.

Lemma get_groups_discovery_order_witness :
  let groups := [[0; 1; 2]; [3; 4]; [5]] in
  (∃ rest, groups !! 0 = Some (0 :: rest))
  ∧ (∀ a grp, groups !! a = Some grp →
       ∃ h rest, grp = h :: rest
         ∧ ∀ i, i < h → ∃ a' grp', a' < a ∧ groups !! a' = Some grp' ∧ i ∈ grp')
  ∧ (∀ a grp j m, groups !! a = Some grp → grp !! S j = Some m →
       ∃ i b, i ≤ j ∧ grp !! i = Some b ∧ bonded sample_bonds b m).
Proof.
  apply (get_groups_discovery_order sample_bonds [[0; 1; 2]; [3; 4]; [5]]).
  vm_compute. reflexivity.
Defined.

(** X12. The canonical order of the partition. For a bond dictionary with
    the keys [0 .. N-1], [N >= 1], a symmetric adjacency and no body bonded
    to itself, [get_groups] lists each group with its smallest body first,
    and the groups by increasing smallest body. *)
Theorem get_groups_canonical_order (bond_dict : gmap nat (list nat)) :
  1 ≤ size bond_dict →
  keys_are_range bond_dict →
  symmetric_bonds bond_dict →
  no_self_bond bond_dict →
  ∃ groups, get_groups bond_dict = Ok groups
    ∧ (∀ grp, grp ∈ groups → ∃ h rest, grp = h :: rest ∧ ∀ x, x ∈ grp → h ≤ x)
    ∧ (∀ a b ha hb ra rb, a < b →
         groups !! a = Some (ha :: ra) → groups !! b = Some (hb :: rb) → ha < hb).
Proof.
  intros HN Hkeys Hsym Hirr.
  destruct (get_groups_partition bond_dict Hkeys Hsym Hirr HN) as (groups & Hrun & Hpart).
  exists groups. split; [done|].
  pose proof (get_groups_ord _ _ Hrun) as (tg & [_ Hh _]).
  pose proof (part_disjoint _ _ Hpart) as Hdis.
  split.
  - intros grp Hg. apply list_elem_of_lookup in Hg as [a Ha].
    destruct (Hh a grp Ha) as (h & rest & -> & Hsm).
    exists h, rest. split; [done|]. intros x Hx.
    destruct (decide (h ≤ x)) as [|Hlt]; [done|]. exfalso.
    destruct (Hsm x) as (a' & g' & Ha' & Hg' & Hx'); [lia|].
    specialize (Hdis a' a g' (h :: rest) x Hg' Ha Hx' Hx). lia.
  - intros a b ha hb ra rb Hab Ha Hb.
    destruct (Hh b _ Hb) as (h & rest & [= <- <-] & Hsm).
    destruct (decide (ha < hb)) as [|Hge]; [done|]. exfalso.
    destruct (decide (ha = hb)) as [->|Hne].
    + assert (a = b); [|lia].
      apply (Hdis a b _ _ hb Ha Hb); set_solver.
    + destruct (Hh a _ Ha) as (h' & rest' & [= <- <-] & Hsm').
      destruct (Hsm' hb) as (a' & g' & Ha' & Hg' & Hx'); [lia|].
      assert (a' = b); [|lia].
      apply (Hdis a' b g' (hb :: rb) hb Hg' Hb Hx'). set_solver.
Qed.

Lemma get_groups_canonical_order_witness :
  ∃ groups, get_groups sample_bonds = Ok groups
    ∧ (∀ grp, grp ∈ groups → ∃ h rest, grp = h :: rest ∧ ∀ x, x ∈ grp → h ≤ x)
    ∧ (∀ a b ha hb ra rb, a < b →
         groups !! a = Some (ha :: ra) → groups !! b = Some (hb :: rb) → ha < hb).
Proof.
  apply (get_groups_canonical_order sample_bonds).
  - vm_compute. lia.
  - apply keys_are_range_b_true. vm_compute. reflexivity.
  - apply symmetric_bonds_b_true. vm_compute. reflexivity.
  - apply no_self_bond_b_true. vm_compute. reflexivity.
Defined.

(** ** Connected components: how [get_groups] can end *)

Lemma for_each_Raise_inv {S X} (f : S → X → result S) (P : exn → Prop) (l : list X) :
  (∀ s x e, f s x = Raise e → P e) →
  ∀ st e, for_each f l st = Raise e → P e.
Proof.
  intros Hf. induction l as [|x l IH]; intros st e; simpl; [done|].
  destruct (f st x) as [s|e'|] eqn:E; simpl; [apply IH| |done].
  intros [= <-]. by eapply Hf.
Qed.

Lemma visit_member_Raise_inv gn st m e :
  visit_member gn st m = Raise e → e = IndexError.
Proof.
  unfold visit_member, py_get, group_append, np_set.
  destruct (py_index _ _) as [n|]; simpl; [|by intros [= <-]].
  destruct (G st !! n) as [grp|]; simpl; [|by intros [= <-]].
  destruct (bool_decide (m ∈ grp)); simpl.
  - by destruct (_ && _).
  - destruct (decide (m < length (to_group st))); simpl; [|by intros [= <-]].
    by destruct (_ && _).
Qed.

Lemma groups_step_Raise_inv bond_dict total bod st e :
  groups_step bond_dict total bod st = Raise e → e = IndexError ∨ e = KeyError.
Proof.
  unfold groups_step, np_get.
  destruct (to_group st !! bod) as [gn|]; simpl; [|intros [= <-]; by left].
  destruct (bond_dict !! bod) as [l|]; simpl; [|intros [= <-]; by right].
  destruct (for_each (visit_member gn) l st) as [st1|e'|] eqn:E; simpl; [| |done].
  - unfold start_new_group. destruct (_ && _); [|done].
    destruct (where_unassigned _ _); [intros [= <-]; by left|]. unfold np_set.
    case_decide; simpl; [done|]. intros [= <-]. by left.
  - intros [= <-]. left.
    eapply (for_each_Raise_inv (visit_member gn) (λ e, e = IndexError)); [|exact E].
    intros s x e0. apply visit_member_Raise_inv.
Qed.

Lemma groups_loop_Raise_inv bond_dict total fuel : ∀ st e,
  groups_loop fuel bond_dict total st = Raise e → e = IndexError ∨ e = KeyError.
Proof.
  induction fuel as [|fuel IH]; intros st e; simpl;
    destruct (queue st) as [|bod rest]; try done.
  destruct (groups_step _ _ _ _) as [st1|e'|] eqn:E; simpl; [apply IH| |done].
  intros [= <-]. by eapply groups_step_Raise_inv.
Qed.

(** X13. How [get_groups] can end. Whatever the bond dictionary is, and it
    need not be symmetric, free of self-bonds or keyed by [0 .. N-1], the
    [while] loop ends, and [get_groups] returns a list of groups or raises
    an [IndexError] or a [KeyError]; it raises nothing else. *)
Theorem get_groups_halts (bond_dict : gmap nat (list nat)) :
  (∃ groups, get_groups bond_dict = Ok groups)
  ∨ get_groups bond_dict = Raise IndexError
  ∨ get_groups bond_dict = Raise KeyError.
Proof.
  pose proof (get_groups_terminates bond_dict) as Hfuel.
  destruct (get_groups bond_dict) as [groups|e|] eqn:E; [left; by exists groups| |done].
  right. unfold get_groups, np_set in E. rewrite length_replicate in E.
  case_decide; simpl in E; [|left; congruence].
  apply groups_loop_Raise_inv in E as [->| ->]; [by left|by right].
Qed.

(** ** Connected components: dictionaries that are not symmetric *)

Lemma bonds_in_range_b_true bond_dict :
  bonds_in_range_b bond_dict = true → bonds_in_range bond_dict.
Proof.
  unfold bonds_in_range_b. rewrite forallb_forall.
  intros H i j (l & Hl & Hj).
  specialize (H (i, l)). rewrite forallb_forall in H.
  apply Nat.ltb_lt. apply H.
  - apply list_elem_of_In. by apply elem_of_map_to_list.
  - by apply list_elem_of_In.
Qed.

Lemma visit_member_listed gn bod m st st' :
  assigned_listed [bod] st → visit_member gn st m = Ok st' →
  assigned_listed [bod] st'.
Proof.
  intros Hal. unfold visit_member.
  destruct (py_get (G st) gn) as [grp| |]; [simpl|done..].
  assert (Henq : ∀ st1 st2,
            (∀ x v, to_group st1 !! x = Some v → v ≠ (-1)%Z →
                    x = m ∨ x ∈ [bod] ++ queue st1 ++ searched st1) →
            (if bool_decide (m ∉ searched st1) && bool_decide (m ∉ queue st1)
             then Ok {| to_group := to_group st1; G := G st1;
                        queue := queue st1 ++ [m]; searched := searched st1 |}
             else Ok st1) = Ok st2 →
            assigned_listed [bod] st2).
  { intros st1 st2 H1.
    destruct (bool_decide (m ∉ searched st1)) eqn:E1; simpl.
    - destruct (bool_decide (m ∉ queue st1)) eqn:E2; simpl; intros [= <-].
      + intros x v Hx Hv. simpl in *. destruct (H1 x v Hx Hv); set_solver.
      + apply bool_decide_eq_false in E2. apply dec_stable in E2.
        intros x v Hx Hv. destruct (H1 x v Hx Hv) as [->|?]; set_solver.
    - intros [= <-]. apply bool_decide_eq_false in E1. apply dec_stable in E1.
      intros x v Hx Hv. destruct (H1 x v Hx Hv) as [->|?]; set_solver. }
  destruct (bool_decide (m ∈ grp)); simpl.
  - apply Henq. intros x v Hx Hv. right. by eapply Hal.
  - destruct (group_append (G st) gn m) as [G'| |]; [simpl|done..].
    destruct (np_set (to_group st) m gn) as [tg'| |] eqn:Es; [simpl|done..].
    apply np_set_Ok_inv in Es as [Hm ->]. intros H.
    apply (Henq {| to_group := <[m := gn]> (to_group st); G := G';
                   queue := queue st; searched := searched st |} st'); [|exact H].
    simpl. intros x v Hx Hv.
    destruct (decide (x = m)) as [->|Hne]; [by left|right].
    rewrite list_lookup_insert_ne in Hx by done. by eapply Hal.
Qed.

Lemma visit_members_listed gn bod l : ∀ st st',
  assigned_listed [bod] st → for_each (visit_member gn) l st = Ok st' →
  assigned_listed [bod] st'.
Proof.
  induction l as [|m l IH]; intros st st' Hal H.
  - by injection H as <-.
  - simpl in H. apply bind_Ok_inv in H as (st1 & H1 & H2).
    eapply IH; [|exact H2]. by eapply visit_member_listed.
Qed.

Lemma start_new_group_listed total st st' :
  assigned_listed [] st → start_new_group total st = Ok st' →
  assigned_listed [] st'.
Proof.
  intros Hal. unfold start_new_group.
  destruct (_ && _); [|by intros [= <-]].
  destruct (where_unassigned 0 (to_group st)) as [|u rest]; [done|].
  unfold np_set. case_decide; [simpl|done]. intros [= <-]. simpl.
  intros x v Hx Hv. simpl in *. destruct (decide (x = u)) as [->|Hne]; [set_solver|].
  rewrite list_lookup_insert_ne in Hx by done.
  specialize (Hal x v Hx Hv). set_solver.
Qed.

Lemma groups_step_listed bond_dict total bod st st' :
  assigned_listed [bod] st → groups_step bond_dict total bod st = Ok st' →
  assigned_listed [] st'.
Proof.
  intros Hal. unfold groups_step, np_get.
  destruct (to_group st !! bod) as [gn|]; [simpl|done].
  destruct (bond_dict !! bod) as [l|]; [simpl|done].
  intros H. apply bind_Ok_inv in H as (st1 & H1 & H2).
  eapply start_new_group_listed; [|exact H2].
  pose proof (visit_members_listed _ _ _ _ _ Hal H1) as Hal1.
  intros x v Hx Hv. simpl in *. specialize (Hal1 x v Hx Hv). set_solver.
Qed.

Section get_groups_one_way.

Variable bond_dict : gmap nat (list nat).
Hypothesis Hkeys : keys_are_range bond_dict.
Hypothesis Hirr : no_self_bond bond_dict.
Hypothesis Hrange : bonds_in_range bond_dict.

Lemma visit_member_returns n grp m st :
  G st !! n = Some grp → m < length (to_group st) →
  ∃ st', visit_member (Z.of_nat n) st m = Ok st'.
Proof using Hkeys Hirr Hrange.
  intros Hn Hm. unfold visit_member. rewrite (py_get_nat _ _ _ Hn). simpl.
  destruct (bool_decide (m ∈ grp)); simpl.
  - destruct (_ && _); by eexists.
  - unfold group_append. rewrite py_index_nat by (by eapply lookup_lt_Some).
    rewrite Hn. simpl. unfold np_set. rewrite decide_True by done. simpl.
    destruct (_ && _); by eexists.
Qed.

Lemma visit_members_returns bod n l : ∀ st,
  groups_wf bond_dict 1 [bod] st →
  groups_ord bond_dict (to_group st) (G st) →
  (∃ grp, G st !! n = Some grp ∧ bod ∈ grp) →
  (∀ m, m ∈ l → bonded bond_dict bod m) →
  ∃ st', for_each (visit_member (Z.of_nat n)) l st = Ok st'.
Proof using Hkeys Hirr Hrange.
  induction l as [|m l IH]; intros st Hwf Hord Hbod Hl; [by eexists|].
  simpl. destruct Hbod as (grp & Hn & Hbod).
  assert (Hbm : bonded bond_dict bod m) by (apply Hl; set_solver).
  destruct (visit_member_returns n grp m st Hn) as [st1 H1].
  { rewrite (wf_length _ _ _ _ Hwf). by eapply Hrange. }
  rewrite H1. simpl.
  destruct (visit_member_wf bond_dict 1 (le_n 1) (Z.of_nat n) bod m st st1 Hwf)
    as [Hwf1 _]; [lia| |done|].
  { intros ->. by destruct (Hirr bod). }
  destruct (visit_member_ord bond_dict bod n m st st1 Hord) as [Hord1 Hbod1];
    [eauto|done|done|].
  apply IH; try done. intros; apply Hl; set_solver.
Qed.

Lemma wf_searched_append bod l st :
  groups_wf bond_dict 1 [bod] st → bond_dict !! bod = Some l →
  groups_wf bond_dict 1 []
    {| to_group := to_group st; G := G st; queue := queue st;
       searched := searched st ++ [bod] |}.
Proof using Hkeys Hirr Hrange.
  intros Hwf Hl. destruct Hwf as [Hlen Hne Hma Hli Hwe Hsk].
  constructor; simpl; try done.
  - intros x Hx. apply Hli. set_solver.
  - assert (Hp : queue st ++ searched st ++ [bod]
                 ≡ₚ [bod] ++ queue st ++ searched st).
    { rewrite app_assoc. by rewrite <- Permutation_cons_append. }
    intros x. rewrite (occurrences_perm x _ _ Hp). apply Hwe.
  - intros x [Hx| ->%list_elem_of_singleton]%elem_of_app;
      [by apply Hsk|by eexists].
Qed.

Lemma start_new_group_returns st :
  groups_wf bond_dict 1 [] st → assigned_listed [] st →
  ∃ st', start_new_group (size bond_dict) st = Ok st'.
Proof using Hkeys Hirr Hrange.
  intros Hwf Hal. unfold start_new_group.
  destruct (bool_decide (length (queue st) = 0)) eqn:Eq; simpl; [|by eexists].
  destruct (bool_decide (length (searched st) ≠ size bond_dict)) eqn:Es; simpl;
    [|by eexists].
  apply bool_decide_eq_true in Eq, Es. apply length_zero_iff_nil in Eq.
  assert (Hnd : NoDup (searched st)).
  { apply occurrences_NoDup. intros x.
    pose proof (wf_weight _ _ _ _ Hwf x) as Hw.
    rewrite !occurrences_app in Hw. lia. }
  assert (Hsa : ∀ x, x ∈ searched st → x < size bond_dict).
  { intros x Hx. destruct (wf_listed _ _ _ _ Hwf x) as (grp & Hg & Hxg); [set_solver|].
    destruct (wf_member_assigned _ _ _ _ Hwf grp x Hg Hxg) as (v & Hv & _).
    rewrite <- (wf_length _ _ _ _ Hwf). by eapply lookup_lt_Some. }
  destruct (below_some_missing _ _ Hnd Hsa Es) as (x & Hx & Hnx).
  rewrite <- (wf_length _ _ _ _ Hwf) in Hx.
  destruct (lookup_lt_is_Some_2 _ _ Hx) as [v Hv].
  assert (v = (-1)%Z) as ->.
  { destruct (decide (v = (-1)%Z)) as [|Hne]; [done|]. exfalso.
    specialize (Hal x v Hv Hne). rewrite Eq in Hal. set_solver. }
  assert (Hin : x ∈ where_unassigned 0 (to_group st)).
  { apply elem_of_where_unassigned. by exists x. }
  destruct (where_unassigned 0 (to_group st)) as [|u rest] eqn:Eu;
    [by apply elem_of_nil in Hin|].
  assert (Hu : u ∈ where_unassigned 0 (to_group st)) by (rewrite Eu; left).
  apply elem_of_where_unassigned in Hu as (i & -> & Hi).
  apply lookup_lt_Some in Hi.
  unfold np_set. rewrite decide_True by done. simpl. by eexists.
Qed.

Lemma groups_step_returns bod st :
  groups_wf bond_dict 1 [bod] st →
  groups_ord bond_dict (to_group st) (G st) →
  assigned_listed [bod] st →
  ∃ st', groups_step bond_dict (size bond_dict) bod st = Ok st'.
Proof using Hkeys Hirr Hrange.
  intros Hwf Hord Hal.
  destruct (wf_listed _ _ _ _ Hwf bod) as (grp0 & Hg0 & Hx0); [set_solver|].
  destruct (wf_member_assigned _ _ _ _ Hwf grp0 bod Hg0 Hx0) as (v & Hv & Hv').
  destruct (ord_assigned _ _ _ Hord _ _ Hv Hv') as (n & grp & -> & Hn & Hbod).
  assert (Hkey : is_Some (bond_dict !! bod)).
  { apply Hkeys. rewrite <- (wf_length _ _ _ _ Hwf). by eapply lookup_lt_Some. }
  destruct Hkey as [l Hl].
  unfold groups_step, np_get. rewrite Hv. simpl. rewrite Hl. simpl.
  destruct (visit_members_returns bod n l st Hwf Hord) as [st1 H1]; [eauto| |].
  { intros m Hm. by exists l. }
  rewrite H1. simpl.
  destruct (visit_members_wf bond_dict 1 (le_n 1) (Z.of_nat n) bod l st st1 Hwf)
    as [Hwf1 _]; [lia| |done|].
  { intros Hin. destruct (Hirr bod). by exists l. }
  pose proof (visit_members_listed _ _ _ _ _ Hal H1) as Hal1.
  apply start_new_group_returns.
  - by apply (wf_searched_append bod l).
  - intros x w Hx Hw. simpl in *. specialize (Hal1 x w Hx Hw). set_solver.
Qed.

Lemma groups_loop_returns fuel : ∀ st e,
  groups_wf bond_dict 1 [] st →
  groups_ord bond_dict (to_group st) (G st) →
  assigned_listed [] st →
  groups_loop fuel bond_dict (size bond_dict) st ≠ Raise e.
Proof using Hkeys Hirr Hrange.
  induction fuel as [|fuel IH]; intros st e Hwf Hord Hal; simpl;
    destruct (queue st) as [|bod rest] eqn:Eq; try done.
  assert (Hpop : groups_wf bond_dict 1 [bod]
            {| to_group := to_group st; G := G st; queue := rest;
               searched := searched st |}).
  { destruct Hwf. rewrite Eq in *. by constructor. }
  assert (Halp : assigned_listed [bod]
            {| to_group := to_group st; G := G st; queue := rest;
               searched := searched st |}).
  { intros x v Hx Hv. simpl in *. specialize (Hal x v Hx Hv).
    rewrite Eq in Hal. set_solver. }
  destruct (groups_step_returns bod _ Hpop Hord Halp) as [st1 H1].
  rewrite H1. simpl.
  destruct (groups_step_wf bond_dict 1 (le_n 1) bod _ st1 (or_introl Hirr) Hpop H1)
    as (Hwf1 & _ & _).
  apply IH; [done| |].
  - eapply groups_step_ord; [| |exact H1]; [done|]. simpl.
    destruct (wf_listed _ _ _ _ Hpop bod) as (grp & Hg & Hx); [set_solver|].
    by apply (wf_member_assigned _ _ _ _ Hpop grp bod).
  - by eapply groups_step_listed.
Qed.

Lemma get_groups_cover :
  1 ≤ size bond_dict →
  ∃ groups, get_groups bond_dict = Ok groups
    ∧ ∀ i, i < size bond_dict ↔ ∃ grp, grp ∈ groups ∧ i ∈ grp.
Proof using Hkeys Hirr Hrange.
  intros HN.
  pose proof (get_groups_terminates bond_dict) as Hfuel.
  destruct (get_groups bond_dict) as [groups|e|] eqn:E; [|exfalso|done].
  - exists groups. split; [done|]. unfold get_groups in E.
    apply bind_Ok_inv in E as (tg & Hset & H).
    apply np_set_Ok_inv in Hset as [_ ->].
    apply (groups_loop_wf bond_dict 1) in H as (st & -> & Hwf & Hq & Hlen);
      [|done|by left|by apply groups_init_wf|by left].
    assert (Hnd : NoDup (searched st)).
    { apply occurrences_NoDup. intros x.
      pose proof (wf_weight _ _ _ _ Hwf x) as Hw.
      rewrite !occurrences_app in Hw. lia. }
    assert (Hma : ∀ grp x, grp ∈ G st → x ∈ grp → x < size bond_dict).
    { intros grp x Hg Hx.
      destruct (wf_member_assigned _ _ _ _ Hwf grp x Hg Hx) as (v & Hv & _).
      rewrite <- (wf_length _ _ _ _ Hwf). by eapply lookup_lt_Some. }
    assert (Hsa : ∀ x, x ∈ searched st → x < size bond_dict).
    { intros x Hx. destruct (wf_listed _ _ _ _ Hwf x) as (grp & Hg & Hxg); [set_solver|].
      by eapply Hma. }
    intros i. split.
    + intros Hi. apply (wf_listed _ _ _ _ Hwf).
      assert (i ∈ searched st) by (by apply (below_all_in _ (size bond_dict))).
      set_solver.
    + intros (grp & Hg & Hx). by eapply Hma.
  - unfold get_groups, np_set in E. rewrite length_replicate in E.
    rewrite decide_True in E by lia. simpl in E.
    eapply groups_loop_returns; [| | |exact E].
    + by apply groups_init_wf.
    + simpl. constructor.
      * intros x v Hx Hv. destruct (decide (x = 0)) as [->|Hne].
        -- rewrite list_lookup_insert_eq in Hx by (rewrite length_replicate; lia).
           injection Hx as <-. exists 0, [0]. split; [done|]. split; [done|set_solver].
        -- rewrite list_lookup_insert_ne in Hx by done.
           apply lookup_replicate in Hx as [-> _]. done.
      * intros [|a] grp Hg; [|done]. injection Hg as <-.
        exists 0, []. split; [done|]. intros i Hi. lia.
      * intros [|a] grp j m Hg; [|done]. by injection Hg as <-.
    + intros x v Hx Hv. simpl in *. destruct (decide (x = 0)) as [->|Hne]; [set_solver|].
      rewrite list_lookup_insert_ne in Hx by done.
      apply lookup_replicate in Hx as [-> _]. done.
Qed.

End get_groups_one_way.

(** X14. Symmetry is not needed for [get_groups] to return. For every bond
    dictionary with the keys [0 .. N-1], [N >= 1], no body bonded to itself
    and every bond leading to a body below [N], symmetric or not,
    [get_groups] returns, and the groups it returns hold the bodies
    [0 .. N-1] and nothing else. *)
Theorem get_groups_returns_without_symmetry (bond_dict : gmap nat (list nat)) :
  1 ≤ size bond_dict →
  keys_are_range bond_dict →
  no_self_bond bond_dict →
  bonds_in_range bond_dict →
  ∃ groups, get_groups bond_dict = Ok groups
    ∧ ∀ i, i < size bond_dict ↔ ∃ grp, grp ∈ groups ∧ i ∈ grp.
Proof.
  intros HN Hkeys Hirr Hrange. by apply get_groups_cover.
Qed.

Lemma get_groups_returns_without_symmetry_witness :
  ∃ groups, get_groups one_way_bonds = Ok groups
    ∧ ∀ i, i < size one_way_bonds ↔ ∃ grp, grp ∈ groups ∧ i ∈ grp.
Proof.
  apply (get_groups_returns_without_symmetry one_way_bonds).
  - vm_compute. lia.
  - apply keys_are_range_b_true. vm_compute. reflexivity.
  - apply no_self_bond_b_true. vm_compute. reflexivity.
  - apply bonds_in_range_b_true. vm_compute. reflexivity.
Defined.

(** ** The boxes that are looked up *)

Lemma product_length (values : list Z) (n : nat) (adj : list Z) :
  adj ∈ product values n → length adj = n.
Proof.
  revert adj. induction n as [|n IH]; intros adj; simpl.
  - by intros ->%list_elem_of_singleton.
  - intros (a & Hin & Ha)%list_elem_of_bind.
    apply list_elem_of_fmap in Hin as (adj' & -> & Hadj'). simpl.
    f_equal. by apply IH.
Qed.

Lemma addItemToMap_elem m key value k (b : Body) :
  (∃ bucket, Neighborgrid.addItemToMap m key value !! k = Some bucket ∧ b ∈ bucket)
  ↔ (∃ bucket, m !! k = Some bucket ∧ b ∈ bucket) ∨ (k = key ∧ b = value).
Proof.
  unfold Neighborgrid.addItemToMap.
  destruct (m !! key) as [l|] eqn:E; destruct (decide (k = key)) as [->|Hne].
  - rewrite lookup_insert_eq. split.
    + intros (bucket & [= <-] & [Hb|Hb%list_elem_of_singleton]%elem_of_app);
        [left; by exists l|by right].
    + intros [(bucket & Hl & Hb)|[_ ->]]; eexists; (split; [done|]); set_solver.
  - rewrite lookup_insert_ne by done. split; [by left|].
    by intros [?|[? _]].
  - rewrite lookup_insert_eq. split.
    + intros (bucket & [= <-] & Hb%list_elem_of_singleton). by right.
    + intros [(bucket & Hl & Hb)|[_ ->]]; [congruence|].
      eexists. split; [done|set_solver].
  - rewrite lookup_insert_ne by done. split; [by left|].
    by intros [?|[? _]].
Qed.

Lemma for_each_collect {X Y} (h : X → result Y) (f : X → Y) (l : list X) : ∀ acc,
  (∀ x, x ∈ l → h x = Ok (f x)) →
  for_each (λ acc x, y ← h x; Ok (acc ++ [y])) l acc = Ok (acc ++ (f <$> l)).
Proof.
  induction l as [|x l IH]; intros acc Hh; simpl.
  - by rewrite app_nil_r.
  - rewrite (Hh x) by set_solver. simpl.
    rewrite IH by (intros; apply Hh; set_solver).
    by rewrite <- app_assoc.
Qed.

Lemma AdjacentBoxes_ok g centerBox :
  Neighborgrid.dim g ≤ length centerBox →
  Neighborgrid.AdjacentBoxes g centerBox
  = Ok ((λ adj, wrap_cells (Neighborgrid.numD g) (take (Neighborgrid.dim g) centerBox) adj)
          <$> Neighborgrid.indexAdjustment g).
Proof.
  intros Hlen. unfold Neighborgrid.AdjacentBoxes.
  rewrite (for_each_collect _
    (λ adj, wrap_cells (Neighborgrid.numD g) (take (Neighborgrid.dim g) centerBox) adj)).
  - done.
  - intros adj _. unfold Neighborgrid.neighborBox. by rewrite decide_True.
Qed.

Lemma scan_boxes_elem g body boxes : ∀ acc b,
  b ∈ foldl (Neighborgrid.scan_box g body) acc boxes
  ↔ b ∈ acc
    ∨ ∃ box bucket, box ∈ boxes ∧ Neighborgrid.map g !! box = Some bucket ∧ b ∈ bucket
        ∧ body_neq body b = true
        ∧ distance_lt b body (Neighborgrid.domain_size g) (Neighborgrid.R g) = true.
Proof.
  induction boxes as [|box boxes IH]; intros acc b; simpl.
  - split; [by left|]. intros [?|(box & bucket & ?%elem_of_nil & _)]; done.
  - rewrite IH. unfold Neighborgrid.scan_box.
    destruct (Neighborgrid.map g !! box) as [bucket|] eqn:E.
    + rewrite elem_of_app, list_elem_of_filter. split.
      * intros [[?|[Hp Hb]]|(box' & bucket' & Hin & Hrest)]; [by left| |].
        -- right. exists box, bucket. apply andb_prop_elim in Hp as [H1 H2].
           apply Is_true_eq_true in H1, H2. set_solver.
        -- right. exists box', bucket'. set_solver.
      * intros [?|(box' & bucket' & [->|Hin]%elem_of_cons & Hl & Hb & H1 & H2)];
          [by left; left| |].
        -- left. right. rewrite E in Hl. injection Hl as <-. split; [|done].
           apply andb_prop_intro. split; by apply Is_true_eq_left.
        -- right. by exists box', bucket'.
    + split.
      * intros [?|(box' & bucket' & Hin & Hrest)]; [by left|].
        right. exists box', bucket'. set_solver.
      * intros [?|(box' & bucket' & [->|Hin]%elem_of_cons & Hl & Hrest)];
          [by left|congruence|].
        right. by exists box', bucket'.
Qed.

(** ** The contents of the grid after [update] *)

Lemma set_map_set_map g m m' :
  Neighborgrid.set_map (Neighborgrid.set_map g m) m' = Neighborgrid.set_map g m'.
Proof. reflexivity. Qed.

Lemma set_map_map g : Neighborgrid.set_map g (Neighborgrid.map g) = g.
Proof. by destruct g. Qed.

Lemma in_cell_set_map g m key body :
  in_cell (Neighborgrid.set_map g m) key body = in_cell g key body.
Proof. reflexivity. Qed.

(** The loop of [update] keeps the geometry of the grid, and the map it
    leaves holds what the map held, then the bodies placed, under their
    cells and in their order. *)
Lemma update_loop_buckets bodies : ∀ g g' r,
  Neighborgrid.update_loop g bodies = (g', r) →
  ∃ placed,
    g' = Neighborgrid.set_map g (Neighborgrid.map g')
    ∧ (r = Ok () → placed = bodies)
    ∧ (∀ e, r = Raise e → ∃ body rest, bodies = placed ++ body :: rest
                            ∧ Neighborgrid.convertPosToIndex g body = Raise e)
    ∧ r ≠ OutOfFuel
    ∧ Forall (λ b, returns (Neighborgrid.convertPosToIndex g b)) placed
    ∧ ∀ key, Neighborgrid.map g' !! key
             = match filter (λ b, in_cell g key b) placed with
               | [] => Neighborgrid.map g !! key
               | bucket => Some (default [] (Neighborgrid.map g !! key) ++ bucket)
               end.
Proof.
  induction bodies as [|body bodies IH]; intros g g' r; simpl.
  - intros [= <- <-]. exists []. rewrite set_map_map. repeat split; try done.
  - pose proof (convertPosToIndex_result g body) as Hres.
    destruct (Neighborgrid.convertPosToIndex g body) as [k|e|] eqn:Ek.
    2:{ intros [= <- <-]. exists []. rewrite set_map_map. repeat split; try done.
        intros e' [= <-]. by exists body, bodies. }
    2:{ destruct Hres as [?|[? ?]]; done. }
    intros H. apply IH in H as (placed & Hg & Hok & Hraise & Hfuel & Hall & Hmap).
    exists (body :: placed). rewrite set_map_set_map in Hg.
    split; [done|]. split; [intros Hr; by rewrite (Hok Hr)|]. split.
    { intros e He. destruct (Hraise e He) as (b & rest & -> & Hb).
      exists b, rest. split; [done|]. exact Hb. }
    split; [done|]. split.
    { constructor; [by exists k|]. eapply Forall_impl; [exact Hall|].
      intros b Hb. exact Hb. }
    intros key. rewrite Hmap. simpl Neighborgrid.map.
    assert (Hc : in_cell g key body = bool_decide (k = key)).
    { unfold in_cell. by rewrite Ek. }
    change (filter (λ b, in_cell
              (Neighborgrid.set_map g
                 (Neighborgrid.addItemToMap (Neighborgrid.map g) k body)) key b) placed)
      with (filter (λ b, in_cell g key b) placed).
    unfold Neighborgrid.addItemToMap.
    destruct (decide (k = key)) as [->|Hne].
    + rewrite filter_cons_True
        by (rewrite Hc; apply Is_true_eq_left; by apply bool_decide_eq_true_2).
      destruct (Neighborgrid.map g !! key) as [l|] eqn:El;
        rewrite lookup_insert_eq; simpl.
      * destruct (filter _ placed) as [|b bs]; [done|].
        by rewrite <- app_assoc.
      * by destruct (filter _ placed).
    + rewrite filter_cons_False.
      2:{ rewrite Hc, bool_decide_eq_false_2 by done. simpl. tauto. }
      destruct (Neighborgrid.map g !! k) as [l|] eqn:El;
        rewrite lookup_insert_ne by done; done.
Qed.

(** X15. What a successful [update] leaves in the grid. When
    [convertPosToIndex] returns for every body, [update] succeeds; it
    changes nothing of the grid but the map; and the map then holds, under
    each cell, the bodies of that cell in the order of the list, and no key
    for a cell without a body. What the map held before is gone. *)
Theorem update_buckets (g0 : Neighborgrid.t) (bodies : list Body) :
  Forall (λ b, returns (Neighborgrid.convertPosToIndex g0 b)) bodies →
  ∃ g, Neighborgrid.update g0 bodies = (g, Ok ())
       ∧ g = Neighborgrid.set_map g0 (Neighborgrid.map g)
       ∧ ∀ key, Neighborgrid.map g !! key
                = match filter (λ b, in_cell g0 key b) bodies with
                  | [] => None
                  | bucket => Some bucket
                  end.
Proof.
  intros Hall. unfold Neighborgrid.update.
  destruct (Neighborgrid.update_loop (Neighborgrid.set_map g0 ∅) bodies)
    as [g r] eqn:E.
  destruct (update_loop_buckets _ _ _ _ E)
    as (placed & Hg & Hok & Hraise & Hfuel & _ & Hmap).
  destruct r as [[]|e|]; [|exfalso|done].
  - exists g. split; [done|]. split; [by rewrite set_map_set_map in Hg|].
    intros key. rewrite Hmap, (Hok eq_refl). simpl. rewrite lookup_empty.
    by destruct (filter _ bodies).
  - destruct (Hraise e eq_refl) as (body & rest & -> & Hb).
    change (Neighborgrid.convertPosToIndex g0 body = Raise e) in Hb.
    apply Forall_app in Hall as [_ Hall]. apply Forall_cons in Hall as [[k Hk] _].
    congruence.
Qed.

Lemma update_buckets_witness :
  ∃ g, Neighborgrid.update sample_grid [body_a; body_b; body_far] = (g, Ok ())
       ∧ g = Neighborgrid.set_map sample_grid (Neighborgrid.map g)
       ∧ Neighborgrid.map g !! [2; 2]%Z = Some [body_a]
       ∧ Neighborgrid.map g !! [3; 2]%Z = Some [body_b]
       ∧ Neighborgrid.map g !! [0; 0]%Z = None.
Proof.
  destruct (update_buckets sample_grid [body_a; body_b; body_far])
    as (g & Hup & Hg & Hmap).
  - repeat constructor; eexists; vm_compute; reflexivity.
  - exists g. split; [exact Hup|]. split; [exact Hg|].
    assert (Eg : g = (Neighborgrid.update sample_grid [body_a; body_b; body_far]).1)
      by (by rewrite Hup).
    rewrite Eg. repeat split; vm_compute; reflexivity.
Defined.

(** X16. [getNeighborhood] reports no false neighbour. Whatever the grid
    and the bodies, and whether the last [update] succeeded or raised, a
    body that [getNeighborhood] returns was given to that [update], is
    another body than the one asked about, and is at a distance below [R]
    from it. *)
Theorem getNeighborhood_sound (g0 g : Neighborgrid.t) (bodies : list Body)
    (r : result unit) (body : Body) (l : list Body) :
  Neighborgrid.update g0 bodies = (g, r) →
  Neighborgrid.getNeighborhood g body = Ok l →
  ∀ b, b ∈ l →
    b ∈ bodies ∧ get_id b ≠ get_id body
    ∧ distance_lt b body (Neighborgrid.domain_size g0) (Neighborgrid.R g0) = true.
Proof.
  unfold Neighborgrid.update. intros Hup Hget b Hb.
  destruct (update_loop_buckets _ _ _ _ Hup)
    as (placed & Hg & Hok & Hraise & Hfuel & _ & Hmap).
  assert (Hsub : placed ⊆ bodies).
  { destruct r as [[]|e|]; [|
    |done].
    - by rewrite (Hok eq_refl).
    - destruct (Hraise e eq_refl) as (body' & rest & -> & _). set_solver. }
  unfold Neighborgrid.getNeighborhood in Hget.
  apply bind_Ok_inv in Hget as (centerBox & _ & Hget).
  apply bind_Ok_inv in Hget as (boxes & _ & [= <-]).
  apply scan_boxes_elem in Hb
    as [Hb%elem_of_nil|(box & bucket & _ & Hlook & Hin & Hneq & Hdist)]; [done|].
  rewrite Hg in Hdist. simpl in Hdist. split; [|split; [|done]].
  - apply Hsub. rewrite Hmap in Hlook. simpl in Hlook. rewrite lookup_empty in Hlook.
    destruct (filter _ placed) as [|b0 bs] eqn:Ef; [done|].
    injection Hlook as <-. simpl in Hin. rewrite <- Ef in Hin.
    by apply list_elem_of_filter in Hin as [_ Hin].
  - unfold body_neq in Hneq. apply negb_true_iff, Nat.eqb_neq in Hneq. congruence.
Qed.

Lemma getNeighborhood_sound_witness :
  Neighborgrid.getNeighborhood
    (Neighborgrid.update sample_grid [body_a; body_b; body_far]).1 body_a = Ok [body_b]
  ∧ body_b ∈ [body_a; body_b; body_far] ∧ get_id body_b ≠ get_id body_a
  ∧ distance_lt body_b body_a (Neighborgrid.domain_size sample_grid)
      (Neighborgrid.R sample_grid) = true.
Proof.
  split; [vm_compute; reflexivity|].
  apply (getNeighborhood_sound sample_grid
           (Neighborgrid.update sample_grid [body_a; body_b; body_far]).1
           [body_a; body_b; body_far] (Ok ()) body_a [body_b]).
  - vm_compute. reflexivity.
  - vm_compute. reflexivity.
  - left.
Defined.

(** ** The boxes around a cell *)

Lemma product_size (values : list Z) (n : nat) :
  length (product values n) = length values ^ n.
Proof.
  induction n as [|n IH]; [done|]. simpl.
  assert (Hbind : ∀ l : list Z,
            length (x ← l; (x ::.) <$> product values n)
            = length l * length values ^ n).
  { induction l as [|x l IHl]; [done|]. simpl.
    change (length ((cons x <$> product values n)
                    ++ (y ← l; (y ::.) <$> product values n))
            = length values ^ n + length l * length values ^ n).
    by rewrite length_app, length_fmap, IH, IHl. }
  apply Hbind.
Qed.

Lemma wrap_cells_lookup numD centerBox adj i c :
  wrap_cells numD centerBox adj !! i = Some c →
  ∃ x a n, centerBox !! i = Some x ∧ adj !! i = Some a ∧ numD !! i = Some n
           ∧ c = np_mod (int64_add x a) n.
Proof.
  unfold wrap_cells. intros H.
  apply lookup_zip_with_Some in H as ([x a] & n & -> & Hxa & Hn).
  apply lookup_zip_with_Some in Hxa as (x' & a' & [= <- <-] & Hx & Ha).
  by exists x, a, n.
Qed.

Lemma wrap_cells_length numD centerBox adj :
  length centerBox = length numD → length adj = length numD →
  length (wrap_cells numD centerBox adj) = length numD.
Proof.
  intros H1 H2. unfold wrap_cells. rewrite length_zip_with, length_zip_with. lia.
Qed.

Lemma AdjacentBoxes_short lim R periodic g centerBox :
  Neighborgrid.init lim R periodic = Ok g →
  length centerBox < Neighborgrid.dim g →
  Neighborgrid.AdjacentBoxes g centerBox = Raise IndexError.
Proof.
  intros Hinit Hlt.
  destruct (init_fields _ _ _ _ Hinit)
    as (_ & _ & _ & _ & _ & _ & _ & Hadj & _).
  unfold Neighborgrid.AdjacentBoxes. rewrite Hadj.
  pose proof (product_size [-2; -1; 0; 1; 2]%Z (length lim)) as Hsz.
  destruct (product _ _) as [|adj rest].
  - simpl in Hsz. pose proof (Nat.pow_nonzero 5 (length lim)). lia.
  - simpl. unfold Neighborgrid.neighborBox. by rewrite decide_False by lia.
Qed.

(** X17. The boxes [AdjacentBoxes] returns. On a grid made by the
    constructor, for a centre of at least [dim] entries, [AdjacentBoxes]
    returns [5^dim] boxes of [dim] entries each, and on an axis of at least
    one cell each entry is a cell number of that axis, from [0] to
    [numD - 1]; for a centre of fewer entries it raises an [IndexError]. *)
Theorem AdjacentBoxes_shape (lim : list (float64 * float64)) (R : float64)
    (periodic : list bool)
    (g : Neighborgrid.t) (centerBox : list Z) :
  Neighborgrid.init lim R periodic = Ok g →
  (length centerBox < Neighborgrid.dim g →
     Neighborgrid.AdjacentBoxes g centerBox = Raise IndexError)
  ∧ (Neighborgrid.dim g ≤ length centerBox →
     ∃ boxes, Neighborgrid.AdjacentBoxes g centerBox = Ok boxes
       ∧ length boxes = 5 ^ Neighborgrid.dim g
       ∧ ∀ box, box ∈ boxes →
           length box = Neighborgrid.dim g
           ∧ ∀ i c n, box !! i = Some c → Neighborgrid.numD g !! i = Some n →
                      (0 < n)%Z → (0 ≤ c < n)%Z).
Proof.
  intros Hinit.
  destruct (init_fields _ _ _ _ Hinit)
    as (_ & _ & _ & Hdim & _ & _ & _ & Hadj & Hn & _).
  assert (HnumD : length (Neighborgrid.numD g) = Neighborgrid.dim g).
  { by rewrite Hn, length_fmap. }
  split; [by apply (AdjacentBoxes_short lim R periodic)|].
  intros Hle. rewrite AdjacentBoxes_ok by done. eexists. split; [done|].
  rewrite length_fmap, Hadj, product_size, Hdim. split; [done|].
  intros box (adj & -> & Hin)%list_elem_of_fmap.
  apply product_length in Hin. split.
  - rewrite wrap_cells_length; rewrite ?length_take; lia.
  - intros i c n Hc Hni Hpos.
    apply wrap_cells_lookup in Hc as (x & a & n' & _ & _ & Hn' & ->).
    rewrite Hni in Hn'. injection Hn' as <-. unfold np_mod.
    rewrite (proj2 (Z.eqb_neq n 0)) by lia. by apply Z.mod_pos_bound.
Qed.

Lemma AdjacentBoxes_shape_witness :
  ∃ boxes, Neighborgrid.AdjacentBoxes sample_grid [19; 0]%Z = Ok boxes
    ∧ length boxes = 5 ^ Neighborgrid.dim sample_grid
    ∧ ∀ box, box ∈ boxes →
        length box = Neighborgrid.dim sample_grid
        ∧ ∀ i c n, box !! i = Some c → Neighborgrid.numD sample_grid !! i = Some n →
                   (0 < n)%Z → (0 ≤ c < n)%Z.
Proof.
  apply (AdjacentBoxes_shape [(f64 0, f64 10); (f64 0, f64 10)] (f64 1) [false; false]
           sample_grid
           [19; 0]%Z).
  - vm_compute. reflexivity.
  - vm_compute. lia.
Defined.

(** ** Bodies filed under a cell that is never looked up *)

(** The boxes of a neighbourhood, on a grid made by the constructor. *)
Lemma AdjacentBoxes_Ok_inv lim R periodic g centerBox boxes :
  Neighborgrid.init lim R periodic = Ok g →
  Neighborgrid.AdjacentBoxes g centerBox = Ok boxes →
  Neighborgrid.dim g ≤ length centerBox
  ∧ boxes = (λ adj, wrap_cells (Neighborgrid.numD g)
                      (take (Neighborgrid.dim g) centerBox) adj)
            <$> Neighborgrid.indexAdjustment g.
Proof.
  intros Hinit H.
  destruct (decide (Neighborgrid.dim g ≤ length centerBox)) as [Hle|Hgt].
  - split; [done|]. rewrite AdjacentBoxes_ok in H by done. by injection H.
  - rewrite (AdjacentBoxes_short _ _ _ _ _ Hinit) in H by lia. done.
Qed.

(** What [getNeighborhood] returns comes from a bucket of the map under one
    of the adjacent boxes, where the last [update] filed it. *)
Lemma getNeighborhood_Ok_inv (g0 g : Neighborgrid.t) bodies r body l b :
  Neighborgrid.update g0 bodies = (g, r) →
  Neighborgrid.getNeighborhood g body = Ok l → b ∈ l →
  ∃ centerBox boxes box,
    Neighborgrid.convertPosToIndex g0 body = Ok centerBox
    ∧ Neighborgrid.AdjacentBoxes g0 centerBox = Ok boxes
    ∧ box ∈ boxes
    ∧ Neighborgrid.convertPosToIndex g0 b = Ok box.
Proof.
  unfold Neighborgrid.update. intros Hup Hget Hb.
  destruct (update_loop_buckets _ _ _ _ Hup)
    as (placed & Hg & _ & _ & _ & _ & Hmap).
  rewrite set_map_set_map in Hg.
  unfold Neighborgrid.getNeighborhood in Hget.
  apply bind_Ok_inv in Hget as (centerBox & Hc & Hget).
  apply bind_Ok_inv in Hget as (boxes & Hboxes & [= <-]).
  apply scan_boxes_elem in Hb
    as [Hb%elem_of_nil|(box & bucket & Hbox & Hlook & Hin & _)]; [done|].
  exists centerBox, boxes, box.
  rewrite Hg in Hc, Hboxes.
  split; [exact Hc|]. split; [exact Hboxes|]. split; [done|].
  rewrite Hmap in Hlook. simpl in Hlook. rewrite lookup_empty in Hlook.
  destruct (filter _ placed) as [|b0 bs] eqn:Ef; [done|].
  injection Hlook as <-. simpl in Hin. rewrite <- Ef in Hin.
  apply list_elem_of_filter in Hin as [Hcell _].
  unfold in_cell in Hcell.
  change (Neighborgrid.convertPosToIndex (Neighborgrid.set_map g0 ∅) b)
    with (Neighborgrid.convertPosToIndex g0 b) in Hcell.
  destruct (Neighborgrid.convertPosToIndex g0 b) as [k| |]; [|done..].
  apply Is_true_eq_true, bool_decide_eq_true in Hcell. by subst.
Qed.

(** X19. A body filed outside the cells of an axis is never reported. On a
    grid made by the constructor, take a body that [convertPosToIndex] files
    under a key whose entry on some axis of at least one cell is not a cell
    number of that axis, not in [0 .. numD - 1]; a body on the upper bound
    of the box can be one. Whatever the other bodies are and whichever body
    is asked about, [getNeighborhood] does not return it, however close the
    two are: the boxes that are looked up hold the cell numbers
    [0 .. numD - 1] only. *)
Theorem body_outside_cells_unseen (lim : list (float64 * float64)) (R : float64)
    (periodic : list bool) (g0 g : Neighborgrid.t) (bodies : list Body)
    (r : result unit) (b query : Body) (key : list Z) (i : nat) (c n : Z)
    (l : list Body) :
  Neighborgrid.init lim R periodic = Ok g0 →
  Neighborgrid.convertPosToIndex g0 b = Ok key →
  key !! i = Some c →
  Neighborgrid.numD g0 !! i = Some n →
  (0 < n)%Z →
  ¬ (0 ≤ c < n)%Z →
  Neighborgrid.update g0 bodies = (g, r) →
  Neighborgrid.getNeighborhood g query = Ok l →
  b ∉ l.
Proof.
  intros Hinit Hkey Hc Hn Hpos Hout Hup Hget Hin.
  destruct (getNeighborhood_Ok_inv _ _ _ _ _ _ _ Hup Hget Hin)
    as (centerBox & boxes & box & _ & Hboxes & Hbox & Hkey').
  rewrite Hkey in Hkey'. injection Hkey' as <-.
  apply (AdjacentBoxes_Ok_inv _ _ _ _ _ _ Hinit) in Hboxes as [_ ->].
  apply list_elem_of_fmap in Hbox as (adj & -> & _).
  apply wrap_cells_lookup in Hc as (x & a & n' & _ & _ & Hn' & ->).
  rewrite Hn in Hn'. injection Hn' as <-.
  apply Hout. unfold np_mod. rewrite (proj2 (Z.eqb_neq n 0)) by lia.
  by apply Z.mod_pos_bound.
Qed.

Lemma body_outside_cells_unseen_witness :
  Neighborgrid.convertPosToIndex sample_grid body_edge = Ok [20; 2]%Z
  ∧ brute_force [body_edge; body_near_edge] (Neighborgrid.domain_size sample_grid)
      (Neighborgrid.R sample_grid) body_near_edge = [body_edge]
  ∧ Neighborgrid.getNeighborhood
      (Neighborgrid.update sample_grid [body_edge; body_near_edge]).1 body_near_edge
    = Ok []
  ∧ body_edge ∉ ([] : list Body).
Proof.
  split; [vm_compute; reflexivity|].
  split; [vm_compute; reflexivity|]. split; [vm_compute; reflexivity|].
  apply (body_outside_cells_unseen [(f64 0, f64 10); (f64 0, f64 10)] (f64 1)
           [false; false] sample_grid
           (Neighborgrid.update sample_grid [body_edge; body_near_edge]).1
           [body_edge; body_near_edge] (Ok ()) body_edge body_near_edge
           [20; 2]%Z 0 20%Z 20%Z []).
  - vm_compute. reflexivity.
  - vm_compute. reflexivity.
  - reflexivity.
  - vm_compute. reflexivity.
  - lia.
  - lia.
  - vm_compute. reflexivity.
  - vm_compute. reflexivity.
Defined.

(** ** Neighbours reported once *)

Lemma scan_boxes_bind g body boxes : ∀ acc,
  foldl (Neighborgrid.scan_box g body) acc boxes
  = acc ++ (box ← boxes;
            filter (λ body_j, body_neq body body_j
                              && distance_lt body_j body (Neighborgrid.domain_size g)
                                   (Neighborgrid.R g))
                   (default [] (Neighborgrid.map g !! box))).
Proof.
  induction boxes as [|box boxes IH]; intros acc; simpl.
  - by rewrite app_nil_r.
  - rewrite IH. unfold Neighborgrid.scan_box.
    destruct (Neighborgrid.map g !! box) as [bucket|]; simpl.
    + by rewrite <- app_assoc.
    + done.
Qed.

Lemma product_entries (values : list Z) (n : nat) : ∀ adj,
  adj ∈ product values n → Forall (λ a, a ∈ values) adj.
Proof.
  induction n as [|n IH]; intros adj; simpl.
  - intros ->%list_elem_of_singleton. constructor.
  - intros (a & Hin & Ha)%list_elem_of_bind.
    apply list_elem_of_fmap in Hin as (adj' & -> & Hadj').
    constructor; [done|by apply IH].
Qed.

Lemma product_NoDup (values : list Z) (n : nat) :
  NoDup values → NoDup (product values n).
Proof.
  intros Hnd. induction n as [|n IH]; simpl; [apply NoDup_singleton|].
  apply NoDup_bind; [| |done].
  - intros x1 x2 y _ _ (y1 & -> & _)%list_elem_of_fmap (y2 & [= -> _] & _)%list_elem_of_fmap.
    done.
  - intros x _. apply NoDup_fmap_2_strong; [|done]. by intros ?? _ _ [= ->].
Qed.

Lemma int64_add_small (a b : Z) :
  (- 2 ^ 63 ≤ a + b < 2 ^ 63)%Z → int64_add a b = (a + b)%Z.
Proof. intros H. unfold int64_add. rewrite Z.mod_small; lia. Qed.

Lemma wrap_cells_cons n ns c cs a adj :
  wrap_cells (n :: ns) (c :: cs) (a :: adj)
  = np_mod (int64_add c a) n :: wrap_cells ns cs adj.
Proof. reflexivity. Qed.

(** On axes of at least five cells, and away from the ends of the 64-bit
    range, two different shifts of a centre lead to two different boxes. *)
Lemma wrap_cells_inj numD centerBox adj adj' :
  Forall (λ n, (5 ≤ n)%Z) numD →
  Forall (λ c, (- 2 ^ 63 + 2 ≤ c < 2 ^ 63 - 2)%Z) centerBox →
  length centerBox = length numD →
  length adj = length numD → length adj' = length numD →
  Forall (λ a, a ∈ [-2; -1; 0; 1; 2]%Z) adj →
  Forall (λ a, a ∈ [-2; -1; 0; 1; 2]%Z) adj' →
  wrap_cells numD centerBox adj = wrap_cells numD centerBox adj' →
  adj = adj'.
Proof.
  revert centerBox adj adj'.
  induction numD as [|n numD IH]; intros centerBox adj adj' Hn Hcb Hc Ha Ha' Hv Hv' Heq.
  - destruct adj, adj'; done.
  - destruct centerBox as [|x centerBox]; [done|].
    destruct adj as [|a adj]; [done|]. destruct adj' as [|a' adj']; [done|].
    rewrite !wrap_cells_cons in Heq. injection Heq as Hmod Heq.
    apply Forall_cons in Hn as [Hn5 Hn]. apply Forall_cons in Hv as [Hva Hv].
    apply Forall_cons in Hv' as [Hva' Hv']. apply Forall_cons in Hcb as [Hx Hcb].
    simpl in Hc, Ha, Ha'.
    f_equal; [|apply (IH centerBox); try done; lia].
    unfold np_mod in Hmod. rewrite (proj2 (Z.eqb_neq n 0)) in Hmod by lia.
    assert (Hr : (-2 ≤ a ≤ 2)%Z) by set_solver by lia.
    assert (Hr' : (-2 ≤ a' ≤ 2)%Z) by set_solver by lia.
    rewrite !int64_add_small in Hmod by lia.
    pose proof (Z.div_mod (x + a) n) as H1.
    pose proof (Z.div_mod (x + a') n) as H2.
    rewrite Hmod in H1.
    assert (Hd : (a - a' = n * ((x + a) / n - (x + a') / n))%Z) by lia.
    assert (((x + a) / n - (x + a') / n = 0)%Z) by nia.
    lia.
Qed.

Lemma AdjacentBoxes_NoDup lim R periodic g0 centerBox boxes :
  Neighborgrid.init lim R periodic = Ok g0 →
  Forall (λ n, (5 ≤ n)%Z) (Neighborgrid.numD g0) →
  Forall (λ c, (- 2 ^ 63 + 2 ≤ c < 2 ^ 63 - 2)%Z) centerBox →
  Neighborgrid.AdjacentBoxes g0 centerBox = Ok boxes → NoDup boxes.
Proof.
  intros Hinit H5 Hcb H.
  apply (AdjacentBoxes_Ok_inv _ _ _ _ _ _ Hinit) in H as [Hle ->].
  destruct (init_fields _ _ _ _ Hinit)
    as (_ & _ & _ & Hdim & _ & _ & _ & Hadj & Hn & _).
  assert (HnumD : length (Neighborgrid.numD g0) = Neighborgrid.dim g0).
  { by rewrite Hn, length_fmap. }
  apply NoDup_fmap_2_strong.
  - intros adj adj' Hin Hin' Heq. rewrite Hadj in Hin, Hin'.
    apply (wrap_cells_inj _ _ _ _ H5) in Heq; [done|..].
    + by apply Forall_take.
    + rewrite length_take. lia.
    + apply product_length in Hin. lia.
    + apply product_length in Hin'. lia.
    + by apply product_entries in Hin.
    + by apply product_entries in Hin'.
  - rewrite Hadj. apply product_NoDup.
    repeat (apply NoDup_cons; split; [set_solver by lia|]). apply NoDup_nil_2.
Qed.

(** X20. Each neighbour is reported once. On a grid made by the constructor
    with at least five cells on every axis, after an [update] with bodies
    that are all different, and for a body whose cell numbers are at least
    two away from the ends of the 64-bit range, so that no shifted cell
    number wraps around, [getNeighborhood] returns no body twice. *)
Theorem getNeighborhood_NoDup (lim : list (float64 * float64)) (R : float64)
    (periodic : list bool) (g0 g : Neighborgrid.t) (bodies : list Body)
    (r : result unit) (body : Body) (centerBox : list Z) (l : list Body) :
  Neighborgrid.init lim R periodic = Ok g0 →
  Forall (λ n, (5 ≤ n)%Z) (Neighborgrid.numD g0) →
  NoDup bodies →
  Neighborgrid.update g0 bodies = (g, r) →
  Neighborgrid.convertPosToIndex g0 body = Ok centerBox →
  Forall (λ c, (- 2 ^ 63 + 2 ≤ c < 2 ^ 63 - 2)%Z) centerBox →
  Neighborgrid.getNeighborhood g body = Ok l →
  NoDup l.
Proof.
  unfold Neighborgrid.update. intros Hinit H5 Hnd Hup Hcenter Hcb Hget.
  destruct (update_loop_buckets _ _ _ _ Hup)
    as (placed & Hg & Hok & Hraise & Hfuel & _ & Hmap).
  rewrite set_map_set_map in Hg.
  assert (Hpl : NoDup placed).
  { destruct r as [[]|e|]; [| |done].
    - by rewrite (Hok eq_refl).
    - destruct (Hraise e eq_refl) as (body' & rest & -> & _).
      by apply NoDup_app in Hnd as [? _]. }
  assert (Hbucket : ∀ box, default [] (Neighborgrid.map g !! box)
                           = filter (λ b, in_cell g0 box b) placed).
  { intros box. rewrite Hmap. simpl. rewrite lookup_empty.
    change (filter (λ b, in_cell (Neighborgrid.set_map g0 ∅) box b) placed)
      with (filter (λ b, in_cell g0 box b) placed).
    by destruct (filter _ placed). }
  unfold Neighborgrid.getNeighborhood in Hget.
  apply bind_Ok_inv in Hget as (centerBox' & Hc' & Hget).
  apply bind_Ok_inv in Hget as (boxes & Hboxes & [= <-]).
  rewrite Hg in Hc', Hboxes.
  change (Neighborgrid.convertPosToIndex g0 body = Ok centerBox') in Hc'.
  rewrite Hcenter in Hc'. injection Hc' as <-.
  rewrite scan_boxes_bind. simpl. apply NoDup_bind.
  - intros box1 box2 b _ _ [_ H1]%list_elem_of_filter [_ H2]%list_elem_of_filter.
    rewrite Hbucket in H1, H2.
    apply list_elem_of_filter in H1 as [H1 _]. apply list_elem_of_filter in H2 as [H2 _].
    unfold in_cell in H1, H2.
    destruct (Neighborgrid.convertPosToIndex g0 b) as [k| |]; [|done..].
    apply Is_true_eq_true, bool_decide_eq_true in H1, H2. congruence.
  - intros box _. rewrite Hbucket. by do 2 apply NoDup_filter.
  - by eapply (AdjacentBoxes_NoDup lim R periodic g0 centerBox).
Qed.

Lemma getNeighborhood_NoDup_witness :
  Neighborgrid.getNeighborhood
    (Neighborgrid.update sample_grid [body_a; body_b; body_far]).1 body_a = Ok [body_b]
  ∧ NoDup [body_b].
Proof.
  split; [vm_compute; reflexivity|].
  apply (getNeighborhood_NoDup [(f64 0, f64 10); (f64 0, f64 10)] (f64 1)
           [false; false] sample_grid
           (Neighborgrid.update sample_grid [body_a; body_b; body_far]).1
           [body_a; body_b; body_far] (Ok ()) body_a [2; 2]%Z [body_b]).
  - vm_compute. reflexivity.
  - apply (Forall_cons_2 _ 20%Z); [lia|]. apply (Forall_cons_2 _ 20%Z); [lia|].
    apply Forall_nil_2.
  - apply (NoDup_fmap_1 get_id).
    apply (bool_decide_unpack (NoDup (get_id <$> [body_a; body_b; body_far]))).
    vm_compute. exact I.
  - vm_compute. reflexivity.
  - vm_compute. reflexivity.
  - apply Forall_cons_2; [lia|]. apply Forall_cons_2; [lia|]. apply Forall_nil_2.
  - vm_compute. reflexivity.
Defined.

(** ** Bodies the grid accepts *)

Lemma in_bounds_b_true g body :
  in_bounds_b g body = true → in_bounds g body.
Proof.
  unfold in_bounds_b. intros H. apply andb_true_iff in H as [Hlen Hall].
  apply bool_decide_eq_true in Hlen. rewrite forallb_forall in Hall.
  intros i lo hi Hi.
  assert (Hlt : i < length (get_position body)).
  { apply lookup_lt_Some in Hi. lia. }
  destruct (lookup_lt_is_Some_2 _ _ Hlt) as [x Hx].
  exists x. split; [done|].
  specialize (Hall (x, (lo, hi))). simpl in Hall.
  apply andb_true_iff in Hall as [H1 H2].
  - split; by apply negb_true_iff.
  - apply list_elem_of_In. eapply list_elem_of_lookup_2.
    apply lookup_zip_with_Some. by exists x, (lo, hi).
Qed.

Lemma out_of_bounds_closed lim : ∀ position,
  (∀ i x lo hi, position !! i = Some x → lim !! i = Some (lo, hi) →
     flt x lo = false ∧ flt hi x = false) →
  Neighborgrid.out_of_bounds position lim = false.
Proof.
  unfold Neighborgrid.out_of_bounds.
  induction lim as [|[lo hi] lim IH]; intros [|x position] H; simpl; try done.
  destruct (H 0 x lo hi eq_refl eq_refl) as [H1 H2].
  assert (IH' := IH position (λ i, H (S i))).
  apply orb_false_iff in IH' as [-> ->].
  by rewrite H1, H2.
Qed.

Lemma convertPosToIndex_Ok_in_bounds g body key :
  Neighborgrid.dim g = length (Neighborgrid.lim g) →
  Neighborgrid.dim g ≤ length (get_position body) →
  Neighborgrid.convertPosToIndex g body = Ok key → in_bounds g body.
Proof.
  intros Hdim Hlen Hkey i lo hi Hi.
  assert (Hlt : i < Neighborgrid.dim g).
  { rewrite Hdim. by eapply lookup_lt_Some. }
  destruct (lookup_lt_is_Some_2 (get_position body) i) as [x Hx]; [lia|].
  exists x. split; [done|].
  destruct (flt x lo) eqn:Hlo.
  { rewrite outside_raises in Hkey; [done|]. exists i, x, lo, hi. auto. }
  destruct (flt hi x) eqn:Hhi; [|done].
  rewrite outside_raises in Hkey; [done|]. exists i, x, lo, hi. auto.
Qed.

Lemma convertPosToIndex_in_bounds g body :
  Neighborgrid.dim g = length (Neighborgrid.lim g) →
  in_bounds g body →
  ∃ key, Neighborgrid.convertPosToIndex g body = Ok key
         ∧ length key = Nat.min (Neighborgrid.dim g)
                          (Nat.min (length (Neighborgrid.shift g))
                                   (length (Neighborgrid.boxSize g))).
Proof.
  intros Hdim Hin.
  assert (Hlen : Neighborgrid.dim g ≤ length (get_position body)).
  { destruct (Neighborgrid.lim g) as [|row lim'] eqn:El using rev_ind.
    - rewrite Hdim. simpl. lia.
    - destruct row as [lo hi].
      destruct (Hin (length lim') lo hi) as (x & Hx & _).
      { rewrite El. by rewrite list_lookup_middle. }
      apply lookup_lt_Some in Hx. rewrite Hdim, length_app. simpl. lia. }
  unfold Neighborgrid.convertPosToIndex, Neighborgrid.broadcast.
  rewrite length_take, (proj2 (Nat.eqb_eq _ _)) by lia. simpl.
  rewrite out_of_bounds_closed.
  - eexists. split; [done|]. rewrite !length_zip_with, length_take. lia.
  - intros i x lo hi Hx Hi.
    destruct (Hin i lo hi Hi) as (x' & Hx' & Hb).
    apply lookup_take_Some in Hx as [Hx _]. congruence.
Qed.

(** Without NaN, the bounds test finds nothing exactly when every coordinate
    is in the closed interval of its axis. *)
Lemma in_bounds_closed_box g body :
  no_nan g body → (in_bounds g body ↔ in_closed_box g body).
Proof.
  intros [Hpos Hlim].
  assert (Hnan : ∀ i lo hi x, Neighborgrid.lim g !! i = Some (lo, hi) →
            get_position body !! i = Some x →
            is_nan x = false ∧ is_nan lo = false ∧ is_nan hi = false).
  { intros i lo hi x Hi Hx.
    rewrite Forall_lookup in Hpos. rewrite Forall_lookup in Hlim.
    specialize (Hpos i x Hx). destruct (Hlim i (lo, hi) Hi) as [? ?]. done. }
  split; intros H i lo hi Hi; destruct (H i lo hi Hi) as (x & Hx & H1 & H2);
    exists x; (split; [done|]);
    destruct (Hnan i lo hi x Hi Hx) as (Nx & Nlo & Nhi).
  - split; by apply flt_false_fle.
  - split; by apply flt_false_fle.
Qed.

(** X22. Which bodies [convertPosToIndex] accepts. On a grid made by the
    constructor, for a body with at least [dim] coordinates:
    [convertPosToIndex] returns exactly when no coordinate is below the
    [min] or above the [max] of its axis, the returned key has [dim]
    entries, and otherwise the call raises the [ValueError] of the bounds
    test. When no coordinate and no bound is NaN, the accepted bodies are
    those with every coordinate in the closed interval [min, max] of its
    axis. *)
Theorem convertPosToIndex_returns_iff (lim : list (float64 * float64)) (R : float64)
    (periodic : list bool) (g : Neighborgrid.t) (body : Body) :
  Neighborgrid.init lim R periodic = Ok g →
  length lim ≤ length (get_position body) →
  (in_bounds g body ↔
     ∃ key, Neighborgrid.convertPosToIndex g body = Ok key ∧ length key = length lim)
  ∧ (¬ in_bounds g body → Neighborgrid.convertPosToIndex g body = Raise ValueError)
  ∧ (no_nan g body → (in_bounds g body ↔ in_closed_box g body)).
Proof.
  intros Hinit Hlen.
  destruct (init_fields _ _ _ _ Hinit)
    as (Hl & _ & _ & Hdim & _ & Hsh & _ & _ & _ & Hb & _).
  assert (Hdim' : Neighborgrid.dim g = length (Neighborgrid.lim g)) by congruence.
  split; [split|split].
  - intros Hin. destruct (convertPosToIndex_in_bounds g body Hdim' Hin) as (key & Hk & Hlk).
    exists key. split; [done|].
    rewrite Hlk, Hsh, Hb, Hdim, !length_fmap. lia.
  - intros (key & Hk & _). eapply convertPosToIndex_Ok_in_bounds; [done| |done]. lia.
  - intros Hnot. destruct (convertPosToIndex_result g body) as [?|[key Hk]]; [done|].
    destruct Hnot. eapply convertPosToIndex_Ok_in_bounds; [done| |done]. lia.
  - apply in_bounds_closed_box.
Qed.

Lemma convertPosToIndex_returns_iff_witness :
  ∃ key, Neighborgrid.convertPosToIndex sample_grid body_edge = Ok key
         ∧ length key = length [(f64 0, f64 10); (f64 0, f64 10)].
Proof.
  apply (convertPosToIndex_returns_iff [(f64 0, f64 10); (f64 0, f64 10)] (f64 1)
           [false; false] sample_grid body_edge).
  - vm_compute. reflexivity.
  - vm_compute. lia.
  - apply in_bounds_b_true. vm_compute. reflexivity.
Defined.

(** X23. When [getNeighborhood] returns. On a grid made by the constructor
    and after any [update], successful or not, a query for a body with at
    least [dim] coordinates returns a list when no coordinate of the body is
    below the [min] or above the [max] of its axis, and raises the
    [ValueError] of the bounds test otherwise; it never fails in another
    way. *)
Theorem getNeighborhood_returns_iff (lim : list (float64 * float64)) (R : float64)
    (periodic : list bool) (g0 g : Neighborgrid.t) (bodies : list Body)
    (r : result unit) (body : Body) :
  Neighborgrid.init lim R periodic = Ok g0 →
  Neighborgrid.update g0 bodies = (g, r) →
  length lim ≤ length (get_position body) →
  (in_bounds g0 body → ∃ l, Neighborgrid.getNeighborhood g body = Ok l)
  ∧ (¬ in_bounds g0 body → Neighborgrid.getNeighborhood g body = Raise ValueError).
Proof.
  intros Hinit Hup Hlen.
  destruct (init_fields _ _ _ _ Hinit)
    as (Hl & _ & _ & Hdim & _ & Hsh & _ & _ & _ & Hb & _).
  assert (Hdim' : Neighborgrid.dim g0 = length (Neighborgrid.lim g0)) by congruence.
  assert (Hg : ∃ m, g = Neighborgrid.set_map g0 m).
  { unfold Neighborgrid.update in Hup. clear -Hup.
    assert (Hgen : ∀ bs g1 g2 r0, Neighborgrid.update_loop g1 bs = (g2, r0) →
                     ∃ m, g2 = Neighborgrid.set_map g1 m).
    { induction bs as [|b bs IH]; intros g1 g2 r0; simpl.
      - intros [= <- <-]. exists (Neighborgrid.map g1). by destruct g1.
      - destruct (Neighborgrid.convertPosToIndex g1 b).
        + intros H. apply IH in H as [m ->]. by exists m.
        + intros [= <- <-]. exists (Neighborgrid.map g1). by destruct g1.
        + intros [= <- <-]. exists (Neighborgrid.map g1). by destruct g1. }
    apply Hgen in Hup as [m ->]. by exists m. }
  destruct Hg as [m ->]. unfold Neighborgrid.getNeighborhood.
  rewrite convertPosToIndex_set_map. split.
  - intros Hin.
    destruct (convertPosToIndex_in_bounds g0 body Hdim' Hin) as (key & Hk & Hlk).
    rewrite Hk. simpl. rewrite AdjacentBoxes_ok.
    + simpl. by eexists.
    + simpl. rewrite Hlk, Hsh, Hb, Hdim, !length_fmap. lia.
  - intros Hnot. destruct (convertPosToIndex_result g0 body) as [->|[key Hk]]; [done|].
    destruct Hnot. eapply convertPosToIndex_Ok_in_bounds; [done| |done]. lia.
Qed.

Lemma getNeighborhood_returns_iff_witness :
  ∃ l, Neighborgrid.getNeighborhood
         (Neighborgrid.update sample_grid [body_b; body_out; body_far]).1 body_edge
       = Ok l.
Proof.
  apply (getNeighborhood_returns_iff [(f64 0, f64 10); (f64 0, f64 10)] (f64 1)
           [false; false] sample_grid
           (Neighborgrid.update sample_grid [body_b; body_out; body_far]).1
           [body_b; body_out; body_far] (Raise ValueError) body_edge).
  - vm_compute. reflexivity.
  - vm_compute. reflexivity.
  - vm_compute. lia.
  - apply in_bounds_b_true. vm_compute. reflexivity.
Defined.

(** ** The scenario of the specification *)

(** Of three bodies at (1,1,1), (1.5,1,1) and (5,5,5), the first two are
    each other's only neighbour and the third has none. *)
Lemma scenario_neighborhoods :
  let g := (Neighborgrid.update scenario_grid scenario_bodies).1 in
  (Neighborgrid.update scenario_grid scenario_bodies).2 = Ok ()
  ∧ Neighborgrid.getNeighborhood g (mkBody 0 (f64 <$> [1; 1; 1]%Q))
    = Ok [mkBody 1 (f64 <$> [3 # 2; 1; 1]%Q)]
  ∧ Neighborgrid.getNeighborhood g (mkBody 1 (f64 <$> [3 # 2; 1; 1]%Q))
    = Ok [mkBody 0 (f64 <$> [1; 1; 1]%Q)]
  ∧ Neighborgrid.getNeighborhood g (mkBody 2 (f64 <$> [5; 5; 5]%Q)) = Ok [].
Proof. repeat split; vm_compute; reflexivity. Qed.
